(** * ImageVisLab: a shallow embedding of the image-processing core

    The TypeScript sources operate on browser [ImageData] objects whose
    pixels live in a [Uint8ClampedArray].  We model:
    - a [Uint8ClampedArray] as a [list Z]; reads out of range give
      [undefined] ([None]), writes out of range are ignored (typed arrays
      never grow), and every stored number goes through ToUint8Clamp;
    - JavaScript numbers that the algorithms compute with as exact
      rationals [Q] (NaN, where it can arise from an [undefined] read, is
      [None]);
    - [for] loops as iterations of a body over the loop counter. *)

From Stdlib Require Import ZArith QArith Qround Qminmax Qfield Qabs String Ascii List Lia Lqa.
From stdpp Require Import base list.

Open Scope Z_scope.

(* ------------------------------------------------------------------ *)
(** ** Browser primitives *)

Record ImageData := mkImageData {
  width : Z;
  height : Z;
  data : list Z
}.

(** The invariant the [ImageData] constructor and the typed array enforce:
    [data.length = width * height * 4] and every sample is a byte. *)
Definition samples_in_range (a : list Z) : Prop :=
  Forall (fun v => 0 <= v <= 255) a.

Definition wf_image (img : ImageData) : Prop :=
  0 <= width img /\ 0 <= height img /\
  Z.of_nat (length (data img)) = width img * height img * 4 /\
  samples_in_range (data img).

(** ToUint8Clamp for the values the core stores: NaN ([None]) becomes 0,
    integers are clamped to [0,255]. *)
Definition u8_clamp (v : option Z) : Z :=
  match v with
  | None => 0
  | Some z => Z.max 0 (Z.min 255 z)
  end.

(** [a[i]] on a typed array. *)
Definition ta_get (a : list Z) (i : Z) : option Z :=
  if i <? 0 then None else a !! Z.to_nat i.

(** [a[i] = v] on a typed array: ignored out of range. *)
Definition ta_set (a : list Z) (i : Z) (v : option Z) : list Z :=
  if i <? 0 then a else <[Z.to_nat i := u8_clamp v]> a.

(** [new Uint8ClampedArray(n)]. *)
Definition ta_zeros (n : Z) : list Z := replicate (Z.to_nat n) 0.

(** [for (let i = lo; i < hi; i++) body]. *)
Fixpoint for_loop {S : Type} (k : nat) (i : Z) (body : Z -> S -> S) (s : S) : S :=
  match k with
  | O => s
  | Datatypes.S k' => for_loop k' (i + 1) body (body i s)
  end.

Definition for_range {S : Type} (lo hi : Z) (body : Z -> S -> S) (s : S) : S :=
  for_loop (Z.to_nat (hi - lo)) lo body s.

(** [for (let i = 0; i < n; i += 4) body]: the counter takes the values
    [0, 4, 8, ...] below [n], i.e. [ceil(n/4)] iterations. *)
Definition for_step4 {S : Type} (n : Z) (body : Z -> S -> S) (s : S) : S :=
  for_loop (Z.to_nat ((n + 3) / 4)) 0 (fun k => body (4 * k)) s.

(** The four stores [result[idx] = v0; ... result[idx + 3] = v3]. *)
Definition write_pixel (r : list Z) (idx : Z) (v0 v1 v2 v3 : option Z) : list Z :=
  ta_set (ta_set (ta_set (ta_set r idx v0) (idx + 1) v1) (idx + 2) v2) (idx + 3) v3.

(** In-place update of the three colour samples at [i]:
    [d[i] = f0(d[i]); d[i+1] = f1(d[i+1]); d[i+2] = f2(d[i+2])]. *)
Definition update_rgb (d : list Z) (i : Z) (f0 f1 f2 : option Z -> option Z) : list Z :=
  let d := ta_set d i (f0 (ta_get d i)) in
  let d := ta_set d (i + 1) (f1 (ta_get d (i + 1))) in
  ta_set d (i + 2) (f2 (ta_get d (i + 2))).

(* ------------------------------------------------------------------ *)
(** ** Closed forms of arrays built by loops *)

Definition tab (n : nat) (f : nat -> Z) : list Z := f <$> seq 0 n.

(** An array of length [len] whose first [n] cells already hold [f] and
    whose other cells still hold [base]. *)
Definition overlay (len n : nat) (f base : nat -> Z) : list Z :=
  tab len (fun j => if Nat.ltb j n then f j else base j).

(** The value the per-pixel loops leave in cell [j]. *)
Definition pixel_tab (w : Z) (P0 P1 P2 P3 : Z -> Z -> option Z) (j : nat) : Z :=
  let p := Z.of_nat j / 4 in
  let x := p mod w in
  let y := p / w in
  match Z.of_nat j mod 4 with
  | 0 => u8_clamp (P0 x y)
  | 1 => u8_clamp (P1 x y)
  | 2 => u8_clamp (P2 x y)
  | _ => u8_clamp (P3 x y)
  end.

(** The value the in-place [i += 4] loops leave in cell [j]. *)
Definition rgb_tab (orig : list Z) (f0 f1 f2 : option Z -> option Z) (j : nat) : Z :=
  let v := nth j orig 0 in
  match Z.of_nat j mod 4 with
  | 0 => u8_clamp (f0 (Some v))
  | 1 => u8_clamp (f1 (Some v))
  | 2 => u8_clamp (f2 (Some v))
  | _ => v
  end.

(** The value the [i += 4] loops that fill a fresh array leave in cell [j]. *)
Definition step4_tab (V0 V1 V2 V3 : Z -> option Z) (j : nat) : Z :=
  let i := Z.of_nat j - Z.of_nat j mod 4 in
  match Z.of_nat j mod 4 with
  | 0 => u8_clamp (V0 i)
  | 1 => u8_clamp (V1 i)
  | 2 => u8_clamp (V2 i)
  | _ => u8_clamp (V3 i)
  end.

(* ------------------------------------------------------------------ *)
(** ** Point operations (src/src/utils/imageFilters.ts) *)

(** [applyNegative]: [s = L - 1 - r] on the colour samples of a copy. *)
Definition applyNegative (img : ImageData) : ImageData :=
  let d := data img in
  let L := 256 in
  let neg := fun (v : option Z) => option_map (fun r => L - 1 - r) v in
  let d := for_step4 (Z.of_nat (length d)) (fun i d => update_rgb d i neg neg neg) d in
  mkImageData (width img) (height img) d.

(* ------------------------------------------------------------------ *)
(** ** Channel swapping (src/src/utils/edgeDetection.ts) *)

(** [applySwapChannels]: new R = old B, new G = old R, new B = old G. *)
Definition applySwapChannels (img : ImageData) : ImageData :=
  let d := data img in
  let n := Z.of_nat (length d) in
  let result :=
    for_step4 n (fun i r =>
      write_pixel r i (ta_get d (i + 2)) (ta_get d i) (ta_get d (i + 1)) (ta_get d (i + 3)))
      (ta_zeros n) in
  mkImageData (width img) (height img) result.

(** Where cell [j] of the swapped buffer is read from. *)
Definition swap_src (j : nat) : nat :=
  match j mod 4 with
  | 0 => j + 2
  | 1 => j - 1
  | 2 => j - 1
  | _ => j
  end%nat.

(* ------------------------------------------------------------------ *)
(** ** Morphology (src/unnamed/part_001) *)

(** [a[i]] on a plain array. *)
Definition js_index {A : Type} (a : list A) (i : Z) : option A :=
  if i <? 0 then None else a !! Z.to_nat i.

(** [Math.min] / [Math.max] on two numbers, NaN ([None]) absorbing. *)
Definition js_min (a b : option Z) : option Z :=
  match a, b with Some x, Some y => Some (Z.min x y) | _, _ => None end.

Definition js_max (a b : option Z) : option Z :=
  match a, b with Some x, Some y => Some (Z.max x y) | _, _ => None end.

(** [SQUARE_ELEMENT]: the fully set 3x3 structuring element. *)
Definition SQUARE_ELEMENT : list (list Z) :=
  [[1; 1; 1];
   [1; 1; 1];
   [1; 1; 1]].

(** [se[sy][sx] === 0]. *)
Definition se_is_zero (se : list (list Z)) (sy sx : Z) : bool :=
  match js_index (default [] (js_index se sy)) sx with
  | Some 0 => true
  | _ => false
  end.

(** One step of the erosion's inner loop at [(sx, sy)]. *)
Definition erosion_cell (img : ImageData) (se : list (list Z)) (x y : Z)
    (sy sx : Z) (minVal : option Z) : option Z :=
  let width := width img in
  let height := height img in
  let seCenter := 1 in
  if se_is_zero se sy sx then minVal
  else
    let px := x + sx - seCenter in
    let py := y + sy - seCenter in
    if (px <? 0) || (px >=? width) || (py <? 0) || (py >=? height) then Some 0
    else
      let idx := (py * width + px) * 4 in
      js_min minVal (ta_get (data img) idx).

(** [minVal] after the two loops over the structuring element. *)
Definition erosion_min (img : ImageData) (x y : Z) : option Z :=
  let se := SQUARE_ELEMENT in
  let seSize := 3 in
  for_range 0 seSize (fun sy minVal =>
    for_range 0 seSize (fun sx minVal => erosion_cell img se x y sy sx minVal) minVal)
    (Some 255).

Definition applyErosion (img : ImageData) : ImageData :=
  let width := width img in
  let height := height img in
  let d := data img in
  let result :=
    for_range 0 height (fun y res =>
      for_range 0 width (fun x res =>
        let minVal := erosion_min img x y in
        let outIdx := (y * width + x) * 4 in
        write_pixel res outIdx minVal minVal minVal (ta_get d (outIdx + 3))) res)
      (ta_zeros (Z.of_nat (length d))) in
  mkImageData width height result.

(** One step of the dilation's inner loop at [(sx, sy)]. *)
Definition dilation_cell (img : ImageData) (se : list (list Z)) (x y : Z)
    (sy sx : Z) (maxVal : option Z) : option Z :=
  let width := width img in
  let height := height img in
  let seCenter := 1 in
  if se_is_zero se sy sx then maxVal
  else
    let px := x + sx - seCenter in
    let py := y + sy - seCenter in
    if (px >=? 0) && (px <? width) && (py >=? 0) && (py <? height) then
      let idx := (py * width + px) * 4 in
      js_max maxVal (ta_get (data img) idx)
    else maxVal.

Definition dilation_max (img : ImageData) (x y : Z) : option Z :=
  let se := SQUARE_ELEMENT in
  let seSize := 3 in
  for_range 0 seSize (fun sy maxVal =>
    for_range 0 seSize (fun sx maxVal => dilation_cell img se x y sy sx maxVal) maxVal)
    (Some 0).

Definition applyDilation (img : ImageData) : ImageData :=
  let width := width img in
  let height := height img in
  let d := data img in
  let result :=
    for_range 0 height (fun y res =>
      for_range 0 width (fun x res =>
        let maxVal := dilation_max img x y in
        let outIdx := (y * width + x) * 4 in
        write_pixel res outIdx maxVal maxVal maxVal (ta_get d (outIdx + 3))) res)
      (ta_zeros (Z.of_nat (length d))) in
  mkImageData width height result.

Definition applyOpening (img : ImageData) : ImageData :=
  let eroded := applyErosion img in
  applyDilation eroded.

(** Binary images: every colour sample is 0 or 255. *)
Definition binary_image (img : ImageData) : Prop :=
  forall j v, data img !! j = Some v -> (Z.of_nat j mod 4 < 3) -> v = 0 \/ v = 255.

(** *** Morphology on the plane, used by the proofs *)

(** The red sample at [(px, py)], and background 0 outside the image. *)
Definition ext_red (img : ImageData) (px py : Z) : Z :=
  if (0 <=? px) && (px <? width img) && (0 <=? py) && (py <? height img)
  then nth (Z.to_nat ((py * width img + px) * 4)) (data img) 0
  else 0.

(** The [(sx, sy)] cells of the structuring element, in loop order. *)
Definition se_cells : list (Z * Z) :=
  [(0, 0); (1, 0); (2, 0); (0, 1); (1, 1); (2, 1); (0, 2); (1, 2); (2, 2)].

(** The sample under cell [(sx, sy)] when the element is centred on [(x, y)]. *)
Definition at_cell (f : Z -> Z -> Z) (x y : Z) (c : Z * Z) : Z :=
  f (x + fst c - 1) (y + snd c - 1).

Definition erode (f : Z -> Z -> Z) (x y : Z) : Z :=
  fold_left (fun m c => Z.min m (at_cell f x y c)) se_cells 255.

Definition dilate (f : Z -> Z -> Z) (x y : Z) : Z :=
  fold_left (fun m c => Z.max m (at_cell f x y c)) se_cells 0.

(** The 3x3 all-white, opaque binary image. *)
Definition white_3x3 : ImageData :=
  mkImageData 3 3 (concat (repeat [255; 255; 255; 255] 9)).

(* ------------------------------------------------------------------ *)
(** ** Quantization (src/src/utils/imageFilters.ts) *)

(** [Math.round] on a finite number: [floor(x + 1/2)]. *)
Definition js_round (q : Q) : Z := Qfloor (q + (1 # 2))%Q.





(** [lookupTable[v]] for a value [v] read from a typed array. *)
Definition lut_get (t : list Z) (v : option Z) : option Z :=
  match v with
  | None => None
  | Some r => ta_get t r
  end.



(* ------------------------------------------------------------------ *)
(** ** Histogram equalization (src/src/utils/imageFilters.ts) *)

(** [hist[v]++] on a 256-entry array of counts.  The index read from the
    typed array is a byte whenever it is defined; [hist[undefined]++] only
    creates an unrelated ["undefined"] property that no later read uses. *)
Definition hist_inc (hist : list Z) (v : option Z) : list Z :=
  match v with
  | Some r =>
      if (0 <=? r) && (r <? 256)
      then <[Z.to_nat r := nth (Z.to_nat r) hist 0 + 1]> hist
      else hist
  | None => hist
  end.

(** The first loop of [applyEqualization]: the three channel histograms. *)
Definition eq_histograms (d : list Z) : list Z * list Z * list Z :=
  for_step4 (Z.of_nat (length d))
    (fun i '(histR, histG, histB) =>
       (hist_inc histR (ta_get d i),
        hist_inc histG (ta_get d (i + 1)),
        hist_inc histB (ta_get d (i + 2))))
    (replicate 256 0, replicate 256 0, replicate 256 0).

(** [Math.round((cumulative / totalPixels) * (L - 1))] with [L = 256].
    [totalPixels = 0] gives NaN for [0 / 0] and an infinity otherwise,
    which the typed array stores as 0 or 255. *)
Definition eq_lut_value (cumulative totalPixels : Z) : option Z :=
  if totalPixels =? 0 then
    (if cumulative =? 0 then None else if 0 <? cumulative then Some 255 else Some 0)
  else Some (js_round (inject_Z cumulative / inject_Z totalPixels * inject_Z (256 - 1))%Q).

(** [createLUT]: the state of its loop is [(cumulative, lut)]. *)
Definition createLUT (totalPixels : Z) (hist : list Z) : list Z :=
  snd (for_loop 256 0
         (fun i (st : Z * list Z) =>
            let cumulative := fst st + nth (Z.to_nat i) hist 0 in
            (cumulative, ta_set (snd st) i (eq_lut_value cumulative totalPixels)))
         (0, ta_zeros 256)).

Definition applyEqualization (img : ImageData) : ImageData :=
  let d := data img in
  let totalPixels := width img * height img in
  let '(histR, histG, histB) := eq_histograms d in
  let lutR := createLUT totalPixels histR in
  let lutG := createLUT totalPixels histG in
  let lutB := createLUT totalPixels histB in
  let d := for_step4 (Z.of_nat (length d))
             (fun i d => update_rgb d i (lut_get lutR) (lut_get lutG) (lut_get lutB)) d in
  mkImageData (width img) (height img) d.

(** Every pixel carries the same colour: each colour sample equals the
    sample of the same channel in the first pixel. *)
Definition uniform_colour (img : ImageData) : Prop :=
  forall j v, Z.of_nat j mod 4 < 3 -> data img !! j = Some v -> data img !! (j mod 4)%nat = Some v.

(** A histogram whose only non-zero count is [k], at value [v]. *)
Definition spike (v k : Z) : list Z := tab 256 (fun t => if Z.of_nat t =? v then k else 0).

(* ------------------------------------------------------------------ *)
(** ** Convolution engine (src/unnamed/part_002) *)

(** Addition and multiplication of JS numbers, NaN ([None]) absorbing. *)
Definition js_addQ (a b : option Q) : option Q :=
  match a, b with Some x, Some y => Some (x + y)%Q | _, _ => None end.

Definition js_mulQ (a b : option Q) : option Q :=
  match a, b with Some x, Some y => Some (x * y)%Q | _, _ => None end.

(** A sample read from the typed array, as a number. *)
Definition js_num (v : option Z) : option Q := option_map inject_Z v.

(** [kernel[ky][kx]]; the loops only use [ky < kernel.length], so the row
    exists. *)
Definition kernel_at (kernel : list (list Q)) (ky kx : Z) : option Q :=
  js_index (default [] (js_index kernel ky)) kx.

(** One step of the loops over the kernel: the accumulators
    [(sumR, sumG, sumB)] after visiting [(kx, ky)]. *)
Definition conv_cell (img : ImageData) (kernel : list (list Q)) (kCenter x y ky kx : Z)
    (sums : option Q * option Q * option Q) : option Q * option Q * option Q :=
  let width := width img in
  let height := height img in
  let data := data img in
  let '(sumR, sumG, sumB) := sums in
  let px := x + kx - kCenter in
  let py := y + ky - kCenter in
  let clampedX := Z.max 0 (Z.min (width - 1) px) in
  let clampedY := Z.max 0 (Z.min (height - 1) py) in
  let idx := (clampedY * width + clampedX) * 4 in
  let weight := kernel_at kernel ky kx in
  (js_addQ sumR (js_mulQ (js_num (ta_get data idx)) weight),
   js_addQ sumG (js_mulQ (js_num (ta_get data (idx + 1))) weight),
   js_addQ sumB (js_mulQ (js_num (ta_get data (idx + 2))) weight)).

(** The accumulators after both loops over the kernel at pixel [(x, y)]. *)
Definition conv_sums (img : ImageData) (kernel : list (list Q)) (x y : Z)
    : option Q * option Q * option Q :=
  let kSize := Z.of_nat (length kernel) in
  let kCenter := kSize / 2 in
  for_range 0 kSize (fun ky sums =>
    for_range 0 kSize (fun kx sums => conv_cell img kernel kCenter x y ky kx sums) sums)
    (Some 0%Q, Some 0%Q, Some 0%Q).

(** [Math.round] of a JS number. *)
Definition js_roundQ (a : option Q) : option Z := option_map js_round a.

Definition applyConvolution (img : ImageData) (kernel : list (list Q)) : ImageData :=
  let width := width img in
  let height := height img in
  let d := data img in
  let result :=
    for_range 0 height (fun y res =>
      for_range 0 width (fun x res =>
        let '(sumR, sumG, sumB) := conv_sums img kernel x y in
        let outIdx := (y * width + x) * 4 in
        write_pixel res outIdx (js_roundQ sumR) (js_roundQ sumG) (js_roundQ sumB)
          (ta_get d (outIdx + 3))) res)
      (ta_zeros (Z.of_nat (length d))) in
  mkImageData width height result.

(** The convolution as the specification states it, for channel [c] at
    pixel [(x, y)]: [Σ_i Σ_j kernel[i][j] · sample(clamp(x+j-center),
    clamp(y+i-center))], then rounded and clamped to [0,255]. *)
Definition Qsum (l : list Q) : Q := fold_right Qplus 0%Q l.

Definition conv_sample (img : ImageData) (c px py : Z) : Z :=
  let cx := Z.max 0 (Z.min (width img - 1) px) in
  let cy := Z.max 0 (Z.min (height img - 1) py) in
  nth (Z.to_nat ((cy * width img + cx) * 4 + c)) (data img) 0.

Definition conv_term (img : ImageData) (kernel : list (list Q)) (c x y : Z) (i j : nat) : Q :=
  let center := Z.of_nat (length kernel) / 2 in
  (nth j (nth i kernel []) 0%Q *
   inject_Z (conv_sample img c (x + Z.of_nat j - center) (y + Z.of_nat i - center)))%Q.

Definition conv_spec_sum (img : ImageData) (kernel : list (list Q)) (c x y : Z) : Q :=
  let n := length kernel in
  Qsum (map (fun i => Qsum (map (fun j => conv_term img kernel c x y i j) (seq 0 n))) (seq 0 n)).

Definition conv_spec (img : ImageData) (kernel : list (list Q)) (c x y : Z) : Z :=
  Z.max 0 (Z.min 255 (js_round (conv_spec_sum img kernel c x y))).

(** A square kernel: every row is as long as the kernel has rows. *)
Definition square_kernel (kernel : list (list Q)) : Prop :=
  Forall (fun row => length row = length kernel) kernel.

(* ------------------------------------------------------------------ *)
(** ** Fourier transform (src/src/utils/edgeDetection.ts) *)

(** Outcome of JavaScript code that may throw. *)
Inductive js_error :=
  | JsError (msg : string)
  | JsTypeError (msg : string).

Inductive completion (A : Type) :=
  | Normal (a : A)
  | Throw (e : js_error).
Arguments Normal {A} a.
Arguments Throw {A} e.

Definition cbind {A B : Type} (m : completion A) (k : A -> completion B) : completion B :=
  match m with
  | Normal a => k a
  | Throw e => Throw e
  end.

Notation "'let!' x := m 'in' k" := (cbind m (fun x => k))
  (at level 200, x name, m at level 100, k at level 200).

(** ToInt32 and the bitwise [&] of JavaScript. *)
Definition to_int32 (z : Z) : Z :=
  let m := z mod 2 ^ 32 in
  if m <? 2 ^ 31 then m else m - 2 ^ 32.

Definition js_band (a b : Z) : Z := Z.land (to_int32 a) (to_int32 b).

Definition fft_length_error : js_error := JsError "FFT length must be a power of 2".

(** [nextPowerOf2(n) = Math.pow(2, Math.ceil(Math.log2(n)))] on a length
    [n]: [log2(0) = -Infinity] gives 0, otherwise the exact base-2
    logarithm rounded up. *)
Definition nextPowerOf2 (n : Z) : Z :=
  if n =? 0 then 0 else 2 ^ Z.log2_up n.

(** [[0, 1, ..., m - 1]]. *)
Definition zrange (m : Z) : list Z := map Z.of_nat (seq 0 (Z.to_nat m)).

(** The helpers on [Complex] values the transform uses: [add],
    [subtract], [multiply], [complex(re)] (with [re] possibly [undefined])
    and the twiddle factor [complex(Math.cos(angle), Math.sin(angle))] for
    [angle = -2 * Math.PI * k / n]. *)
Class ComplexOps (C : Type) := {
  add : C -> C -> C;
  subtract : C -> C -> C;
  multiply : C -> C -> C;
  complex : option Q -> C;
  twiddle : Z -> Z -> C
}.

Section FFT.
Context {C : Type} `{ComplexOps C}.

(** The loop [for (i = 0; i < n; i += 2) { even.push(data[i]);
    odd.push(data[i + 1]); }], run where [n] is even. *)
Fixpoint split_even_odd (d : list C) : list C * list C :=
  match d with
  | a :: b :: rest => let '(even, odd) := split_even_odd rest in (a :: even, b :: odd)
  | [a] => ([a], [])
  | [] => ([], [])
  end.

(** The combining loop: [result[k] = add(evenFFT[k], t)] and
    [result[k + n/2] = subtract(evenFFT[k], t)] for [k < n/2]; both halves
    have [n/2] entries, so [evenFFT[k]] and [oddFFT[k]] are defined. *)
Definition fft_combine (n : Z) (evenFFT oddFFT : list C) : list C :=
  let half := n / 2 in
  let t := fun k => multiply (twiddle k n) (nth (Z.to_nat k) oddFFT (complex (Some 0%Q))) in
  map (fun k => add (nth (Z.to_nat k) evenFFT (complex (Some 0%Q))) (t k)) (zrange half) ++
  map (fun k => subtract (nth (Z.to_nat k) evenFFT (complex (Some 0%Q))) (t k)) (zrange half).

(** [fft1D], recursing on the halves; [fuel] bounds the depth (the
    transform is run with [fuel = data.length], and the [O] case is reached
    only by the empty array, where the code also returns [data]). *)
Fixpoint fft1D_run (fuel : nat) (data : list C) : completion (list C) :=
  match fuel with
  | O => Normal data
  | Datatypes.S fuel' =>
      let n := Z.of_nat (length data) in
      if n <=? 1 then Normal data
      else if negb (js_band n (n - 1) =? 0) then Throw fft_length_error
      else
        let '(even, odd) := split_even_odd data in
        let! evenFFT := fft1D_run fuel' even in
        let! oddFFT := fft1D_run fuel' odd in
        Normal (fft_combine n evenFFT oddFFT)
  end.

Definition fft1D (data : list C) : completion (list C) := fft1D_run (length data) data.

(** [for (i = 0; i < paddedRows; i++) complexMatrix[i] = fft1D(complexMatrix[i]);] *)
Fixpoint fft_rows (m : list (list C)) : completion (list (list C)) :=
  match m with
  | [] => Normal []
  | row :: rest =>
      let! r := fft1D row in
      let! rs := fft_rows rest in
      Normal (r :: rs)
  end.

(** One iteration [j] of the column loop: gather [complexMatrix[i][j]]
    (every row has [paddedCols] entries), transform, write back. *)
Definition fft_column (paddedRows j : Z) (m : list (list C)) : completion (list (list C)) :=
  let column := map (fun i => nth (Z.to_nat j) (nth (Z.to_nat i) m []) (complex (Some 0%Q)))
                    (zrange paddedRows) in
  let! fftColumn := fft1D column in
  Normal (for_range 0 paddedRows (fun i m =>
            <[Z.to_nat i := <[Z.to_nat j := nth (Z.to_nat i) fftColumn (complex (Some 0%Q))]>
                              (nth (Z.to_nat i) m [])]> m) m).

Definition fft2D (matrix : list (list Q)) : completion (list (list C)) :=
  match matrix with
  | [] => Throw (JsTypeError "Cannot read properties of undefined (reading 'length')")
  | row0 :: _ =>
      let rows := Z.of_nat (length matrix) in
      let cols := Z.of_nat (length row0) in
      let paddedRows := nextPowerOf2 rows in
      let paddedCols := nextPowerOf2 cols in
      let complexMatrix :=
        map (fun i => map (fun j =>
               if (i <? rows) && (j <? cols)
               then complex (js_index (default [] (js_index matrix i)) j)
               else complex (Some 0%Q)) (zrange paddedCols)) (zrange paddedRows) in
      let! complexMatrix := fft_rows complexMatrix in
      for_range 0 paddedCols (fun j st => let! m := st in fft_column paddedRows j m)
        (Normal complexMatrix)
  end.

End FFT.

(** A length that is a power of two. *)
Definition is_pow2 (n : Z) : Prop := exists k, 0 <= k /\ n = 2 ^ k.

(** A sample [ComplexOps] instance on the rationals, used to run the
    transform on concrete inputs (every twiddle factor is taken as 1). *)
#[local] Instance Q_ops : ComplexOps Q := {|
  add := Qplus; subtract := Qminus; multiply := Qmult;
  complex := fun v => default 0%Q v; twiddle := fun _ _ => 1%Q |}.

(* ------------------------------------------------------------------ *)
(** ** Custom formulas (src/src/utils/customFilters.ts) *)

Module CustomFilters.

Local Open Scope string_scope.

(** JavaScript numbers, as far as the evaluator tells them apart. *)
Inductive jsnumber :=
  | JNum (q : Q)
  | JNaN
  | JInfinity (positive : bool).

Record FormulaContext := mkFormulaContext {
  r : Z; g : Z; b : Z; x : Z; y : Z; w : Z; h : Z
}.

(** The parts of the JavaScript engine the evaluator relies on:
    [new Function(params..., body)], calling the function it builds, the
    [Math] functions passed as arguments, and [Math.round(v)], whose
    ToNumber conversion can run user code.  Each may throw; a call that
    does not return is outside this model. *)
Class JsEngine := {
  js_value : Type;
  js_function : Type;
  number_value : jsnumber -> js_value;
  math_function : string -> js_value;
  new_Function : list string -> string -> completion js_function;
  js_call : js_function -> list js_value -> completion js_value;
  math_round : js_value -> completion jsnumber
}.

(** [s.replace(/pat/g, rep)] for a literal, non-empty pattern: matches
    are replaced left to right without overlapping. *)
Fixpoint replace_all_fuel (fuel : nat) (pat rep s : string) : string :=
  match fuel with
  | O => s
  | Datatypes.S fuel' =>
      match s with
      | EmptyString => EmptyString
      | String c s' =>
          if String.prefix pat s
          then rep ++ replace_all_fuel fuel' pat rep
                         (substring (String.length pat) (String.length s) s)
          else String c (replace_all_fuel fuel' pat rep s')
      end
  end.

Definition replace_all (pat rep s : string) : string :=
  replace_all_fuel (String.length s) pat rep s.

(** [String(Math.PI)] and [String(Math.E)]. *)
Definition PI_string : string := "3.141592653589793".
Definition E_string : string := "2.718281828459045".

Definition math_names : list string :=
  ["sin"; "cos"; "tan"; "sqrt"; "abs"; "floor"; "ceil"; "round"; "min"; "max"; "log"].

Definition formula_params : list string := app ["r"; "g"; "b"; "x"; "y"; "w"; "h"] math_names.

(** [Math.max(0, Math.min(255, v))] on a number. *)
Definition clamp_0_255 (v : jsnumber) : jsnumber :=
  match v with
  | JNum q => JNum (Qmax 0 (Qmin 255 q))
  | JNaN => JNaN
  | JInfinity true => JNum 255
  | JInfinity false => JNum 0
  end.

(** [try { ... } catch { handler }]. *)
Definition try_catch {A : Type} (m : completion A) (handler : js_error -> completion A) : completion A :=
  match m with
  | Normal a => Normal a
  | Throw e => handler e
  end.

(** The [try] block of [evaluateFormula]. *)
Definition evaluateFormula_body `{JsEngine} (formula : string) (context : FormulaContext)
    : completion jsnumber :=
  let safeFormula := replace_all "E" E_string (replace_all "PI" PI_string (replace_all "^" "**" formula)) in
  let! evalFunc := new_Function formula_params ("return (" ++ safeFormula ++ ");") in
  let! result := js_call evalFunc
      (app (map (fun v => number_value (JNum (inject_Z v)))
              [r context; g context; b context; x context; y context; w context; h context])
           (map math_function math_names)) in
  let! rounded := math_round result in
  Normal (clamp_0_255 rounded).

Definition evaluateFormula `{JsEngine} (formula : string) (context : FormulaContext)
    : completion jsnumber :=
  try_catch (evaluateFormula_body formula context)
    (fun _ => Normal (JNum (inject_Z (r context)))).

(** The three calls of [applyCustomFormula] for one pixel, for channel
    [c] (0 red, 1 green, 2 blue). *)
Definition channel_call `{JsEngine} (formula : string) (context : FormulaContext) (c : Z)
    : completion jsnumber :=
  match c with
  | 0 => evaluateFormula (replace_all "r" "r" formula) context
  | 1 => evaluateFormula (replace_all "r" "g" formula)
           (mkFormulaContext (g context) (g context) (b context) (x context) (y context) (w context) (h context))
  | _ => evaluateFormula (replace_all "r" "b" formula)
           (mkFormulaContext (b context) (g context) (b context) (x context) (y context) (w context) (h context))
  end.

(** An engine whose [new Function] always throws a [SyntaxError], for
    running the evaluator on examples. *)
Definition syntax_error_engine : JsEngine := {|
  js_value := unit;
  js_function := unit;
  number_value := fun _ => tt;
  math_function := fun _ => tt;
  new_Function := fun _ _ => Throw (JsError "SyntaxError");
  js_call := fun _ _ => Normal tt;
  math_round := fun _ => Normal JNaN
|}.

End CustomFilters.

(* ------------------------------------------------------------------ *)
(** ** Closing (src/unnamed/part_001) *)

Definition applyClosing (img : ImageData) : ImageData :=
  let dilated := applyDilation img in
  applyErosion dilated.

(* ------------------------------------------------------------------ *)
(** ** Luminance, threshold and colour filters *)

(** [0.299 * r + 0.587 * g + 0.114 * b]: [toGray] of the edge filters,
    written out inline by the other filters. *)
Definition toGray (r g b : option Q) : option Q :=
  js_addQ (js_addQ (js_mulQ (Some (299 # 1000)%Q) r) (js_mulQ (Some (587 # 1000)%Q) g))
          (js_mulQ (Some (114 # 1000)%Q) b).

(** The luminance of the pixel whose red sample is at [i]. *)
Definition gray_at (d : list Z) (i : Z) : option Q :=
  toGray (js_num (ta_get d i)) (js_num (ta_get d (i + 1))) (js_num (ta_get d (i + 2))).

(** [applyThreshold]: [gray >= threshold ? 255 : 0]; a NaN luminance
    compares false and gives 0. *)
Definition applyThreshold (img : ImageData) (threshold : Q) : ImageData :=
  let d := data img in
  let n := Z.of_nat (length d) in
  let result :=
    for_step4 n (fun i r =>
      let gray := gray_at d i in
      let binary := match gray with
                    | Some g => if Qle_bool threshold g then Some 255 else Some 0
                    | None => Some 0
                    end in
      write_pixel r i binary binary binary (ta_get d (i + 3))) (ta_zeros n) in
  mkImageData (width img) (height img) result.

(** [applyGrayscale] (src/src/utils/edgeDetection.ts). *)
Definition applyGrayscale (img : ImageData) : ImageData :=
  let d := data img in
  let n := Z.of_nat (length d) in
  let result :=
    for_step4 n (fun i r =>
      let gray := js_roundQ (gray_at d i) in
      write_pixel r i gray gray gray (ta_get d (i + 3))) (ta_zeros n) in
  mkImageData (width img) (height img) result.

(** [Math.min(255, Math.round(kr * r + kg * g + kb * b))]. *)
Definition sepia_channel (kr kg kb : Q) (r g b : option Z) : option Z :=
  js_min (Some 255)
    (js_roundQ (js_addQ (js_addQ (js_mulQ (Some kr) (js_num r)) (js_mulQ (Some kg) (js_num g)))
                        (js_mulQ (Some kb) (js_num b)))).

Definition applySepia (img : ImageData) : ImageData :=
  let d := data img in
  let n := Z.of_nat (length d) in
  let result :=
    for_step4 n (fun i res =>
      let r := ta_get d i in
      let g := ta_get d (i + 1) in
      let b := ta_get d (i + 2) in
      write_pixel res i
        (sepia_channel (393 # 1000) (769 # 1000) (189 # 1000) r g b)
        (sepia_channel (349 # 1000) (686 # 1000) (168 # 1000) r g b)
        (sepia_channel (272 # 1000) (534 # 1000) (131 # 1000) r g b)
        (ta_get d (i + 3))) (ta_zeros n) in
  mkImageData (width img) (height img) result.

(* ------------------------------------------------------------------ *)
(** ** Edge filters (src/src/utils/edgeDetection.ts, src/unnamed/part_002) *)

(** ToUint8Clamp on an arbitrary number, as a store into a typed array
    performs it: NaN gives 0 ([None]), the value is clamped to [0,255] and
    rounded half to even. *)
Definition u8_of_number (v : option Q) : option Z :=
  match v with
  | None => None
  | Some q =>
      if Qle_bool q 0 then Some 0
      else if Qle_bool 255 q then Some 255
      else
        let f := Qfloor q in
        let half := (inject_Z f + (1 # 2))%Q in
        if Qle_bool q half then
          (if Qeq_bool q half then (if Z.even f then Some f else Some (f + 1)) else Some f)
        else Some (f + 1)
  end.

(** [Math.min] and [Math.abs] on JS numbers. *)
Definition js_minQ (a b : option Q) : option Q :=
  match a, b with Some x, Some y => Some (Qmin x y) | _, _ => None end.

Definition js_absQ (a : option Q) : option Q := option_map Qabs a.

Definition SOBEL_X : list (list Q) :=
  [[-1; 0; 1];
   [-2; 0; 2];
   [-1; 0; 1]]%Q.

Definition SOBEL_Y : list (list Q) :=
  [[-1; -2; -1];
   [0; 0; 0];
   [1; 2; 1]]%Q.

(** [convolve3x3]: the kernel applied to the luminance, clamp-to-edge. *)
Definition convolve3x3 (data : list Z) (width height x y : Z) (kernel : list (list Q)) : option Q :=
  for_range 0 3 (fun ky sum =>
    for_range 0 3 (fun kx sum =>
      let px := Z.max 0 (Z.min (width - 1) (x + kx - 1)) in
      let py := Z.max 0 (Z.min (height - 1) (y + ky - 1)) in
      let idx := (py * width + px) * 4 in
      let gray := toGray (js_num (ta_get data idx)) (js_num (ta_get data (idx + 1)))
                         (js_num (ta_get data (idx + 2))) in
      js_addQ sum (js_mulQ gray (kernel_at kernel ky kx))) sum)
    (Some 0%Q).

(** [applySobelX] and [applySobelY]: [Math.min(255, Math.abs(g))] stored
    in all three colour samples. *)
Definition sobel_filter (kernel : list (list Q)) (img : ImageData) : ImageData :=
  let width := width img in
  let height := height img in
  let d := data img in
  let result :=
    for_range 0 height (fun y res =>
      for_range 0 width (fun x res =>
        let g := convolve3x3 d width height x y kernel in
        let value := u8_of_number (js_minQ (Some 255%Q) (js_absQ g)) in
        let idx := (y * width + x) * 4 in
        write_pixel res idx value value value (ta_get d (idx + 3))) res)
      (ta_zeros (Z.of_nat (length d))) in
  mkImageData width height result.

Definition applySobelX (img : ImageData) : ImageData := sobel_filter SOBEL_X img.
Definition applySobelY (img : ImageData) : ImageData := sobel_filter SOBEL_Y img.

(** [KERNELS] of the convolution module. *)
Definition KERNELS_sharpen : list (list Q) :=
  [[0; -1; 0];
   [-1; 5; -1];
   [0; -1; 0]]%Q.

Definition KERNELS_laplacian : list (list Q) :=
  [[0; 1; 0];
   [1; -4; 1];
   [0; 1; 0]]%Q.

(** [applyLaplacian]: the loops of [applyConvolution] with the fixed
    3x3 kernel and centre 1, then [Math.min(255, Math.abs(sum))]. *)
Definition applyLaplacian (img : ImageData) : ImageData :=
  let width := width img in
  let height := height img in
  let d := data img in
  let kernel := KERNELS_laplacian in
  let kCenter := 1 in
  let result :=
    for_range 0 height (fun y res =>
      for_range 0 width (fun x res =>
        let '(sumR, sumG, sumB) :=
          for_range 0 3 (fun ky sums =>
            for_range 0 3 (fun kx sums => conv_cell img kernel kCenter x y ky kx sums) sums)
            (Some 0%Q, Some 0%Q, Some 0%Q) in
        let outIdx := (y * width + x) * 4 in
        write_pixel res outIdx
          (u8_of_number (js_minQ (Some 255%Q) (js_absQ sumR)))
          (u8_of_number (js_minQ (Some 255%Q) (js_absQ sumG)))
          (u8_of_number (js_minQ (Some 255%Q) (js_absQ sumB)))
          (ta_get d (outIdx + 3))) res)
      (ta_zeros (Z.of_nat (length d))) in
  mkImageData width height result.

(** [generateBoxKernel]: [size] rows of [size] copies of [1 / (size * size)]. *)
Definition generateBoxKernel (size : Z) : list (list Q) :=
  let weight := (1 / inject_Z (size * size))%Q in
  for_range 0 size (fun _ kernel =>
    app kernel [for_range 0 size (fun _ row => app row [weight]) []]) [].

Definition applyBoxBlur (img : ImageData) (size : Z) : ImageData :=
  let kernel := generateBoxKernel size in
  applyConvolution img kernel.

Definition applySharpen (img : ImageData) : ImageData :=
  applyConvolution img KERNELS_sharpen.

(** [createEmptyKernel] and [PRESET_KERNELS.identity]
    (src/src/utils/customFilters.ts). *)
Definition createEmptyKernel (size : Z) : list (list Q) :=
  replicate (Z.to_nat size) (replicate (Z.to_nat size) 0%Q).

Definition PRESET_KERNELS_identity : list (list Q) :=
  [[0; 0; 0];
   [0; 1; 0];
   [0; 0; 0]]%Q.

Definition PRESET_KERNELS_sharpen : list (list Q) :=
  [[0; -1; 0];
   [-1; 5; -1];
   [0; -1; 0]]%Q.

Definition PRESET_KERNELS_edgeDetect : list (list Q) :=
  [[-1; -1; -1];
   [-1; 8; -1];
   [-1; -1; -1]]%Q.

Definition PRESET_KERNELS_emboss : list (list Q) :=
  [[-2; -1; 0];
   [-1; 1; 1];
   [0; 1; 2]]%Q.

Definition PRESET_KERNELS_blur : list (list Q) :=
  [[1 / 9; 1 / 9; 1 / 9];
   [1 / 9; 1 / 9; 1 / 9];
   [1 / 9; 1 / 9; 1 / 9]]%Q.

Definition applyCustomKernel (img : ImageData) (kernel : list (list Q)) : ImageData :=
  applyConvolution img kernel.

(** A sample value of a binary image. *)
Definition black_or_white (v : Z) : Prop := v = 0 \/ v = 255.

(** The value [applyThreshold] writes for a luminance. *)
Definition threshold_value (threshold : Q) (gray : option Q) : option Z :=
  match gray with
  | Some g => if Qle_bool threshold g then Some 255 else Some 0
  | None => Some 0
  end.


(** Every pixel has equal red, green and blue samples. *)
Definition gray_image (img : ImageData) : Prop :=
  forall x y, 0 <= x < width img -> 0 <= y < height img ->
    let p := (y * width img + x) * 4 in
    data img !! Z.to_nat p = data img !! Z.to_nat (p + 1) /\
    data img !! Z.to_nat (p + 1) = data img !! Z.to_nat (p + 2).

(** The luminance [0.299 r + 0.587 g + 0.114 b] of three samples. *)
Definition luma (r g b : Z) : Q :=
  ((299 # 1000) * inject_Z r + (587 # 1000) * inject_Z g + (114 # 1000) * inject_Z b)%Q.

(** The sum of the weights of a square kernel. *)
Definition kernel_sum (kernel : list (list Q)) : Q :=
  let n := length kernel in
  Qsum (map (fun i => Qsum (map (fun j => nth j (nth i kernel []) 0%Q) (seq 0 n))) (seq 0 n)).

(* ------------------------------------------------------------------ *)
(** ** Spectrum shift (src/src/utils/edgeDetection.ts) *)

(** [fftShift]: [spectrum[0].length] throws on an empty spectrum; the
    rows of [shifted] are pushed in order, and an entry
    [spectrum[srcI][srcJ]] past the end of a short row is [undefined]
    ([None]). *)
Definition fftShift {A : Type} (spectrum : list (list A)) : completion (list (list (option A))) :=
  match spectrum with
  | [] => Throw (JsTypeError "Cannot read properties of undefined (reading 'length')")
  | row0 :: _ =>
      let rows := Z.of_nat (length spectrum) in
      let cols := Z.of_nat (length row0) in
      let halfRows := rows / 2 in
      let halfCols := cols / 2 in
      Normal (for_range 0 rows (fun i shifted =>
        app shifted [for_range 0 cols (fun j row =>
          let srcI := (i + halfRows) mod rows in
          let srcJ := (j + halfCols) mod cols in
          app row [js_index (default [] (js_index spectrum srcI)) srcJ]) []]) [])
  end.

(* ------------------------------------------------------------------ *)
(** ** Distance metrics and neighbourhoods (src/src/utils/imageFilters.ts) *)

Inductive NeighborType := N4 | ND | N8.

Inductive DistanceMetric := euclidean | cityBlock | chessboard.

Section Distance.

(** [Math.sqrt], which only the euclidean metric uses. *)
Variable Math_sqrt : Q -> Q.

(** [calculateDistance]; the [default] branch is unreachable for a
    [DistanceMetric]. *)
Definition calculateDistance (x1 y1 x2 y2 : Q) (metric : DistanceMetric) : Q :=
  let dx := Qabs (x1 - x2) in
  let dy := Qabs (y1 - y2) in
  match metric with
  | euclidean => Math_sqrt (dx * dx + dy * dy)
  | cityBlock => dx + dy
  | chessboard => Qmax dx dy
  end.

End Distance.

(** [isInNeighborhood]: [Math.abs(dx) > 1] is [not (|dx| <= 1)]. *)
Definition isInNeighborhood (dx dy : Q) (neighborType : NeighborType) : bool :=
  if Qeq_bool dx 0 && Qeq_bool dy 0 then false
  else if negb (Qle_bool (Qabs dx) 1) || negb (Qle_bool (Qabs dy) 1) then false
  else
    match neighborType with
    | N4 => Qeq_bool dx 0 || Qeq_bool dy 0
    | ND => negb (Qeq_bool dx 0) && negb (Qeq_bool dy 0)
    | N8 => true
    end.

Module NeighborOffset.
Record t := mk { dx : Z; dy : Z }.
End NeighborOffset.

Definition getNeighborOffsets (neighborType : NeighborType) : list NeighborOffset.t :=
  for_range (-1) 2 (fun dy offsets =>
    for_range (-1) 2 (fun dx offsets =>
      if isInNeighborhood (inject_Z dx) (inject_Z dy) neighborType
      then offsets ++ [NeighborOffset.mk dx dy] else offsets) offsets) [].

(* ------------------------------------------------------------------ *)
(** ** Pixel inspection (src/src/utils/imageFilters.ts) *)







Module PixelInfo.
Record t := mk {
  x : Z; y : Z;
  r : option Z; g : option Z; b : option Z; a : option Z;
  gray : option Z;
  hex : string
}.
End PixelInfo.






Module NeighborhoodPixel.
Record t := mk { x : Z; y : Z; r : option Z; g : option Z; b : option Z }.
End NeighborhoodPixel.

(** [getNeighborhood]: the pixels of the [(2 radius + 1)^2] window that
    lie in the image, row by row, with their offsets from the centre. *)
Definition getNeighborhood (img : ImageData) (centerX centerY radius : Z) : list NeighborhoodPixel.t :=
  let width := width img in
  let height := height img in
  let d := data img in
  for_range (- radius) (radius + 1) (fun dy neighborhood =>
    for_range (- radius) (radius + 1) (fun dx neighborhood =>
      let x := centerX + dx in
      let y := centerY + dy in
      if (0 <=? x) && (x <? width) && (0 <=? y) && (y <? height) then
        let idx := (y * width + x) * 4 in
        neighborhood ++ [NeighborhoodPixel.mk dx dy (ta_get d idx) (ta_get d (idx + 1)) (ta_get d (idx + 2))]
      else neighborhood) neighborhood) [].

(* ------------------------------------------------------------------ *)
(** ** Histogram and sampling (src/src/utils/imageFilters.ts) *)

Module Histogram.
Record t := mk { r : list Z; g : list Z; b : list Z; gray : list Z }.
End Histogram.

(** [calculateHistogram]; [histogram.gray[NaN]++] (an [undefined] read)
    only touches an unrelated property, as [hist_inc] has it. *)
Definition calculateHistogram (img : ImageData) : Histogram.t :=
  let d := data img in
  for_step4 (Z.of_nat (length d)) (fun i h =>
    let gray := js_roundQ (gray_at d i) in
    Histogram.mk (hist_inc (Histogram.r h) (ta_get d i))
                 (hist_inc (Histogram.g h) (ta_get d (i + 1)))
                 (hist_inc (Histogram.b h) (ta_get d (i + 2)))
                 (hist_inc (Histogram.gray h) gray))
    (Histogram.mk (replicate 256 0) (replicate 256 0) (replicate 256 0) (replicate 256 0)).

(** [for (let i = start; cond(i); i += step) body], run for at most
    [fuel] iterations. *)
Fixpoint js_for {S : Type} (fuel : nat) (i step : Z) (cond : Z -> bool) (body : Z -> S -> S) (s : S) : S :=
  match fuel with
  | O => s
  | Datatypes.S fuel' => if cond i then js_for fuel' (i + step) step cond body (body i s) else s
  end.

(** [applySampling].  The counters start at 0 and grow by [factor >= 1]
    while they stay below [height] (or [width], [factor]), so a fuel of
    [height] (or [width], [factor]) iterations never runs out. *)
Definition applySampling (img : ImageData) (factor : Q) : ImageData :=
  let width := width img in
  let height := height img in
  let srcData := data img in
  let factor := Z.max 1 (Z.min 32 (js_round factor)) in
  let result :=
    js_for (Z.to_nat height) 0 factor (fun y => y <? height) (fun y data =>
      js_for (Z.to_nat width) 0 factor (fun x => x <? width) (fun x data =>
        let idx := (y * width + x) * 4 in
        let r := ta_get srcData idx in
        let g := ta_get srcData (idx + 1) in
        let b := ta_get srcData (idx + 2) in
        js_for (Z.to_nat factor) 0 1 (fun dy => (dy <? factor) && (y + dy <? height)) (fun dy data =>
          js_for (Z.to_nat factor) 0 1 (fun dx => (dx <? factor) && (x + dx <? width)) (fun dx data =>
            let blockIdx := ((y + dy) * width + (x + dx)) * 4 in
            ta_set (ta_set (ta_set data blockIdx r) (blockIdx + 1) g) (blockIdx + 2) b) data) data) data)
      srcData in
  mkImageData width height result.

(* ------------------------------------------------------------------ *)
(** ** Undo history (src/src/hooks/useHistory.ts) *)

Definition MAX_HISTORY_SIZE : Z := 50.

Section History.

Variable HistoryState : Type.

(** The two pieces of React state of [useHistory], as committed between
    renders. *)
Record HistoryModel := mkHistory {
  history : list HistoryState;
  currentIndex : Z
}.

Definition initHistory (initialState : option HistoryState) : HistoryModel :=
  match initialState with
  | Some s => mkHistory [s] 0
  | None => mkHistory [] (-1)
  end.

(** [a.slice(0, e)]. *)
Definition slice0 (a : list HistoryState) (e : Z) : list HistoryState :=
  if e <? 0 then take (Z.to_nat (Z.of_nat (length a) + e)) a else take (Z.to_nat e) a.

Definition push (st : HistoryModel) (state : HistoryState) : HistoryModel :=
  let newHistory := slice0 (history st) (currentIndex st + 1) ++ [state] in
  if MAX_HISTORY_SIZE <? Z.of_nat (length newHistory) then
    let newHistory := tail newHistory in
    mkHistory newHistory (Z.of_nat (length newHistory) - 1)
  else mkHistory newHistory (Z.of_nat (length newHistory) - 1).

(** [undo] and [redo] return the state moved to ([null] is [None]). *)
Definition undo (st : HistoryModel) : option HistoryState * HistoryModel :=
  if 0 <? currentIndex st then
    let newIndex := currentIndex st - 1 in
    (js_index (history st) newIndex, mkHistory (history st) newIndex)
  else (None, st).

Definition redo (st : HistoryModel) : option HistoryState * HistoryModel :=
  if currentIndex st <? Z.of_nat (length (history st)) - 1 then
    let newIndex := currentIndex st + 1 in
    (js_index (history st) newIndex, mkHistory (history st) newIndex)
  else (None, st).

Definition clear (st : HistoryModel) : HistoryModel := mkHistory [] (-1).

Definition current (st : HistoryModel) : option HistoryState :=
  if 0 <=? currentIndex st then js_index (history st) (currentIndex st) else None.

Definition canUndo (st : HistoryModel) : bool := 0 <? currentIndex st.

Definition canRedo (st : HistoryModel) : bool :=
  currentIndex st <? Z.of_nat (length (history st)) - 1.

Definition historyLength (st : HistoryModel) : Z := Z.of_nat (length (history st)).

(** The operations a component performs on the hook, one per render. *)
Inductive history_op :=
| OpPush (s : HistoryState)
| OpUndo
| OpRedo
| OpClear.

Definition history_step (st : HistoryModel) (op : history_op) : HistoryModel :=
  match op with
  | OpPush s => push st s
  | OpUndo => snd (undo st)
  | OpRedo => snd (redo st)
  | OpClear => clear st
  end.

Definition run_history (st : HistoryModel) (ops : list history_op) : HistoryModel :=
  fold_left history_step ops st.

(** The invariant the operations keep. *)
Definition history_inv (st : HistoryModel) : Prop :=
  Z.of_nat (length (history st)) <= MAX_HISTORY_SIZE /\
  -1 <= currentIndex st < Z.of_nat (length (history st)) /\
  (currentIndex st = -1 <-> history st = []).

End History.

Arguments mkHistory {HistoryState}.
Arguments history {HistoryState}.
Arguments currentIndex {HistoryState}.
Arguments initHistory {HistoryState}.
Arguments slice0 {HistoryState}.
Arguments push {HistoryState}.
Arguments undo {HistoryState}.
Arguments redo {HistoryState}.
Arguments clear {HistoryState}.
Arguments current {HistoryState}.
Arguments canUndo {HistoryState}.
Arguments canRedo {HistoryState}.
Arguments historyLength {HistoryState}.
Arguments OpPush {HistoryState}.
Arguments OpUndo {HistoryState}.
Arguments OpRedo {HistoryState}.
Arguments OpClear {HistoryState}.
Arguments history_step {HistoryState}.
Arguments run_history {HistoryState}.
Arguments history_inv {HistoryState}.

(* ------------------------------------------------------------------ *)
(** ** Auxiliary notions of the proofs *)

(** The entry [fftShift] reads for position [(i, j)] of an [r x c] spectrum. *)
Definition shift_entry {A : Type} (m : list (list A)) (r c : Z) (i j : Z) : option A :=
  js_index (default [] (js_index m ((i + r / 2) mod r))) ((j + c / 2) mod c).

(** The part of [[c - radius, c + radius]] inside [[0, n - 1]]. *)
Definition window_count (c radius n : Z) : Z :=
  Z.max 0 (Z.min (n - 1) (c + radius) - Z.max 0 (c - radius) + 1).

(** A histogram that has counted [j] samples. *)
Definition hist_counts (l : list Z) (j : Z) : Prop :=
  length l = 256%nat /\ fold_right Z.add 0 l = j /\ Forall (fun c => 0 <= c) l.

(** The cell of the top-left pixel of the [F x F] block that holds cell [j]. *)
Definition block_corner (w F j : Z) : Z :=
  let p := j / 4 in
  ((F * ((p / w) / F)) * w + F * ((p mod w) / F)) * 4 + j mod 4.

(** A buffer whose cells selected by [W] (on pixel and channel) hold the
    sample of their block's corner, the others the source sample. *)
Definition sampled_cell (w F : Z) (src : list Z) (W : Z -> Z -> Z -> bool) (j : nat) : Z :=
  let jz := Z.of_nat j in
  let p := jz / 4 in
  if W (p mod w) (p / w) (jz mod 4) then nth (Z.to_nat (block_corner w F jz)) src 0
  else nth j src 0.


(* ------------------------------------------------------------------ *)
(** * Proofs *)

Lemma lookup_tab n f j : tab n f !! j = if Nat.ltb j n then Some (f j) else None.
Proof.
  unfold tab. rewrite list_lookup_fmap.
  destruct (Nat.ltb_spec j n).
  - rewrite lookup_seq_lt by lia. reflexivity.
  - rewrite lookup_seq_ge by lia. reflexivity.
Qed.

Lemma length_tab n f : length (tab n f) = n.
Proof. unfold tab. rewrite length_fmap, length_seq. reflexivity. Qed.

Lemma tab_ext n f g : (forall j, (j < n)%nat -> f j = g j) -> tab n f = tab n g.
Proof.
  intros H. apply list_eq. intros j. rewrite !lookup_tab.
  destruct (Nat.ltb_spec j n); [rewrite H by lia|]; reflexivity.
Qed.

Lemma tab_nth l : tab (length l) (fun j => nth j l 0) = l.
Proof.
  apply list_eq. intros j. rewrite lookup_tab.
  destruct (Nat.ltb_spec j (length l)).
  - destruct (nth_lookup_or_length l j 0); [congruence | lia].
  - symmetry. apply lookup_ge_None_2. lia.
Qed.

Lemma ta_zeros_tab n : ta_zeros n = tab (Z.to_nat n) (fun _ => 0).
Proof.
  apply list_eq. intros j. unfold ta_zeros. rewrite lookup_tab.
  destruct (Nat.ltb_spec j (Z.to_nat n)).
  - apply lookup_replicate_2. lia.
  - apply lookup_replicate_None. lia.
Qed.

Lemma overlay_set len n f base v :
  ((n < len)%nat -> u8_clamp v = f n) ->
  ta_set (overlay len n f base) (Z.of_nat n) v = overlay len (Datatypes.S n) f base.
Proof.
  intros Hv. unfold ta_set.
  destruct (Z.ltb_spec (Z.of_nat n) 0); [lia|]. rewrite Nat2Z.id.
  apply list_eq. intros j. unfold overlay.
  destruct (Nat.lt_ge_cases n len).
  - destruct (decide (n = j)) as [->|Hne].
    + rewrite list_lookup_insert_eq by (rewrite length_tab; lia).
      rewrite lookup_tab.
      destruct (Nat.ltb_spec j len); [|lia].
      destruct (Nat.ltb_spec j (Datatypes.S j)); [|lia]. rewrite Hv by lia. reflexivity.
    + rewrite list_lookup_insert_ne by exact Hne.
      rewrite !lookup_tab.
      destruct (Nat.ltb_spec j len); [|reflexivity].
      destruct (Nat.ltb_spec j n); destruct (Nat.ltb_spec j (Datatypes.S n));
        try reflexivity; lia.
  - rewrite list_insert_ge by (rewrite length_tab; lia).
    rewrite !lookup_tab.
    destruct (Nat.ltb_spec j len); [|reflexivity].
    destruct (Nat.ltb_spec j n); destruct (Nat.ltb_spec j (Datatypes.S n));
      try reflexivity; lia.
Qed.

Lemma ta_get_overlay len n f base j :
  ta_get (overlay len n f base) (Z.of_nat j) =
  if Nat.ltb j len then Some (if Nat.ltb j n then f j else base j) else None.
Proof.
  unfold ta_get. destruct (Z.ltb_spec (Z.of_nat j) 0); [lia|].
  rewrite Nat2Z.id. unfold overlay. apply lookup_tab.
Qed.

Lemma overlay_full len n f base :
  (len <= n)%nat -> overlay len n f base = tab len f.
Proof.
  intros H. apply tab_ext. intros j Hj.
  destruct (Nat.ltb_spec j n); [reflexivity | lia].
Qed.

Lemma overlay_skip len n f base :
  f n = base n -> overlay len n f base = overlay len (Datatypes.S n) f base.
Proof.
  intros H. apply tab_ext. intros j Hj.
  destruct (Nat.ltb_spec j n); destruct (Nat.ltb_spec j (Datatypes.S n));
    try reflexivity; try lia.
  assert (j = n) by lia. subst. auto.
Qed.

Lemma for_loop_inv {S : Type} (P : Z -> S -> Prop) (body : Z -> S -> S) k i s :
  P i s ->
  (forall j s', i <= j < i + Z.of_nat k -> P j s' -> P (j + 1) (body j s')) ->
  P (i + Z.of_nat k) (for_loop k i body s).
Proof.
  revert i s. induction k as [|k IH]; intros i s H0 Hstep; simpl.
  - rewrite Z.add_0_r. exact H0.
  - replace (i + Z.of_nat (Datatypes.S k)) with ((i + 1) + Z.of_nat k) by lia.
    apply IH.
    + apply Hstep; [lia | exact H0].
    + intros j s' Hj HP. apply Hstep; [lia | exact HP].
Qed.

Lemma write_pixel_overlay (len p : nat) F base v0 v1 v2 v3 :
  ((4 * p < len)%nat -> u8_clamp v0 = F (4 * p)%nat) ->
  ((4 * p + 1 < len)%nat -> u8_clamp v1 = F (4 * p + 1)%nat) ->
  ((4 * p + 2 < len)%nat -> u8_clamp v2 = F (4 * p + 2)%nat) ->
  ((4 * p + 3 < len)%nat -> u8_clamp v3 = F (4 * p + 3)%nat) ->
  write_pixel (overlay len (4 * p)%nat F base) (Z.of_nat (4 * p)%nat) v0 v1 v2 v3 =
  overlay len (4 * p + 4)%nat F base.
Proof.
  intros H0 H1 H2 H3. unfold write_pixel.
  rewrite overlay_set by exact H0.
  replace (Z.of_nat (4 * p) + 1) with (Z.of_nat (Datatypes.S (4 * p))) by lia.
  rewrite overlay_set by (intros; rewrite H1; [f_equal|]; lia).
  replace (Z.of_nat (4 * p) + 2) with (Z.of_nat (Datatypes.S (Datatypes.S (4 * p)))) by lia.
  rewrite overlay_set by (intros; rewrite H2; [f_equal|]; lia).
  replace (Z.of_nat (4 * p) + 3)
    with (Z.of_nat (Datatypes.S (Datatypes.S (Datatypes.S (4 * p))))) by lia.
  rewrite overlay_set by (intros; rewrite H3; [f_equal|]; lia).
  f_equal. lia.
Qed.

(** Where the cell [j] of an image buffer sits: pixel [(x, y)], channel [c]. *)
Lemma pixel_index_decode w x y c :
  0 <= x < w -> 0 <= y -> 0 <= c < 4 ->
  ((y * w + x) * 4 + c) / 4 = y * w + x /\ ((y * w + x) * 4 + c) mod 4 = c /\
  (y * w + x) mod w = x /\ (y * w + x) / w = y.
Proof.
  intros Hx Hy Hc. repeat split.
  - rewrite Z.div_add_l by lia. rewrite Z.div_small by lia. lia.
  - rewrite Z.add_comm, Z.mod_add by lia. apply Z.mod_small. lia.
  - rewrite Z.add_comm, Z.mod_add by lia. apply Z.mod_small. lia.
  - rewrite Z.add_comm, Z.div_add by lia. rewrite Z.div_small by lia. lia.
Qed.

(** The row-major double loop that stores four values per pixel. *)
Lemma pixel_loop w h P0 P1 P2 P3 :
  0 <= w -> 0 <= h ->
  for_range 0 h (fun y res =>
    for_range 0 w (fun x res =>
      write_pixel res ((y * w + x) * 4) (P0 x y) (P1 x y) (P2 x y) (P3 x y)) res)
    (ta_zeros (w * h * 4))
  = tab (Z.to_nat (w * h * 4)) (pixel_tab w P0 P1 P2 P3).
Proof.
  intros Hw Hh.
  set (L := Z.to_nat (w * h * 4)).
  set (F := pixel_tab w P0 P1 P2 P3).
  assert (Hdec : forall x y c, 0 <= x < w -> 0 <= y -> 0 <= c < 4 ->
    F (Z.to_nat ((y * w + x) * 4 + c)) =
    u8_clamp (match c with 0 => P0 x y | 1 => P1 x y | 2 => P2 x y | _ => P3 x y end)).
  { intros x y c Hx Hy Hc. unfold F, pixel_tab.
    destruct (pixel_index_decode w x y c Hx Hy Hc) as (E1 & E2 & E3 & E4).
    rewrite Z2Nat.id by nia. rewrite E1, E2, E3, E4.
    destruct (Z.eq_dec c 0) as [->|]; [reflexivity|].
    destruct (Z.eq_dec c 1) as [->|]; [reflexivity|].
    destruct (Z.eq_dec c 2) as [->|]; [reflexivity|].
    assert (c = 3) as -> by lia. reflexivity. }
  rewrite ta_zeros_tab. fold L.
  transitivity (overlay L (4 * Z.to_nat (h * w)) F (fun _ => 0)).
  2:{ apply overlay_full. unfold L. nia. }
  change (tab L (fun _ => 0)) with (tab L (fun j => if Nat.ltb j 0 then F j else 0)).
  fold (overlay L 0 F (fun _ => 0)).
  unfold for_range. rewrite Z.sub_0_r.
  replace (Z.to_nat (h * w)) with (Z.to_nat (0 + Z.of_nat (Z.to_nat h)) * Z.to_nat w)%nat by nia.
  apply (for_loop_inv (fun y r => r = overlay L (4 * (Z.to_nat y * Z.to_nat w)) F (fun _ => 0))).
  { reflexivity. }
  intros y r Hy ->.
  replace (Z.to_nat (y + 1) * Z.to_nat w)%nat
    with (Z.to_nat y * Z.to_nat w + Z.to_nat (0 + Z.of_nat (Z.to_nat w)))%nat by nia.
  rewrite Z.sub_0_r.
  apply (for_loop_inv (fun x r => r = overlay L (4 * (Z.to_nat y * Z.to_nat w + Z.to_nat x)) F (fun _ => 0))).
  { f_equal. lia. }
  intros x r Hx ->.
  replace (4 * (Z.to_nat y * Z.to_nat w + Z.to_nat (x + 1)))%nat
    with (4 * (Z.to_nat y * Z.to_nat w + Z.to_nat x) + 4)%nat by lia.
  replace ((y * w + x) * 4) with (Z.of_nat (4 * (Z.to_nat y * Z.to_nat w + Z.to_nat x))) by nia.
  apply write_pixel_overlay; intros _.
  - rewrite <- (Hdec x y 0) by lia. f_equal. nia.
  - rewrite <- (Hdec x y 1) by lia. f_equal. nia.
  - rewrite <- (Hdec x y 2) by lia. f_equal. nia.
  - rewrite <- (Hdec x y 3) by lia. f_equal. nia.
Qed.

Lemma mod4_of_block (m c : nat) : (c < 4)%nat -> Z.of_nat (4 * m + c) mod 4 = Z.of_nat c.
Proof.
  intros Hc. rewrite Nat2Z.inj_add, Nat2Z.inj_mul.
  rewrite Z.add_comm, Z.mul_comm, Z.mod_add by lia. apply Z.mod_small. lia.
Qed.

Lemma mod4_of_block0 (m : nat) : Z.of_nat (4 * m) mod 4 = 0.
Proof. rewrite Nat2Z.inj_mul, Z.mul_comm. apply Z.mod_mul. lia. Qed.

Lemma update_rgb_overlay (L m : nat) (orig : list Z) f0 f1 f2 :
  update_rgb (overlay L (4 * m) (rgb_tab orig f0 f1 f2) (fun j => nth j orig 0))
    (Z.of_nat (4 * m)) f0 f1 f2 =
  overlay L (4 * m + 4) (rgb_tab orig f0 f1 f2) (fun j => nth j orig 0).
Proof.
  unfold update_rgb.
  rewrite ta_get_overlay.
  rewrite overlay_set.
  2:{ intros Hlt. destruct (Nat.ltb_spec (4 * m) L); [|lia].
      destruct (Nat.ltb_spec (4 * m) (4 * m)); [lia|].
      unfold rgb_tab. rewrite mod4_of_block0. reflexivity. }
  replace (Z.of_nat (4 * m) + 1) with (Z.of_nat (4 * m + 1)) by lia.
  rewrite ta_get_overlay.
  replace (4 * m + 1)%nat with (Datatypes.S (4 * m)) by lia.
  rewrite overlay_set.
  2:{ intros Hlt. destruct (Nat.ltb_spec (Datatypes.S (4 * m)) L); [|lia].
      destruct (Nat.ltb_spec (Datatypes.S (4 * m)) (Datatypes.S (4 * m))); [lia|].
      unfold rgb_tab. replace (Datatypes.S (4 * m)) with (4 * m + 1)%nat by lia.
      rewrite (mod4_of_block m 1) by lia. reflexivity. }
  replace (Z.of_nat (4 * m) + 2) with (Z.of_nat (Datatypes.S (Datatypes.S (4 * m)))) by lia.
  rewrite ta_get_overlay.
  rewrite overlay_set.
  2:{ intros Hlt. destruct (Nat.ltb_spec (Datatypes.S (Datatypes.S (4 * m))) L); [|lia].
      destruct (Nat.ltb_spec (Datatypes.S (Datatypes.S (4 * m)))
                  (Datatypes.S (Datatypes.S (4 * m)))); [lia|].
      unfold rgb_tab. replace (Datatypes.S (Datatypes.S (4 * m))) with (4 * m + 2)%nat by lia.
      rewrite (mod4_of_block m 2) by lia. reflexivity. }
  rewrite overlay_skip.
  - f_equal. lia.
  - unfold rgb_tab. replace (Datatypes.S (Datatypes.S (Datatypes.S (4 * m)))) with (4 * m + 3)%nat by lia.
    rewrite (mod4_of_block m 3) by lia. reflexivity.
Qed.

(** [for (let i = 0; i < d.length; i += 4) { d[i] = f0(d[i]); ... }] on a
    copy [d] of [orig]. *)
Lemma step4_update_rgb orig f0 f1 f2 :
  for_step4 (Z.of_nat (length orig)) (fun i d => update_rgb d i f0 f1 f2) orig =
  tab (length orig) (rgb_tab orig f0 f1 f2).
Proof.
  set (L := length orig).
  set (F := rgb_tab orig f0 f1 f2).
  set (base := fun j => nth j orig 0).
  transitivity (overlay L (4 * Z.to_nat (0 + Z.of_nat (Z.to_nat ((Z.of_nat L + 3) / 4)))) F base).
  2:{ apply overlay_full. rewrite Z.add_0_l, Z2Nat.id by (apply Z.div_pos; lia).
      assert (Z.of_nat L <= 4 * ((Z.of_nat L + 3) / 4)) by
        (pose proof (Z.mul_div_le (Z.of_nat L + 3) 4); pose proof (Z.mod_pos_bound (Z.of_nat L + 3) 4);
         pose proof (Z.div_mod (Z.of_nat L + 3) 4); lia).
      lia. }
  unfold for_step4.
  apply (for_loop_inv (fun k d => d = overlay L (4 * Z.to_nat k) F base)).
  { unfold overlay. simpl. unfold L, base. symmetry. apply tab_nth. }
  intros k d Hk ->.
  replace (4 * k) with (Z.of_nat (4 * Z.to_nat k)) by lia.
  replace (4 * Z.to_nat (k + 1))%nat with (4 * Z.to_nat k + 4)%nat by lia.
  apply update_rgb_overlay.
Qed.

Lemma step4_write n V0 V1 V2 V3 :
  0 <= n ->
  for_step4 n (fun i r => write_pixel r i (V0 i) (V1 i) (V2 i) (V3 i)) (ta_zeros n) =
  tab (Z.to_nat n) (step4_tab V0 V1 V2 V3).
Proof.
  intros Hn.
  set (L := Z.to_nat n).
  set (F := step4_tab V0 V1 V2 V3).
  transitivity (overlay L (4 * Z.to_nat (0 + Z.of_nat (Z.to_nat ((n + 3) / 4)))) F (fun _ => 0)).
  2:{ apply overlay_full. rewrite Z.add_0_l, Z2Nat.id by (apply Z.div_pos; lia).
      assert (n <= 4 * ((n + 3) / 4)) by
        (pose proof (Z.mod_pos_bound (n + 3) 4); pose proof (Z.div_mod (n + 3) 4); lia).
      unfold L. lia. }
  unfold for_step4. rewrite ta_zeros_tab. fold L.
  apply (for_loop_inv (fun k d => d = overlay L (4 * Z.to_nat k) F (fun _ => 0))).
  { reflexivity. }
  intros k d Hk ->.
  replace (4 * k) with (Z.of_nat (4 * Z.to_nat k)) by lia.
  replace (4 * Z.to_nat (k + 1))%nat with (4 * Z.to_nat k + 4)%nat by lia.
  apply write_pixel_overlay; intros _; unfold F, step4_tab.
  - rewrite mod4_of_block0. f_equal. f_equal. lia.
  - rewrite (mod4_of_block _ 1) by lia. f_equal. f_equal. lia.
  - rewrite (mod4_of_block _ 2) by lia. f_equal. f_equal. lia.
  - rewrite (mod4_of_block _ 3) by lia. f_equal. f_equal. lia.
Qed.

Ltac mod4_cases j :=
  let m := fresh "m" in
  let Hm := fresh "Hm" in
  set (m := Z.of_nat j mod 4);
  assert (Hm : m = 0 \/ m = 1 \/ m = 2 \/ m = 3)
    by (unfold m; pose proof (Z.mod_pos_bound (Z.of_nat j) 4); lia);
  destruct Hm as [Hm|[Hm|[Hm|Hm]]]; rewrite Hm.

Lemma u8_clamp_byte v : 0 <= v <= 255 -> u8_clamp (Some v) = v.
Proof. intros H. simpl. lia. Qed.

Lemma in_range_lookup l j v : samples_in_range l -> l !! j = Some v -> 0 <= v <= 255.
Proof. intros H Hj. unfold samples_in_range in H. rewrite Forall_lookup in H. eauto. Qed.

Lemma ta_get_nat l (j : nat) : ta_get l (Z.of_nat j) = l !! j.
Proof.
  unfold ta_get. destruct (Z.ltb_spec (Z.of_nat j) 0); [lia|]. rewrite Nat2Z.id. reflexivity.
Qed.

Lemma nat_mod4_of_Z (j : nat) : Z.of_nat (j mod 4) = Z.of_nat j mod 4.
Proof. rewrite Nat2Z.inj_mod. reflexivity. Qed.

Lemma negative_lookup w h l j :
  samples_in_range l ->
  data (applyNegative (mkImageData w h l)) !! j =
  (fun v => if Z.of_nat j mod 4 =? 3 then v else 255 - v) <$> l !! j.
Proof.
  intros Hr. unfold applyNegative; simpl.
  rewrite step4_update_rgb, lookup_tab.
  destruct (Nat.ltb_spec j (length l)).
  - destruct (nth_lookup_or_length l j 0) as [E|]; [|lia]. rewrite E. simpl.
    pose proof (in_range_lookup l j _ Hr E) as Hv.
    unfold rgb_tab. mod4_cases j; simpl; f_equal; lia.
  - rewrite lookup_ge_None_2 by lia. reflexivity.
Qed.

Lemma negative_in_range w h l :
  samples_in_range l -> samples_in_range (data (applyNegative (mkImageData w h l))).
Proof.
  intros Hr. unfold samples_in_range. apply Forall_lookup. intros j x Hj.
  rewrite negative_lookup in Hj by exact Hr.
  destruct (l !! j) as [v|] eqn:E; [|discriminate]. simpl in Hj.
  pose proof (in_range_lookup l j v Hr E).
  destruct (Z.of_nat j mod 4 =? 3); injection Hj; lia.
Qed.

Lemma swap_lookup w h l j :
  samples_in_range l -> (length l mod 4 = 0)%nat ->
  data (applySwapChannels (mkImageData w h l)) !! j = l !! swap_src j.
Proof.
  intros Hr Hlen. unfold applySwapChannels; simpl.
  rewrite step4_write by lia. rewrite lookup_tab, Nat2Z.id.
  pose proof (nat_mod4_of_Z j) as Ej.
  pose proof (Nat.mod_upper_bound j 4 ltac:(lia)) as Bj.
  pose proof (Nat.div_mod_eq j 4) as Dj.
  pose proof (Nat.div_mod_eq (length l) 4) as Dl.
  destruct (Nat.ltb_spec j (length l)).
  - unfold step4_tab, swap_src. mod4_cases j.
    + assert (j mod 4 = 0)%nat as -> by lia.
      replace (Z.of_nat j - 0 + 2) with (Z.of_nat (j + 2)) by lia.
      rewrite ta_get_nat.
      destruct (nth_lookup_or_length l (j + 2) 0) as [E|]; [|lia].
      rewrite E. f_equal. apply u8_clamp_byte. eapply in_range_lookup; eauto.
    + assert (j mod 4 = 1)%nat as -> by lia.
      replace (Z.of_nat j - 1) with (Z.of_nat (j - 1)) by lia.
      rewrite ta_get_nat.
      destruct (nth_lookup_or_length l (j - 1) 0) as [E|]; [|lia].
      rewrite E. f_equal. apply u8_clamp_byte. eapply in_range_lookup; eauto.
    + assert (j mod 4 = 2)%nat as -> by lia.
      replace (Z.of_nat j - 2 + 1) with (Z.of_nat (j - 1)) by lia.
      rewrite ta_get_nat.
      destruct (nth_lookup_or_length l (j - 1) 0) as [E|]; [|lia].
      rewrite E. f_equal. apply u8_clamp_byte. eapply in_range_lookup; eauto.
    + assert (j mod 4 = 3)%nat as -> by lia.
      replace (Z.of_nat j - 3 + 3) with (Z.of_nat j) by lia.
      rewrite ta_get_nat.
      destruct (nth_lookup_or_length l j 0) as [E|]; [|lia].
      rewrite E. f_equal. apply u8_clamp_byte. eapply in_range_lookup; eauto.
  - symmetry. apply lookup_ge_None_2. unfold swap_src.
    assert (Hc : (j mod 4 = 0 \/ j mod 4 = 1 \/ j mod 4 = 2 \/ j mod 4 = 3)%nat) by lia.
    destruct Hc as [Hc|[Hc|[Hc|Hc]]]; rewrite Hc; lia.
Qed.

Lemma applyNegative_mk w h l :
  applyNegative (mkImageData w h l) = mkImageData w h (data (applyNegative (mkImageData w h l))).
Proof. reflexivity. Qed.

Lemma applySwapChannels_mk w h l :
  applySwapChannels (mkImageData w h l) =
  mkImageData w h (data (applySwapChannels (mkImageData w h l))).
Proof. reflexivity. Qed.

Lemma swap_length w h l :
  length (data (applySwapChannels (mkImageData w h l))) = length l.
Proof.
  unfold applySwapChannels; simpl. rewrite step4_write by lia.
  rewrite length_tab. lia.
Qed.

Lemma swap_in_range w h l :
  samples_in_range l -> (length l mod 4 = 0)%nat ->
  samples_in_range (data (applySwapChannels (mkImageData w h l))).
Proof.
  intros Hr Hl. unfold samples_in_range. apply Forall_lookup. intros j x Hj.
  rewrite swap_lookup in Hj by assumption. eapply in_range_lookup; eauto.
Qed.

Lemma nat_mod4_eq (a r : nat) : (r < 4)%nat -> (exists q, a = 4 * q + r)%nat -> (a mod 4 = r)%nat.
Proof.
  intros Hr [q ->]. rewrite Nat.add_comm, Nat.mul_comm, Nat.Div0.mod_add.
  apply Nat.mod_small. exact Hr.
Qed.

Lemma swap_src3 j : swap_src (swap_src (swap_src j)) = j.
Proof.
  unfold swap_src.
  pose proof (Nat.div_mod_eq j 4) as D.
  set (q := (j / 4)%nat) in D.
  pose proof (Nat.mod_upper_bound j 4 ltac:(lia)).
  assert (Hc : (j mod 4 = 0 \/ j mod 4 = 1 \/ j mod 4 = 2 \/ j mod 4 = 3)%nat) by lia.
  destruct Hc as [Hc|[Hc|[Hc|Hc]]]; rewrite Hc.
  - rewrite (nat_mod4_eq (j + 2) 2) by (lia || (exists q; lia)).
    rewrite (nat_mod4_eq (j + 2 - 1) 1) by (lia || (exists q; lia)). lia.
  - rewrite (nat_mod4_eq (j - 1) 0) by (lia || (exists q; lia)).
    rewrite (nat_mod4_eq (j - 1 + 2) 2) by (lia || (exists q; lia)). lia.
  - rewrite (nat_mod4_eq (j - 1) 1) by (lia || (exists q; lia)).
    rewrite (nat_mod4_eq (j - 1 - 1) 0) by (lia || (exists q; lia)). lia.
  - rewrite Hc. rewrite Hc. reflexivity.
Qed.

(** C5: [applyNegative] maps every colour sample [r] to [255 - r], keeps
    every alpha sample, keeps the buffer length, and applying it twice gives
    back the original image. *)
Theorem applyNegative_involution (img : ImageData) :
  samples_in_range (data img) ->
  (forall j r, data img !! j = Some r ->
     data (applyNegative img) !! j =
     Some (if Z.of_nat j mod 4 =? 3 then r else 255 - r)) /\
  length (data (applyNegative img)) = length (data img) /\
  applyNegative (applyNegative img) = img.
Proof.
  destruct img as [w h l]. cbn [data]. intros Hr.
  split; [|split].
  - intros j r E. rewrite negative_lookup by exact Hr. rewrite E. reflexivity.
  - unfold applyNegative. simpl. rewrite step4_update_rgb, length_tab. reflexivity.
  - rewrite (applyNegative_mk w h l).
    set (l' := data (applyNegative (mkImageData w h l))).
    assert (Hr' : samples_in_range l') by (apply negative_in_range; exact Hr).
    rewrite (applyNegative_mk w h l'). f_equal.
    apply list_eq. intros j.
    rewrite negative_lookup by exact Hr'. unfold l'.
    rewrite negative_lookup by exact Hr.
    destruct (l !! j) as [v|] eqn:E; [|reflexivity]. simpl.
    pose proof (in_range_lookup l j v Hr E).
    destruct (Z.of_nat j mod 4 =? 3); f_equal; lia.
Qed.

Lemma wf_length_mod4 img : wf_image img -> (length (data img) mod 4 = 0)%nat.
Proof.
  intros (Hw & Hh & Hl & _).
  apply (nat_mod4_eq _ 0); [lia|]. exists (Z.to_nat (width img * height img)). lia.
Qed.

(** C10: [applySwapChannels] sets new R = old B, new G = old R,
    new B = old G and keeps alpha, so three applications give back the
    original image. *)
Theorem applySwapChannels_order3 (img : ImageData) :
  wf_image img ->
  (forall p, (4 * p + 3 < length (data img))%nat ->
     data (applySwapChannels img) !! (4 * p)%nat = data img !! (4 * p + 2)%nat /\
     data (applySwapChannels img) !! (4 * p + 1)%nat = data img !! (4 * p)%nat /\
     data (applySwapChannels img) !! (4 * p + 2)%nat = data img !! (4 * p + 1)%nat /\
     data (applySwapChannels img) !! (4 * p + 3)%nat = data img !! (4 * p + 3)%nat) /\
  applySwapChannels (applySwapChannels (applySwapChannels img)) = img.
Proof.
  intros Hwf. pose proof (wf_length_mod4 img Hwf) as Hm.
  destruct Hwf as (_ & _ & _ & Hr).
  destruct img as [w h l]. cbn [data] in *.
  split.
  - intros p Hp.
    rewrite !swap_lookup by assumption. unfold swap_src.
    rewrite (nat_mod4_eq (4 * p) 0) by (lia || (exists p; lia)).
    rewrite (nat_mod4_eq (4 * p + 1) 1) by (lia || (exists p; lia)).
    rewrite (nat_mod4_eq (4 * p + 2) 2) by (lia || (exists p; lia)).
    rewrite (nat_mod4_eq (4 * p + 3) 3) by (lia || (exists p; lia)).
    repeat split; f_equal; lia.
  - set (l1 := data (applySwapChannels (mkImageData w h l))).
    assert (Hr1 : samples_in_range l1) by (apply swap_in_range; assumption).
    assert (Hm1 : (length l1 mod 4 = 0)%nat) by (unfold l1; rewrite swap_length; exact Hm).
    set (l2 := data (applySwapChannels (mkImageData w h l1))).
    assert (Hr2 : samples_in_range l2) by (apply swap_in_range; assumption).
    assert (Hm2 : (length l2 mod 4 = 0)%nat) by (unfold l2; rewrite swap_length; exact Hm1).
    rewrite (applySwapChannels_mk w h l). fold l1.
    rewrite (applySwapChannels_mk w h l1). fold l2.
    rewrite (applySwapChannels_mk w h l2). f_equal.
    apply list_eq. intros j.
    rewrite swap_lookup by assumption. unfold l2.
    rewrite swap_lookup by assumption. unfold l1.
    rewrite swap_lookup by assumption.
    rewrite swap_src3. reflexivity.
Qed.

Lemma applyNegative_involution_witness :
  samples_in_range [100; 0; 255; 7] /\
  applyNegative (applyNegative (mkImageData 1 1 [100; 0; 255; 7])) = mkImageData 1 1 [100; 0; 255; 7].
Proof.
  assert (H : samples_in_range [100; 0; 255; 7]) by (repeat constructor; lia).
  split; [exact H|].
  apply (applyNegative_involution (mkImageData 1 1 [100; 0; 255; 7]) H).
Defined.

Lemma applySwapChannels_order3_witness :
  wf_image (mkImageData 1 1 [10; 20; 30; 40]) /\
  applySwapChannels (applySwapChannels (applySwapChannels (mkImageData 1 1 [10; 20; 30; 40])))
  = mkImageData 1 1 [10; 20; 30; 40].
Proof.
  assert (H : wf_image (mkImageData 1 1 [10; 20; 30; 40]))
    by (unfold wf_image; simpl; repeat split; try lia; repeat constructor; lia).
  split; [exact H|].
  apply (applySwapChannels_order3 _ H).
Defined.

(* ------------------------------------------------------------------ *)
(** *** Morphology *)

Ltac zbool :=
  repeat match goal with
  | |- context [?a <? ?b] => destruct (Z.ltb_spec a b)
  | |- context [?a <=? ?b] => destruct (Z.leb_spec a b)
  | |- context [?a >=? ?b] => rewrite (Z.geb_leb a b)
  end; simpl.

Lemma ta_get_in l i :
  0 <= i < Z.of_nat (length l) -> ta_get l i = Some (nth (Z.to_nat i) l 0).
Proof.
  intros H. unfold ta_get. destruct (Z.ltb_spec i 0); [lia|].
  destruct (nth_lookup_or_length l (Z.to_nat i) 0); [assumption | lia].
Qed.

Lemma nth_in_range l n : samples_in_range l -> (n < length l)%nat -> 0 <= nth n l 0 <= 255.
Proof.
  intros Hr Hn. destruct (nth_lookup_or_length l n 0) as [E|]; [|lia].
  eapply in_range_lookup; eauto.
Qed.

Lemma ext_red_range img px py : wf_image img -> 0 <= ext_red img px py <= 255.
Proof.
  intros (Hw & Hh & Hl & Hr). unfold ext_red. zbool; try lia.
  apply nth_in_range; [exact Hr|]. nia.
Qed.

Lemma erosion_min_fold img x y :
  erosion_min img x y =
  fold_left (fun mv c => erosion_cell img SQUARE_ELEMENT x y (snd c) (fst c) mv) se_cells (Some 255).
Proof. reflexivity. Qed.

Lemma dilation_max_fold img x y :
  dilation_max img x y =
  fold_left (fun mv c => dilation_cell img SQUARE_ELEMENT x y (snd c) (fst c) mv) se_cells (Some 0).
Proof. reflexivity. Qed.

Definition cell_ok (c : Z * Z) : Prop := 0 <= fst c <= 2 /\ 0 <= snd c <= 2.

Lemma se_cells_ok : Forall cell_ok se_cells.
Proof. unfold se_cells, cell_ok. repeat constructor; simpl; lia. Qed.

Lemma se_is_zero_square sy sx : 0 <= sy <= 2 -> 0 <= sx <= 2 -> se_is_zero SQUARE_ELEMENT sy sx = false.
Proof.
  intros Hy Hx.
  assert (Ey : sy = 0 \/ sy = 1 \/ sy = 2) by lia.
  assert (Ex : sx = 0 \/ sx = 1 \/ sx = 2) by lia.
  destruct Ey as [ -> | [ -> | -> ]]; destruct Ex as [ -> | [ -> | -> ]]; reflexivity.
Qed.

Lemma erosion_cell_step img x y c m :
  wf_image img -> cell_ok c -> 0 <= m <= 255 ->
  erosion_cell img SQUARE_ELEMENT x y (snd c) (fst c) (Some m) =
  Some (Z.min m (at_cell (ext_red img) x y c)).
Proof.
  intros Hwf [Hc1 Hc2] Hm. pose proof Hwf as (Hw & Hh & Hl & Hr).
  unfold erosion_cell, at_cell, ext_red. rewrite se_is_zero_square by lia.
  zbool; try (f_equal; lia).
  rewrite ta_get_in by nia. reflexivity.
Qed.

Lemma dilation_cell_step img x y c m :
  wf_image img -> cell_ok c -> 0 <= m <= 255 ->
  dilation_cell img SQUARE_ELEMENT x y (snd c) (fst c) (Some m) =
  Some (Z.max m (at_cell (ext_red img) x y c)).
Proof.
  intros Hwf [Hc1 Hc2] Hm. pose proof Hwf as (Hw & Hh & Hl & Hr).
  unfold dilation_cell, at_cell, ext_red. rewrite se_is_zero_square by lia.
  zbool; try (f_equal; lia).
  rewrite ta_get_in by nia. reflexivity.
Qed.

Lemma tab_pixel_lookup w h P0 P1 P2 P3 x y c :
  0 <= x < w -> 0 <= y < h -> 0 <= c < 4 ->
  tab (Z.to_nat (w * h * 4)) (pixel_tab w P0 P1 P2 P3) !! Z.to_nat ((y * w + x) * 4 + c) =
  Some (u8_clamp (match c with 0 => P0 x y | 1 => P1 x y | 2 => P2 x y | _ => P3 x y end)).
Proof.
  intros Hx Hy Hc. rewrite lookup_tab.
  destruct (Nat.ltb_spec (Z.to_nat ((y * w + x) * 4 + c)) (Z.to_nat (w * h * 4))); [|nia].
  f_equal. unfold pixel_tab.
  destruct (pixel_index_decode w x y c Hx ltac:(lia) Hc) as (E1 & E2 & E3 & E4).
  rewrite Z2Nat.id by nia. rewrite E1, E2, E3, E4.
  destruct (Z.eq_dec c 0) as [->|]; [reflexivity|].
  destruct (Z.eq_dec c 1) as [->|]; [reflexivity|].
  destruct (Z.eq_dec c 2) as [->|]; [reflexivity|].
  assert (c = 3) as -> by lia. reflexivity.
Qed.

Lemma u8_clamp_range v : 0 <= u8_clamp v <= 255.
Proof. destruct v; simpl; lia. Qed.

Lemma tab_u8_in_range n (F : nat -> option Z) :
  samples_in_range (tab n (fun j => u8_clamp (F j))).
Proof.
  unfold samples_in_range. apply Forall_lookup. intros j x Hj.
  rewrite lookup_tab in Hj. destruct (Nat.ltb_spec j n); [|discriminate].
  injection Hj as <-. apply u8_clamp_range.
Qed.

Lemma pixel_tab_in_range n w P0 P1 P2 P3 :
  samples_in_range (tab n (pixel_tab w P0 P1 P2 P3)).
Proof.
  unfold samples_in_range. apply Forall_lookup. intros j x Hj.
  rewrite lookup_tab in Hj. destruct (Nat.ltb_spec j n); [|discriminate].
  injection Hj as <-. unfold pixel_tab.
  destruct (Z.of_nat j mod 4) as [|[[ | | ]|[ | | ]| ]|]; apply u8_clamp_range.
Qed.

(** Two well-formed images of the same size are equal when they agree at
    every pixel and channel. *)
Lemma image_ext (A B : ImageData) :
  wf_image A -> wf_image B -> width A = width B -> height A = height B ->
  (forall x y c, 0 <= x < width A -> 0 <= y < height A -> 0 <= c < 4 ->
     data A !! Z.to_nat ((y * width A + x) * 4 + c) =
     data B !! Z.to_nat ((y * width A + x) * 4 + c)) ->
  A = B.
Proof.
  destruct A as [w h a], B as [w' h' b]. cbn [width height data].
  intros (Hw & Hh & Ha & _) (_ & _ & Hb & _) <- <- Hpix.
  cbn [width height data] in Hw, Hh, Ha, Hb. f_equal.
  apply list_eq. intros j.
  destruct (Nat.lt_ge_cases j (length a)) as [Hj|Hj].
  - assert (Hw0 : 0 < w) by nia.
    set (p := Z.of_nat j / 4).
    assert (Hp : 0 <= p < w * h) by (unfold p; split; [apply Z.div_pos; lia | apply Z.div_lt_upper_bound; lia]).
    pose proof (Z.div_mod (Z.of_nat j) 4 ltac:(lia)) as Dj.
    pose proof (Z.mod_pos_bound (Z.of_nat j) 4 ltac:(lia)) as Bj.
    pose proof (Z.div_mod p w ltac:(lia)) as Dp.
    pose proof (Z.mod_pos_bound p w ltac:(lia)) as Bp.
    assert (Hy : 0 <= p / w < h) by (split; [apply Z.div_pos; lia | apply Z.div_lt_upper_bound; lia]).
    specialize (Hpix (p mod w) (p / w) (Z.of_nat j mod 4) Bp Hy Bj).
    replace (Z.to_nat ((p / w * w + p mod w) * 4 + Z.of_nat j mod 4)) with j in Hpix by (fold p in Dj; lia).
    exact Hpix.
  - rewrite !lookup_ge_None_2 by lia. reflexivity.
Qed.

(** Lemmas on the running minimum and maximum of a fold. *)
Section FoldMinMax.
Variable g : Z * Z -> Z.

Lemma fold_min_le_init l m : fold_left (fun m c => Z.min m (g c)) l m <= m.
Proof. revert m; induction l as [|c l IH]; intros m; simpl; [lia|]. specialize (IH (Z.min m (g c))). lia. Qed.

Lemma fold_min_le_elem l m c : In c l -> fold_left (fun m c => Z.min m (g c)) l m <= g c.
Proof.
  revert m; induction l as [|c' l IH]; intros m Hin; simpl in *; [contradiction|].
  destruct Hin as [ -> | Hin]; [|apply IH; exact Hin].
  pose proof (fold_min_le_init l (Z.min m (g c))). lia.
Qed.

Lemma fold_min_glb l m b :
  b <= m -> (forall c, In c l -> b <= g c) -> b <= fold_left (fun m c => Z.min m (g c)) l m.
Proof.
  revert m; induction l as [|c l IH]; intros m Hm Hl; simpl; [lia|].
  apply IH; [|intros; apply Hl; right; assumption].
  specialize (Hl c (or_introl eq_refl)). lia.
Qed.

Lemma fold_max_ge_init l m : m <= fold_left (fun m c => Z.max m (g c)) l m.
Proof. revert m; induction l as [|c l IH]; intros m; simpl; [lia|]. specialize (IH (Z.max m (g c))). lia. Qed.

Lemma fold_max_ge_elem l m c : In c l -> g c <= fold_left (fun m c => Z.max m (g c)) l m.
Proof.
  revert m; induction l as [|c' l IH]; intros m Hin; simpl in *; [contradiction|].
  destruct Hin as [ -> | Hin]; [|apply IH; exact Hin].
  pose proof (fold_max_ge_init l (Z.max m (g c))). lia.
Qed.

Lemma fold_max_lub l m b :
  m <= b -> (forall c, In c l -> g c <= b) -> fold_left (fun m c => Z.max m (g c)) l m <= b.
Proof.
  revert m; induction l as [|c l IH]; intros m Hm Hl; simpl; [lia|].
  apply IH; [|intros; apply Hl; right; assumption].
  specialize (Hl c (or_introl eq_refl)). lia.
Qed.
End FoldMinMax.

Lemma fold_left_ext_in {A B : Type} (F G : A -> B -> A) (l : list B) (a : A) :
  (forall m c, In c l -> F m c = G m c) -> fold_left F l a = fold_left G l a.
Proof.
  revert a; induction l as [|c l IH]; intros a H; simpl; [reflexivity|].
  rewrite H by (left; reflexivity). apply IH. intros; apply H; right; assumption.
Qed.

Lemma se_cells_mirror c : In c se_cells -> In (2 - fst c, 2 - snd c) se_cells.
Proof.
  unfold se_cells. intros H.
  repeat (destruct H as [<- | H]; [simpl; tauto |]). contradiction.
Qed.

Lemma center_in_se_cells : In (1, 1) se_cells.
Proof. unfold se_cells. simpl. tauto. Qed.

Definition bounded (f : Z -> Z -> Z) : Prop := forall a b, 0 <= f a b <= 255.

Lemma erode_range f x y : bounded f -> 0 <= erode f x y <= 255.
Proof.
  intros Hf. unfold erode. split.
  - apply fold_min_glb; [lia|]. intros c _. unfold at_cell. apply Hf.
  - apply fold_min_le_init.
Qed.

Lemma dilate_range f x y : bounded f -> 0 <= dilate f x y <= 255.
Proof.
  intros Hf. unfold dilate. split.
  - apply fold_max_ge_init.
  - apply fold_max_lub; [lia|]. intros c _. unfold at_cell. apply Hf.
Qed.

Lemma erode_ext f g x y : (forall a b, f a b = g a b) -> erode f x y = erode g x y.
Proof. intros H. unfold erode, at_cell. apply fold_left_ext_in. intros. rewrite H. reflexivity. Qed.

Lemma dilate_ext f g x y : (forall a b, f a b = g a b) -> dilate f x y = dilate g x y.
Proof. intros H. unfold dilate, at_cell. apply fold_left_ext_in. intros. rewrite H. reflexivity. Qed.

Lemma erode_mono f g x y : (forall a b, f a b <= g a b) -> erode f x y <= erode g x y.
Proof.
  intros H. unfold erode at 2. apply fold_min_glb.
  - unfold erode. apply fold_min_le_init.
  - intros c Hc. unfold erode. eapply Z.le_trans; [apply fold_min_le_elem; exact Hc|].
    unfold at_cell. apply H.
Qed.

Lemma erode_le_center f x y : erode f x y <= f x y.
Proof.
  unfold erode. eapply Z.le_trans; [apply fold_min_le_elem; exact center_in_se_cells|].
  unfold at_cell; simpl. replace (x + 1 - 1) with x by lia. replace (y + 1 - 1) with y by lia. lia.
Qed.

(** Opening is anti-extensive. *)
Lemma dilate_erode_le f x y : bounded f -> dilate (erode f) x y <= f x y.
Proof.
  intros Hf. unfold dilate. apply fold_max_lub; [apply Hf|].
  intros c Hc. unfold at_cell. unfold erode.
  eapply Z.le_trans; [apply fold_min_le_elem; apply se_cells_mirror; exact Hc|].
  unfold at_cell; simpl.
  replace (x + fst c - 1 + (2 - fst c) - 1) with x by lia.
  replace (y + snd c - 1 + (2 - snd c) - 1) with y by lia. lia.
Qed.

(** Closing is extensive. *)
Lemma erode_dilate_ge g x y : bounded g -> g x y <= erode (dilate g) x y.
Proof.
  intros Hg. unfold erode. apply fold_min_glb; [apply Hg|].
  intros c Hc. unfold at_cell. unfold dilate.
  eapply Z.le_trans; [|apply fold_max_ge_elem; apply se_cells_mirror; exact Hc].
  unfold at_cell; simpl.
  replace (x + fst c - 1 + (2 - fst c) - 1) with x by lia.
  replace (y + snd c - 1 + (2 - snd c) - 1) with y by lia. lia.
Qed.

Lemma erode_dilate_erode f x y : bounded f -> erode (dilate (erode f)) x y = erode f x y.
Proof.
  intros Hf. apply Z.le_antisymm.
  - apply erode_mono. intros a b. apply dilate_erode_le. exact Hf.
  - apply erode_dilate_ge. intros a b. apply erode_range. exact Hf.
Qed.

(** Opening on the plane is idempotent. *)
Lemma opening_idempotent_plane f x y :
  bounded f -> dilate (erode (dilate (erode f))) x y = dilate (erode f) x y.
Proof.
  intros Hf. apply dilate_ext. intros a b. apply erode_dilate_erode. exact Hf.
Qed.

Lemma erosion_min_erode img x y :
  wf_image img -> erosion_min img x y = Some (erode (ext_red img) x y).
Proof.
  intros Hwf. rewrite erosion_min_fold. unfold erode.
  assert (Hgen : forall l m, Forall cell_ok l -> 0 <= m <= 255 ->
    fold_left (fun mv c => erosion_cell img SQUARE_ELEMENT x y (snd c) (fst c) mv) l (Some m) =
    Some (fold_left (fun m c => Z.min m (at_cell (ext_red img) x y c)) l m)).
  { induction l as [|c l IH]; intros m Hl Hm; simpl; [reflexivity|].
    inversion Hl as [|? ? Hc Hl']; subst.
    rewrite erosion_cell_step by assumption. apply IH; [exact Hl'|].
    pose proof (ext_red_range img (x + fst c - 1) (y + snd c - 1) Hwf).
    unfold at_cell. lia. }
  apply Hgen; [exact se_cells_ok | lia].
Qed.

Lemma dilation_max_dilate img x y :
  wf_image img -> dilation_max img x y = Some (dilate (ext_red img) x y).
Proof.
  intros Hwf. rewrite dilation_max_fold. unfold dilate.
  assert (Hgen : forall l m, Forall cell_ok l -> 0 <= m <= 255 ->
    fold_left (fun mv c => dilation_cell img SQUARE_ELEMENT x y (snd c) (fst c) mv) l (Some m) =
    Some (fold_left (fun m c => Z.max m (at_cell (ext_red img) x y c)) l m)).
  { induction l as [|c l IH]; intros m Hl Hm; simpl; [reflexivity|].
    inversion Hl as [|? ? Hc Hl']; subst.
    rewrite dilation_cell_step by assumption. apply IH; [exact Hl'|].
    pose proof (ext_red_range img (x + fst c - 1) (y + snd c - 1) Hwf).
    unfold at_cell. lia. }
  apply Hgen; [exact se_cells_ok | lia].
Qed.

Lemma applyErosion_data img :
  wf_image img ->
  data (applyErosion img) =
  tab (Z.to_nat (width img * height img * 4))
    (pixel_tab (width img) (erosion_min img) (erosion_min img) (erosion_min img)
       (fun x y => ta_get (data img) ((y * width img + x) * 4 + 3))).
Proof.
  intros (Hw & Hh & Hl & _). unfold applyErosion. cbn [data]. rewrite Hl.
  apply (pixel_loop (width img) (height img) (erosion_min img) (erosion_min img)
           (erosion_min img) (fun x y => ta_get (data img) ((y * width img + x) * 4 + 3)) Hw Hh).
Qed.

Lemma applyDilation_data img :
  wf_image img ->
  data (applyDilation img) =
  tab (Z.to_nat (width img * height img * 4))
    (pixel_tab (width img) (dilation_max img) (dilation_max img) (dilation_max img)
       (fun x y => ta_get (data img) ((y * width img + x) * 4 + 3))).
Proof.
  intros (Hw & Hh & Hl & _). unfold applyDilation. cbn [data]. rewrite Hl.
  apply (pixel_loop (width img) (height img) (dilation_max img) (dilation_max img)
           (dilation_max img) (fun x y => ta_get (data img) ((y * width img + x) * 4 + 3)) Hw Hh).
Qed.

Lemma applyErosion_wf img : wf_image img -> wf_image (applyErosion img).
Proof.
  intros Hwf. pose proof Hwf as (Hw & Hh & Hl & _).
  assert (E1 : width (applyErosion img) = width img) by reflexivity.
  assert (E2 : height (applyErosion img) = height img) by reflexivity.
  unfold wf_image. rewrite E1, E2, applyErosion_data by exact Hwf.
  rewrite length_tab. split; [lia | split; [lia | split; [lia |]]]. apply pixel_tab_in_range.
Qed.

Lemma applyDilation_wf img : wf_image img -> wf_image (applyDilation img).
Proof.
  intros Hwf. pose proof Hwf as (Hw & Hh & Hl & _).
  assert (E1 : width (applyDilation img) = width img) by reflexivity.
  assert (E2 : height (applyDilation img) = height img) by reflexivity.
  unfold wf_image. rewrite E1, E2, applyDilation_data by exact Hwf.
  rewrite length_tab. split; [lia | split; [lia | split; [lia |]]]. apply pixel_tab_in_range.
Qed.

(** Reading a pixel of a well-formed buffer. *)
Lemma alpha_passthrough img x y :
  wf_image img -> 0 <= x < width img -> 0 <= y < height img ->
  Some (u8_clamp (ta_get (data img) ((y * width img + x) * 4 + 3))) =
  data img !! Z.to_nat ((y * width img + x) * 4 + 3).
Proof.
  intros (Hw & Hh & Hl & Hr) Hx Hy.
  rewrite ta_get_in by nia.
  destruct (nth_lookup_or_length (data img) (Z.to_nat ((y * width img + x) * 4 + 3)) 0) as [E|]; [|nia].
  rewrite E. f_equal. apply u8_clamp_byte. eapply in_range_lookup; eauto.
Qed.

Lemma erosion_lookup img x y c :
  wf_image img -> 0 <= x < width img -> 0 <= y < height img -> 0 <= c < 4 ->
  data (applyErosion img) !! Z.to_nat ((y * width img + x) * 4 + c) =
  if c =? 3 then data img !! Z.to_nat ((y * width img + x) * 4 + c)
  else Some (erode (ext_red img) x y).
Proof.
  intros Hwf Hx Hy Hc. rewrite applyErosion_data by exact Hwf.
  rewrite tab_pixel_lookup by assumption.
  pose proof (erode_range (ext_red img) x y (fun a b => ext_red_range img a b Hwf)).
  rewrite erosion_min_erode by exact Hwf.
  assert (Ec : c = 0 \/ c = 1 \/ c = 2 \/ c = 3) by lia.
  destruct Ec as [ -> | [ -> | [ -> | -> ]]]; simpl; try (f_equal; lia).
  apply alpha_passthrough; assumption.
Qed.

Lemma dilation_lookup img x y c :
  wf_image img -> 0 <= x < width img -> 0 <= y < height img -> 0 <= c < 4 ->
  data (applyDilation img) !! Z.to_nat ((y * width img + x) * 4 + c) =
  if c =? 3 then data img !! Z.to_nat ((y * width img + x) * 4 + c)
  else Some (dilate (ext_red img) x y).
Proof.
  intros Hwf Hx Hy Hc. rewrite applyDilation_data by exact Hwf.
  rewrite tab_pixel_lookup by assumption.
  pose proof (dilate_range (ext_red img) x y (fun a b => ext_red_range img a b Hwf)).
  rewrite dilation_max_dilate by exact Hwf.
  assert (Ec : c = 0 \/ c = 1 \/ c = 2 \/ c = 3) by lia.
  destruct Ec as [ -> | [ -> | [ -> | -> ]]]; simpl; try (f_equal; lia).
  apply alpha_passthrough; assumption.
Qed.

Lemma ext_red_bounded img : wf_image img -> bounded (ext_red img).
Proof. intros Hwf a b. apply ext_red_range. exact Hwf. Qed.

Lemma lookup_to_nth l n v : l !! n = Some v -> nth n l 0 = v.
Proof. apply nth_lookup_Some. Qed.

Lemma ext_red_erosion img px py :
  wf_image img -> ext_red (applyErosion img) px py = erode (ext_red img) px py.
Proof.
  intros Hwf.
  assert (E1 : width (applyErosion img) = width img) by reflexivity.
  assert (E2 : height (applyErosion img) = height img) by reflexivity.
  unfold ext_red at 1. rewrite E1, E2.
  pose proof (erode_range _ px py (ext_red_bounded img Hwf)).
  pose proof (erode_le_center (ext_red img) px py).
  destruct ((0 <=? px) && (px <? width img) && (0 <=? py) && (py <? height img)) eqn:Hin.
  - repeat rewrite andb_true_iff in Hin. rewrite !Z.leb_le, !Z.ltb_lt in Hin.
    apply lookup_to_nth.
    pose proof (erosion_lookup img px py 0 Hwf ltac:(lia) ltac:(lia) ltac:(lia)) as L.
    rewrite Z.add_0_r in L. exact L.
  - unfold ext_red in *. rewrite Hin in *. lia.
Qed.

Lemma ext_red_dilation img px py :
  wf_image img ->
  ext_red (applyDilation img) px py =
  if (0 <=? px) && (px <? width img) && (0 <=? py) && (py <? height img)
  then dilate (ext_red img) px py else 0.
Proof.
  intros Hwf.
  assert (E1 : width (applyDilation img) = width img) by reflexivity.
  assert (E2 : height (applyDilation img) = height img) by reflexivity.
  unfold ext_red at 1. rewrite E1, E2.
  destruct ((0 <=? px) && (px <? width img) && (0 <=? py) && (py <? height img)) eqn:Hin;
    [|reflexivity].
  repeat rewrite andb_true_iff in Hin. rewrite !Z.leb_le, !Z.ltb_lt in Hin.
  apply lookup_to_nth.
  pose proof (dilation_lookup img px py 0 Hwf ltac:(lia) ltac:(lia) ltac:(lia)) as L.
  rewrite Z.add_0_r in L. exact L.
Qed.

Lemma applyOpening_wf img : wf_image img -> wf_image (applyOpening img).
Proof. intros Hwf. apply applyDilation_wf, applyErosion_wf, Hwf. Qed.

Lemma ext_red_opening img px py :
  wf_image img -> ext_red (applyOpening img) px py = dilate (erode (ext_red img)) px py.
Proof.
  intros Hwf. unfold applyOpening.
  rewrite ext_red_dilation by (apply applyErosion_wf; exact Hwf).
  change (width (applyErosion img)) with (width img).
  change (height (applyErosion img)) with (height img).
  destruct ((0 <=? px) && (px <? width img) && (0 <=? py) && (py <? height img)) eqn:Hin.
  - apply dilate_ext. intros a b. apply ext_red_erosion. exact Hwf.
  - pose proof (dilate_erode_le (ext_red img) px py (ext_red_bounded img Hwf)).
    pose proof (dilate_range (erode (ext_red img)) px py
                  (fun a b => erode_range _ a b (ext_red_bounded img Hwf))).
    assert (ext_red img px py = 0) by (unfold ext_red; rewrite Hin; reflexivity).
    lia.
Qed.

Lemma opening_lookup img x y c :
  wf_image img -> 0 <= x < width img -> 0 <= y < height img -> 0 <= c < 4 ->
  data (applyOpening img) !! Z.to_nat ((y * width img + x) * 4 + c) =
  if c =? 3 then data img !! Z.to_nat ((y * width img + x) * 4 + c)
  else Some (dilate (erode (ext_red img)) x y).
Proof.
  intros Hwf Hx Hy Hc. unfold applyOpening.
  pose proof (dilation_lookup (applyErosion img) x y c (applyErosion_wf img Hwf) Hx Hy Hc) as L.
  change (width (applyErosion img)) with (width img) in L.
  rewrite L.
  rewrite (erosion_lookup img x y c Hwf Hx Hy Hc).
  destruct (c =? 3); [reflexivity|].
  f_equal. apply dilate_ext. intros a b. apply ext_red_erosion. exact Hwf.
Qed.

(** C2: on binary images, opening (dilation of the erosion, both with the
    full 3x3 element and background 0 outside the image) is idempotent. *)
Theorem applyOpening_idempotent (img : ImageData) :
  wf_image img -> binary_image img ->
  applyOpening (applyOpening img) = applyOpening img.
Proof.
  intros Hwf _.
  pose proof (applyOpening_wf img Hwf) as Hwf1.
  apply image_ext.
  - apply applyOpening_wf. exact Hwf1.
  - exact Hwf1.
  - reflexivity.
  - reflexivity.
  - intros x y c Hx Hy Hc.
    change (width (applyOpening (applyOpening img))) with (width img) in *.
    change (height (applyOpening (applyOpening img))) with (height img) in *.
    pose proof (opening_lookup (applyOpening img) x y c Hwf1 Hx Hy Hc) as L.
    change (width (applyOpening img)) with (width img) in L.
    rewrite L.
    rewrite (opening_lookup img x y c Hwf Hx Hy Hc).
    destruct (c =? 3); [reflexivity|].
    f_equal.
    rewrite <- (opening_idempotent_plane (ext_red img) x y (ext_red_bounded img Hwf)).
    apply dilate_ext. intros a b. apply erode_ext. intros a' b'.
    apply ext_red_opening. exact Hwf.
Qed.

Lemma ext_red_outside img px py :
  (px < 0 \/ px >= width img \/ py < 0 \/ py >= height img) -> ext_red img px py = 0.
Proof. intros H. unfold ext_red. zbool; lia. Qed.

(** C3: erosion writes 0 to the colour samples of every pixel whose 3x3
    footprint leaves the image; on the 3x3 all-white image only the centre
    pixel stays white. *)
Theorem applyErosion_border_black (img : ImageData) :
  wf_image img ->
  (forall x y c, 0 <= x < width img -> 0 <= y < height img -> 0 <= c < 3 ->
     (x - 1 < 0 \/ x + 1 >= width img \/ y - 1 < 0 \/ y + 1 >= height img) ->
     data (applyErosion img) !! Z.to_nat ((y * width img + x) * 4 + c) = Some 0) /\
  data (applyErosion white_3x3) =
    [0; 0; 0; 255;  0; 0; 0; 255;  0; 0; 0; 255;
     0; 0; 0; 255;  255; 255; 255; 255;  0; 0; 0; 255;
     0; 0; 0; 255;  0; 0; 0; 255;  0; 0; 0; 255].
Proof.
  intros Hwf. split; [|vm_compute; reflexivity].
  intros x y c Hx Hy Hc Hout.
  rewrite erosion_lookup by (assumption || lia).
  destruct (Z.eqb_spec c 3); [lia|]. f_equal.
  pose proof (erode_range _ x y (ext_red_bounded img Hwf)).
  assert (Hc0 : exists cell, In cell se_cells /\ at_cell (ext_red img) x y cell = 0).
  { unfold at_cell, se_cells.
    destruct Hout as [Ho|[Ho|[Ho|Ho]]].
    - exists (0, 1). simpl. split; [tauto|]. apply ext_red_outside. lia.
    - exists (2, 1). simpl. split; [tauto|]. apply ext_red_outside. lia.
    - exists (1, 0). simpl. split; [tauto|]. apply ext_red_outside. lia.
    - exists (1, 2). simpl. split; [tauto|]. apply ext_red_outside. lia. }
  destruct Hc0 as (cell & Hin & H0).
  pose proof (fold_min_le_elem (at_cell (ext_red img) x y) se_cells 255 cell Hin).
  unfold erode in *. lia.
Qed.

Lemma applyErosion_border_black_witness :
  wf_image white_3x3 /\
  data (applyErosion white_3x3) !! Z.to_nat ((0 * 3 + 1) * 4 + 0) = Some 0.
Proof.
  assert (H : wf_image white_3x3)
    by (unfold wf_image; simpl; repeat split; try lia; repeat constructor; lia).
  split; [exact H|].
  apply (proj1 (applyErosion_border_black white_3x3 H) 1 0 0); simpl; lia.
Defined.

Lemma applyOpening_idempotent_witness :
  (wf_image white_3x3 /\ binary_image white_3x3) /\
  applyOpening (applyOpening white_3x3) = applyOpening white_3x3.
Proof.
  assert (H : wf_image white_3x3)
    by (unfold wf_image; simpl; repeat split; try lia; repeat constructor; lia).
  assert (B : binary_image white_3x3).
  { intros j v Hj _. simpl in Hj.
    do 36 (destruct j as [|j]; [simpl in Hj; injection Hj as <-; right; reflexivity|]).
    simpl in Hj. discriminate. }
  split; [split; assumption|].
  apply (applyOpening_idempotent white_3x3 H B).
Defined.

(** Quantization. *)

Lemma js_round_of_Z (n : Z) : js_round (inject_Z n) = n.
Proof. unfold js_round, Qfloor. simpl. rewrite Z.mul_1_r.
  replace (n * 2 + 1) with (1 + n * 2) by lia. rewrite Z.div_add by lia. reflexivity. Qed.

Lemma js_round_mono (a b : Q) : (a <= b)%Q -> js_round a <= js_round b.
Proof. intros H. unfold js_round. apply Qfloor_resp_le. apply Qplus_le_compat; [exact H | apply Qle_refl]. Qed.

Lemma js_round_comp (a b : Q) : (a == b)%Q -> js_round a = js_round b.
Proof. intros H. unfold js_round. apply Qfloor_comp. rewrite H. reflexivity. Qed.









(** Histogram equalization. *)

Lemma nth_tab n f j : nth j (tab n f) 0 = if Nat.ltb j n then f j else 0.
Proof.
  destruct (nth_lookup_or_length (tab n f) j 0) as [E|E].
  - rewrite lookup_tab in E. destruct (Nat.ltb j n); congruence.
  - rewrite length_tab in E. rewrite nth_overflow by (rewrite length_tab; lia).
    destruct (Nat.ltb_spec j n); [lia|reflexivity].
Qed.

Lemma ta_get_tab n f (v : Z) :
  0 <= v < Z.of_nat n -> ta_get (tab n f) v = Some (f (Z.to_nat v)).
Proof.
  intros Hv. unfold ta_get. destruct (Z.ltb_spec v 0); [lia|].
  rewrite lookup_tab. destruct (Nat.ltb_spec (Z.to_nat v) n); [reflexivity|lia].
Qed.


Lemma hist_inc_spike v k : 0 <= v <= 255 -> hist_inc (spike v k) (Some v) = spike v (k + 1).
Proof.
  intros Hv. unfold hist_inc.
  destruct (Z.leb_spec 0 v); [|lia]. destruct (Z.ltb_spec v 256); [|lia]. cbn [andb].
  apply list_eq. intros t. unfold spike.
  destruct (decide (t = Z.to_nat v)) as [->|Hne].
  - rewrite list_lookup_insert_eq by (rewrite length_tab; lia).
    rewrite lookup_tab, nth_tab. destruct (Nat.ltb_spec (Z.to_nat v) 256); [|lia].
    rewrite Z2Nat.id by lia. rewrite Z.eqb_refl. reflexivity.
  - rewrite list_lookup_insert_ne by congruence. rewrite !lookup_tab.
    destruct (Nat.ltb_spec t 256); [|reflexivity].
    destruct (Z.eqb_spec (Z.of_nat t) v); [lia|reflexivity].
Qed.

Lemma replicate_spike v : replicate 256 0 = spike v 0.
Proof.
  apply list_eq. intros t. unfold spike. rewrite lookup_tab.
  destruct (Nat.ltb_spec t 256).
  - rewrite lookup_replicate_2 by lia. destruct (Z.of_nat t =? v); reflexivity.
  - apply lookup_replicate_None. lia.
Qed.

Lemma uniform_get img c k :
  wf_image img -> uniform_colour img -> 0 <= c < 3 -> 0 <= k ->
  4 * k + c < Z.of_nat (length (data img)) ->
  ta_get (data img) (4 * k + c) = Some (nth (Z.to_nat c) (data img) 0).
Proof.
  intros Hwf Hu Hc Hk Hlt. unfold ta_get. destruct (Z.ltb_spec (4 * k + c) 0); [lia|].
  destruct (nth_lookup_or_length (data img) (Z.to_nat (4 * k + c)) 0) as [E|E]; [|lia].
  rewrite E. apply Hu in E.
  - assert (M : (Z.to_nat (4 * k + c) mod 4 = Z.to_nat c)%nat).
    { apply nat_mod4_eq; [lia|]. exists (Z.to_nat k). lia. }
    rewrite M in E.
    destruct (nth_lookup_or_length (data img) (Z.to_nat c) 0) as [E2|E2]; [|lia].
    congruence.
  - rewrite Z2Nat.id by lia. rewrite Z.add_comm, Z.mul_comm, Z.mod_add by lia.
    rewrite Z.mod_small by lia. lia.
Qed.

Lemma eq_histograms_uniform img :
  wf_image img -> uniform_colour img ->
  eq_histograms (data img) =
    (spike (nth 0 (data img) 0) (width img * height img),
     spike (nth 1 (data img) 0) (width img * height img),
     spike (nth 2 (data img) 0) (width img * height img)).
Proof.
  intros Hwf Hu. pose proof Hwf as (Hw & Hh & Hlen & Hr).
  set (N := width img * height img).
  assert (HN : 0 <= N) by (unfold N; nia).
  unfold eq_histograms, for_step4. rewrite Hlen.
  assert (E : Z.to_nat ((N * 4 + 3) / 4) = Z.to_nat N).
  { f_equal. replace (N * 4 + 3) with (3 + N * 4) by lia. rewrite Z.div_add by lia. reflexivity. }
  fold N. rewrite E.
  set (v0 := nth 0 (data img) 0). set (v1 := nth 1 (data img) 0). set (v2 := nth 2 (data img) 0).
  rewrite (replicate_spike v0) at 1. rewrite (replicate_spike v1) at 1. rewrite (replicate_spike v2) at 1.
  set (K := Z.to_nat N).
  assert (HK : N = 0 + Z.of_nat K) by (unfold K; lia).
  rewrite HK.
  apply (for_loop_inv (fun k hs => hs = (spike v0 k, spike v1 k, spike v2 k))); [reflexivity|].
  intros k hs Hk ->. cbv beta iota.
  assert (Hk' : 4 * k + 2 < Z.of_nat (length (data img))) by lia.
  assert (G0 : ta_get (data img) (4 * k) = Some v0)
    by (rewrite <- (Z.add_0_r (4 * k)); apply uniform_get; (assumption || lia)).
  assert (G1 : ta_get (data img) (4 * k + 1) = Some v1)
    by (apply uniform_get; (assumption || lia)).
  assert (G2 : ta_get (data img) (4 * k + 2) = Some v2)
    by (apply uniform_get; (assumption || lia)).
  rewrite G0, G1, G2.
  rewrite !hist_inc_spike by (apply nth_in_range; [assumption | lia]).
  reflexivity.
Qed.

Lemma createLUT_spike T v N :
  0 <= v <= 255 ->
  createLUT T (spike v N) =
  tab 256 (fun t => u8_clamp (eq_lut_value (if Z.of_nat t >=? v then N else 0) T)).
Proof.
  intros Hv. unfold createLUT. rewrite ta_zeros_tab.
  set (F := fun t : nat => u8_clamp (eq_lut_value (if Z.of_nat t >=? v then N else 0) T)).
  transitivity (snd (if (0 + Z.of_nat 256) >? v then N else 0,
                     overlay 256 (Z.to_nat (0 + Z.of_nat 256)) F (fun _ => 0))).
  - f_equal.
    apply (for_loop_inv (fun i (st : Z * list Z) =>
             st = (if i >? v then N else 0, overlay 256 (Z.to_nat i) F (fun _ => 0)))).
    + destruct (Z.gtb_spec 0 v); [lia|]. reflexivity.
    + intros i st Hi ->. cbv beta. cbn [fst snd].
      destruct (Z_of_nat_complete i) as [n ->]; [lia|]. rewrite Nat2Z.id.
      unfold spike. rewrite nth_tab.
      destruct (Nat.ltb_spec n 256); [|lia].
      assert (C : (if Z.of_nat n >? v then N else 0) + (if Z.of_nat n =? v then N else 0) =
                  if Z.of_nat n + 1 >? v then N else 0)
        by (destruct (Z.gtb_spec (Z.of_nat n) v), (Z.eqb_spec (Z.of_nat n) v),
              (Z.gtb_spec (Z.of_nat n + 1) v); lia).
      rewrite C. f_equal.
      rewrite overlay_set.
      * f_equal. lia.
      * intros _. unfold F. do 2 f_equal.
        destruct (Z.gtb_spec (Z.of_nat n + 1) v), (Z.geb_spec (Z.of_nat n) v); lia.
  - cbn [snd]. apply overlay_full. lia.
Qed.

Lemma eq_lut_value_full N : 0 < N -> u8_clamp (eq_lut_value N N) = 255.
Proof.
  intros HN. unfold eq_lut_value. destruct (Z.eqb_spec N 0); [lia|].
  rewrite (js_round_comp _ (inject_Z 255)).
  - rewrite js_round_of_Z. reflexivity.
  - change (inject_Z (256 - 1)) with 255%Q. field. intros C. unfold Qeq in C. simpl in C. lia.
Qed.

Lemma lut_at_spike T v N :
  0 <= v <= 255 ->
  u8_clamp (lut_get (createLUT T (spike v N)) (Some v)) = u8_clamp (eq_lut_value N T).
Proof.
  intros Hv. rewrite createLUT_spike by exact Hv. simpl lut_get.
  rewrite ta_get_tab by lia. rewrite Z2Nat.id by lia.
  rewrite Z.geb_leb, Z.leb_refl. apply u8_clamp_byte. apply u8_clamp_range.
Qed.

Lemma uniform_nth img j :
  uniform_colour img -> (j < length (data img))%nat -> Z.of_nat j mod 4 < 3 ->
  nth j (data img) 0 = nth (j mod 4) (data img) 0.
Proof.
  intros Hu Hj Hc.
  destruct (nth_lookup_or_length (data img) j 0) as [E|]; [|lia].
  apply Hu in E; [|exact Hc].
  destruct (nth_lookup_or_length (data img) (j mod 4) 0) as [E2|E2]; [congruence|].
  pose proof (Nat.Div0.mod_le j 4). lia.
Qed.

(** C9: on a non-empty image in which every pixel has the same colour,
    [applyEqualization] sends every colour sample to one common value
    (namely 255: each channel histogram is a single spike, whose
    cumulative share at that value is all of the pixels). *)
Theorem applyEqualization_uniform (img : ImageData) :
  wf_image img -> 0 < width img -> 0 < height img -> uniform_colour img ->
  exists s, s = 255 /\
    forall j v, Z.of_nat j mod 4 < 3 -> data (applyEqualization img) !! j = Some v -> v = s.
Proof.
  intros Hwf Hw Hh Hu. exists 255. split; [reflexivity|].
  intros j v Hc Hj.
  pose proof Hwf as (_ & _ & Hlen & Hr).
  unfold applyEqualization in Hj. rewrite (eq_histograms_uniform img Hwf Hu) in Hj.
  cbv beta iota zeta in Hj. cbn [data] in Hj.
  rewrite step4_update_rgb, lookup_tab in Hj.
  destruct (Nat.ltb_spec j (length (data img))) as [Hlt|]; [|discriminate].
  injection Hj as <-.
  assert (HN : 0 < width img * height img) by nia.
  pose proof (uniform_nth img j Hu Hlt Hc) as Ej.
  pose proof (nat_mod4_of_Z j) as Mj.
  unfold rgb_tab. rewrite Ej.
  mod4_cases j; try lia.
  - assert (M : (j mod 4 = 0)%nat) by lia. rewrite M.
    rewrite lut_at_spike by (apply nth_in_range; [assumption | lia]).
    apply eq_lut_value_full. exact HN.
  - assert (M : (j mod 4 = 1)%nat) by lia. rewrite M.
    rewrite lut_at_spike by (apply nth_in_range; [assumption | lia]).
    apply eq_lut_value_full. exact HN.
  - assert (M : (j mod 4 = 2)%nat) by lia. rewrite M.
    rewrite lut_at_spike by (apply nth_in_range; [assumption | lia]).
    apply eq_lut_value_full. exact HN.
Qed.

Lemma applyEqualization_uniform_witness :
  (wf_image (mkImageData 1 1 [10; 20; 30; 255]) /\ uniform_colour (mkImageData 1 1 [10; 20; 30; 255])) /\
  exists s, s = 255 /\
    forall j v, Z.of_nat j mod 4 < 3 ->
      data (applyEqualization (mkImageData 1 1 [10; 20; 30; 255])) !! j = Some v -> v = s.
Proof.
  assert (H : wf_image (mkImageData 1 1 [10; 20; 30; 255]))
    by (unfold wf_image; simpl; repeat split; try lia; repeat constructor; lia).
  assert (U : uniform_colour (mkImageData 1 1 [10; 20; 30; 255])).
  { intros j v Hc Hj. destruct j as [|[|[|[|j]]]]; simpl in *; try exact Hj; try discriminate; lia. }
  split; [split; assumption|].
  apply (applyEqualization_uniform _ H); [simpl; lia | simpl; lia | exact U].
Defined.

(** Convolution. *)

Lemma for_loop_ext {S : Type} (b1 b2 : Z -> S -> S) k i s :
  (forall j t, b1 j t = b2 j t) -> for_loop k i b1 s = for_loop k i b2 s.
Proof.
  intros H. revert i s. induction k as [|k IH]; intros i s; simpl; [reflexivity|].
  rewrite H. apply IH.
Qed.

Lemma Qsum_snoc l a : (Qsum (l ++ [a]) == Qsum l + a)%Q.
Proof.
  induction l as [|b l IH]; simpl.
  - ring.
  - rewrite IH. ring.
Qed.

Lemma Qsum_map_seq_succ (f : nat -> Q) k :
  (Qsum (map f (seq 0 (Datatypes.S k))) == Qsum (map f (seq 0 k)) + f k)%Q.
Proof. rewrite seq_S, map_app. simpl map. apply Qsum_snoc. Qed.

Lemma applyConvolution_data img kernel :
  wf_image img ->
  data (applyConvolution img kernel) =
  tab (Z.to_nat (width img * height img * 4))
    (pixel_tab (width img)
       (fun x y => js_roundQ (fst (fst (conv_sums img kernel x y))))
       (fun x y => js_roundQ (snd (fst (conv_sums img kernel x y))))
       (fun x y => js_roundQ (snd (conv_sums img kernel x y)))
       (fun x y => ta_get (data img) ((y * width img + x) * 4 + 3))).
Proof.
  intros (Hw & Hh & Hl & _). unfold applyConvolution. cbn [data]. rewrite Hl.
  rewrite <- pixel_loop by assumption.
  unfold for_range. apply for_loop_ext. intros y r. apply for_loop_ext. intros x r'.
  destruct (conv_sums img kernel x y) as [[a b] d]. reflexivity.
Qed.

Lemma square_row kernel i :
  square_kernel kernel -> (i < length kernel)%nat -> length (nth i kernel []) = length kernel.
Proof.
  intros Hs Hi. unfold square_kernel in Hs. rewrite List.Forall_forall in Hs.
  apply Hs. apply nth_In. exact Hi.
Qed.

Lemma kernel_at_in kernel ky kx :
  square_kernel kernel -> 0 <= ky < Z.of_nat (length kernel) -> 0 <= kx < Z.of_nat (length kernel) ->
  kernel_at kernel ky kx = Some (nth (Z.to_nat kx) (nth (Z.to_nat ky) kernel []) 0%Q).
Proof.
  intros Hs Hy Hx. unfold kernel_at, js_index.
  destruct (Z.ltb_spec ky 0); [lia|]. destruct (Z.ltb_spec kx 0); [lia|].
  destruct (nth_lookup_or_length kernel (Z.to_nat ky) []) as [E|]; [|lia].
  rewrite E. simpl.
  pose proof (square_row kernel (Z.to_nat ky) Hs ltac:(lia)).
  destruct (nth_lookup_or_length (nth (Z.to_nat ky) kernel []) (Z.to_nat kx) 0%Q); [assumption|lia].
Qed.

Lemma conv_sample_get img c x y px py :
  wf_image img -> 0 <= x < width img -> 0 <= y < height img -> 0 <= c < 3 ->
  ta_get (data img) ((Z.max 0 (Z.min (height img - 1) py) * width img +
                      Z.max 0 (Z.min (width img - 1) px)) * 4 + c) =
  Some (conv_sample img c px py).
Proof.
  intros (Hw & Hh & Hl & _) Hx Hy Hc. unfold conv_sample.
  rewrite ta_get_in; [reflexivity|].
  rewrite Hl. split; [nia|].
  assert (0 <= Z.max 0 (Z.min (height img - 1) py) <= height img - 1) by lia.
  assert (0 <= Z.max 0 (Z.min (width img - 1) px) <= width img - 1) by lia.
  nia.
Qed.

Lemma conv_cell_step img kernel x y ky kx a b d :
  wf_image img -> square_kernel kernel ->
  0 <= x < width img -> 0 <= y < height img ->
  0 <= ky < Z.of_nat (length kernel) -> 0 <= kx < Z.of_nat (length kernel) ->
  let kc := Z.of_nat (length kernel) / 2 in
  let w := nth (Z.to_nat kx) (nth (Z.to_nat ky) kernel []) 0%Q in
  conv_cell img kernel kc x y ky kx (Some a, Some b, Some d) =
  (Some (a + inject_Z (conv_sample img 0 (x + kx - kc) (y + ky - kc)) * w)%Q,
   Some (b + inject_Z (conv_sample img 1 (x + kx - kc) (y + ky - kc)) * w)%Q,
   Some (d + inject_Z (conv_sample img 2 (x + kx - kc) (y + ky - kc)) * w)%Q).
Proof.
  intros Hwf Hs Hx Hy Hky Hkx kc w. unfold conv_cell.
  rewrite kernel_at_in by assumption.
  set (idx := (Z.max 0 (Z.min (height img - 1) (y + ky - kc)) * width img +
                Z.max 0 (Z.min (width img - 1) (x + kx - kc))) * 4).
  assert (G0 : ta_get (data img) idx = Some (conv_sample img 0 (x + kx - kc) (y + ky - kc))).
  { rewrite <- (conv_sample_get img 0 x y) by (assumption || lia). unfold idx. f_equal. lia. }
  rewrite G0. unfold idx. rewrite !(conv_sample_get img _ x y) by (assumption || lia).
  reflexivity.
Qed.


Lemma conv_row img kernel x y ky a b d :
  wf_image img -> square_kernel kernel ->
  0 <= x < width img -> 0 <= y < height img -> 0 <= ky < Z.of_nat (length kernel) ->
  exists a' b' d',
    for_range 0 (Z.of_nat (length kernel))
      (fun kx sums => conv_cell img kernel (Z.of_nat (length kernel) / 2) x y ky kx sums)
      (Some a, Some b, Some d) = (Some a', Some b', Some d') /\
    (a' == a + Qsum (map (conv_term img kernel 0 x y (Z.to_nat ky)) (seq 0 (length kernel))))%Q /\
    (b' == b + Qsum (map (conv_term img kernel 1 x y (Z.to_nat ky)) (seq 0 (length kernel))))%Q /\
    (d' == d + Qsum (map (conv_term img kernel 2 x y (Z.to_nat ky)) (seq 0 (length kernel))))%Q.
Proof.
  intros Hwf Hs Hx Hy Hky. unfold for_range.
  set (K := Z.to_nat (Z.of_nat (length kernel) - 0)).
  assert (HK : length kernel = Z.to_nat (0 + Z.of_nat K)) by (unfold K; lia).
  pose proof (for_loop_inv
    (fun kx (s : option Q * option Q * option Q) => exists a' b' d',
       s = (Some a', Some b', Some d') /\
       (a' == a + Qsum (map (conv_term img kernel 0 x y (Z.to_nat ky)) (seq 0 (Z.to_nat kx))))%Q /\
       (b' == b + Qsum (map (conv_term img kernel 1 x y (Z.to_nat ky)) (seq 0 (Z.to_nat kx))))%Q /\
       (d' == d + Qsum (map (conv_term img kernel 2 x y (Z.to_nat ky)) (seq 0 (Z.to_nat kx))))%Q)
    (fun kx sums => conv_cell img kernel (Z.of_nat (length kernel) / 2) x y ky kx sums)
    K 0 (Some a, Some b, Some d)) as G.
  cbv beta in G. rewrite <- HK in G. apply G; clear G.
  - exists a, b, d. split; [reflexivity|]. simpl. split; [|split]; ring.
  - intros kx s Hkx (a' & b' & d' & -> & Ha & Hb & Hd).
    rewrite conv_cell_step by (assumption || lia).
    eexists _, _, _. split; [reflexivity|].
    replace (Z.to_nat (kx + 1)) with (Datatypes.S (Z.to_nat kx)) by lia.
    rewrite !Qsum_map_seq_succ. unfold conv_term at 2 4 6.
    rewrite !Z2Nat.id by lia.
    rewrite Ha, Hb, Hd. split; [|split]; ring.
Qed.

Lemma conv_sums_spec img kernel x y :
  wf_image img -> square_kernel kernel ->
  0 <= x < width img -> 0 <= y < height img ->
  exists A B D,
    conv_sums img kernel x y = (Some A, Some B, Some D) /\
    (A == conv_spec_sum img kernel 0 x y)%Q /\
    (B == conv_spec_sum img kernel 1 x y)%Q /\
    (D == conv_spec_sum img kernel 2 x y)%Q.
Proof.
  intros Hwf Hs Hx Hy. unfold conv_sums, conv_spec_sum. cbv zeta.
  unfold for_range at 1.
  set (K := Z.to_nat (Z.of_nat (length kernel) - 0)).
  assert (HK : length kernel = Z.to_nat (0 + Z.of_nat K)) by (unfold K; lia).
  pose proof (for_loop_inv
    (fun ky (s : option Q * option Q * option Q) => exists A B D,
       s = (Some A, Some B, Some D) /\
       (A == Qsum (map (fun i => Qsum (map (fun j => conv_term img kernel 0 x y i j) (seq 0 (length kernel))))
                     (seq 0 (Z.to_nat ky))))%Q /\
       (B == Qsum (map (fun i => Qsum (map (fun j => conv_term img kernel 1 x y i j) (seq 0 (length kernel))))
                     (seq 0 (Z.to_nat ky))))%Q /\
       (D == Qsum (map (fun i => Qsum (map (fun j => conv_term img kernel 2 x y i j) (seq 0 (length kernel))))
                     (seq 0 (Z.to_nat ky))))%Q)
    (fun ky sums => for_range 0 (Z.of_nat (length kernel))
       (fun kx sums => conv_cell img kernel (Z.of_nat (length kernel) / 2) x y ky kx sums) sums)
    K 0 (Some 0%Q, Some 0%Q, Some 0%Q)) as G.
  cbv beta in G. rewrite <- HK in G. apply G; clear G.
  - exists 0%Q, 0%Q, 0%Q. split; [reflexivity|]. simpl. split; [|split]; reflexivity.
  - intros ky s Hky (A & B & D & -> & HA & HB & HD).
    destruct (conv_row img kernel x y ky A B D) as (a' & b' & d' & E & Ha & Hb & Hd);
      try (assumption || lia).
    rewrite E. eexists _, _, _. split; [reflexivity|].
    replace (Z.to_nat (ky + 1)) with (Datatypes.S (Z.to_nat ky)) by lia.
    rewrite !Qsum_map_seq_succ.
    rewrite Ha, Hb, Hd, HA, HB, HD. split; [|split]; reflexivity.
Qed.



(** Fourier transform. *)

Lemma pow2_land n : 0 < n -> (Z.land n (n - 1) = 0 <-> is_pow2 n).
Proof.
  intros Hn. split.
  - intros H0. exists (Z.log2 n). split; [apply Z.log2_nonneg|].
    destruct (Z.log2_spec n Hn) as [Hlo Hhi].
    destruct (Z.eq_dec n (2 ^ Z.log2 n)) as [E|Ne]; [exact E|exfalso].
    assert (L : Z.log2 (n - 1) = Z.log2 n).
    { apply Z.log2_unique; [apply Z.log2_nonneg|]. lia. }
    assert (B1 : Z.testbit n (Z.log2 n) = true) by (apply Z.bit_log2; lia).
    assert (B2 : Z.testbit (n - 1) (Z.log2 n) = true)
      by (rewrite <- L; apply Z.bit_log2; pose proof (Z.pow_pos_nonneg 2 (Z.log2 n) ltac:(lia) (Z.log2_nonneg n)); lia).
    pose proof (Z.land_spec n (n - 1) (Z.log2 n)) as S.
    rewrite H0, Z.testbit_0_l, B1, B2 in S. discriminate.
  - intros (k & Hk & ->).
    replace (2 ^ k - 1) with (Z.ones k) by (rewrite Z.ones_equiv; lia).
    rewrite Z.land_ones by exact Hk. apply Z.mod_same.
    pose proof (Z.pow_pos_nonneg 2 k ltac:(lia) Hk). lia.
Qed.

Lemma to_int32_small z : 0 <= z < 2 ^ 31 -> to_int32 z = z.
Proof.
  intros H. unfold to_int32. rewrite Z.mod_small by lia.
  destruct (Z.ltb_spec z (2 ^ 31)); lia.
Qed.

Lemma to_int32_high z : 2 ^ 31 <= z < 2 ^ 32 -> to_int32 z = z - 2 ^ 32.
Proof.
  intros H. unfold to_int32. rewrite Z.mod_small by lia.
  destruct (Z.ltb_spec z (2 ^ 31)); lia.
Qed.

Lemma js_band_pow2 n : is_pow2 n -> 1 < n -> js_band n (n - 1) = 0.
Proof.
  intros (k & Hk & ->) H1.
  destruct (Z.lt_ge_cases k 31) as [Hs|Hs].
  - assert (2 ^ k < 2 ^ 31) by (apply Z.pow_lt_mono_r; lia).
    unfold js_band. rewrite !to_int32_small by lia.
    apply pow2_land; [lia | exists k; split; [exact Hk | reflexivity]].
  - destruct (Z.eq_dec k 31) as [->|Hne]; [reflexivity|].
    unfold js_band.
    assert (M : to_int32 (2 ^ k) = 0).
    { unfold to_int32.
      replace (2 ^ k) with (2 ^ (k - 32) * 2 ^ 32)
        by (rewrite <- Z.pow_add_r by lia; f_equal; lia).
      rewrite Z.mod_mul by lia. reflexivity. }
    rewrite M. apply Z.land_0_l.
Qed.

Lemma js_band_iff n : 1 < n < 2 ^ 32 -> (js_band n (n - 1) = 0 <-> is_pow2 n).
Proof.
  intros Hn. split; [|intros P; apply js_band_pow2; [exact P | lia]].
  intros H0.
  destruct (Z.lt_ge_cases n (2 ^ 31)) as [Hs|Hs].
  - unfold js_band in H0. rewrite !to_int32_small in H0 by lia.
    apply pow2_land; [lia | exact H0].
  - destruct (Z.eq_dec n (2 ^ 31)) as [->|Hne]; [exists 31; split; [lia | reflexivity]|].
    exfalso. unfold js_band in H0. rewrite !to_int32_high in H0 by lia.
    assert (Neg : ~ (0 <= Z.land (n - 2 ^ 32) (n - 1 - 2 ^ 32))).
    { rewrite Z.land_nonneg. lia. }
    apply Neg. rewrite H0. lia.
Qed.

Lemma length_zrange m : length (zrange m) = Z.to_nat m.
Proof. unfold zrange. rewrite length_map, length_seq. reflexivity. Qed.

Lemma pow2_half n : is_pow2 n -> 1 < n -> is_pow2 (n / 2) /\ n = 2 * (n / 2).
Proof.
  intros (k & Hk & ->) H1.
  destruct (Z.eq_dec k 0) as [->|Hk0]; [simpl in H1; lia|].
  replace (2 ^ k) with (2 * 2 ^ (k - 1)) by (rewrite <- Z.pow_succ_r by lia; f_equal; lia).
  rewrite Z.mul_comm, Z.div_mul by lia. split; [exists (k - 1); split; [lia | reflexivity] | lia].
Qed.

Lemma nextPowerOf2_shape n : 0 <= n ->
  0 <= nextPowerOf2 n /\ (nextPowerOf2 n = 0 \/ is_pow2 (nextPowerOf2 n)) /\
  (0 < n -> is_pow2 (nextPowerOf2 n)).
Proof.
  intros Hn. unfold nextPowerOf2.
  destruct (Z.eqb_spec n 0) as [->|Hne].
  - split; [lia|]. split; [left; reflexivity | lia].
  - assert (P : is_pow2 (2 ^ Z.log2_up n)) by (exists (Z.log2_up n); split; [apply Z.log2_up_nonneg | reflexivity]).
    split; [apply Z.pow_nonneg; lia|]. split; [right; exact P | intros; exact P].
Qed.

Lemma for_loop_normal {A : Type} (body : Z -> completion A -> completion A) k i a :
  (forall j x, exists y, body j (Normal x) = Normal y) ->
  exists b, for_loop k i body (Normal a) = Normal b.
Proof.
  intros Hb. revert i a. induction k as [|k IH]; intros i a; simpl; [eexists; reflexivity|].
  destruct (Hb i a) as (y & Ey). rewrite Ey. apply IH.
Qed.

Section FFTProofs.
Context {C : Type} `{ComplexOps C}.

Lemma split_even_odd_length_le n (d : list C) :
  (length d <= n)%nat ->
  length d = (length (fst (split_even_odd d)) + length (snd (split_even_odd d)))%nat /\
  (length (snd (split_even_odd d)) <= length (fst (split_even_odd d)) <= length (snd (split_even_odd d)) + 1)%nat.
Proof.
  revert d. induction n as [|n IH]; intros d Hd.
  - destruct d; simpl in *; lia.
  - destruct d as [|a [|b rest]]; simpl; try lia.
    simpl in Hd. destruct (IH rest ltac:(lia)) as [E1 E2].
    destruct (split_even_odd rest) as [e o]. simpl in *. lia.
Qed.

Lemma split_even_odd_length (d : list C) :
  length d = (length (fst (split_even_odd d)) + length (snd (split_even_odd d)))%nat /\
  (length (snd (split_even_odd d)) <= length (fst (split_even_odd d)) <= length (snd (split_even_odd d)) + 1)%nat.
Proof. apply (split_even_odd_length_le (length d)). lia. Qed.

Lemma fft_combine_length n (e o : list C) :
  length (fft_combine n e o) = (2 * Z.to_nat (n / 2))%nat.
Proof. unfold fft_combine. rewrite length_app, !length_map, length_zrange. lia. Qed.

Lemma fft1D_run_normal fuel (d : list C) :
  (length d = 0%nat \/ is_pow2 (Z.of_nat (length d))) ->
  exists r, fft1D_run fuel d = Normal r /\ length r = length d.
Proof.
  revert d. induction fuel as [|fuel IH]; intros d Hd; simpl.
  - exists d. split; reflexivity.
  - destruct (Z.leb_spec (Z.of_nat (length d)) 1) as [Hle|Hgt].
    + exists d. split; reflexivity.
    + destruct Hd as [Hd|Hp]; [lia|].
      rewrite js_band_pow2 by (assumption || lia). cbn [Z.eqb negb].
      destruct (pow2_half _ Hp Hgt) as [Hp2 Heven].
      pose proof (split_even_odd_length d) as [L1 L2].
      destruct (split_even_odd d) as [even odd]. cbn [fst snd] in L1, L2.
      assert (Le : Z.of_nat (length even) = Z.of_nat (length d) / 2) by lia.
      assert (Lo : Z.of_nat (length odd) = Z.of_nat (length d) / 2) by lia.
      destruct (IH even) as (re & Ee & Lre); [right; rewrite Le; exact Hp2|].
      destruct (IH odd) as (ro & Eo & Lro); [right; rewrite Lo; exact Hp2|].
      rewrite Ee. cbn [cbind]. rewrite Eo. cbn [cbind].
      eexists. split; [reflexivity|]. rewrite fft_combine_length. lia.
Qed.

Lemma fft1D_normal (d : list C) :
  (length d = 0%nat \/ is_pow2 (Z.of_nat (length d))) ->
  exists r, fft1D d = Normal r /\ length r = length d.
Proof. apply fft1D_run_normal. Qed.


Lemma fft1D_run_throw f (d : list C) :
  1 < Z.of_nat (length d) < 2 ^ 32 -> ~ is_pow2 (Z.of_nat (length d)) ->
  fft1D_run (Datatypes.S f) d = Throw fft_length_error.
Proof.
  intros Hn Hp. simpl.
  destruct (Z.leb_spec (Z.of_nat (length d)) 1); [lia|].
  destruct (Z.eqb_spec (js_band (Z.of_nat (length d)) (Z.of_nat (length d) - 1)) 0) as [E|E].
  - exfalso. apply Hp. apply js_band_iff; assumption.
  - reflexivity.
Qed.

Lemma fft1D_throw (d : list C) :
  1 < Z.of_nat (length d) < 2 ^ 32 -> ~ is_pow2 (Z.of_nat (length d)) ->
  fft1D d = Throw fft_length_error.
Proof.
  intros Hn Hp. unfold fft1D.
  replace (fft1D_run (length d) d) with (fft1D_run (Datatypes.S (Nat.pred (length d))) d)
    by (f_equal; lia).
  apply fft1D_run_throw; assumption.
Qed.

Lemma pow2_or_zero_length (p : Z) (l : list C) :
  0 <= p -> (p = 0 \/ is_pow2 p) -> length l = Z.to_nat p ->
  length l = 0%nat \/ is_pow2 (Z.of_nat (length l)).
Proof.
  intros Hp [->|P] Hl; [left; exact Hl|].
  right. rewrite Hl, Z2Nat.id by exact Hp. exact P.
Qed.

Lemma fft_rows_normal (m : list (list C)) :
  Forall (fun row => length row = 0%nat \/ is_pow2 (Z.of_nat (length row))) m ->
  exists m', fft_rows m = Normal m'.
Proof.
  induction m as [|row rest IH]; intros Hm; simpl; [eexists; reflexivity|].
  inversion Hm as [|? ? Hrow Hrest]; subst.
  destruct (fft1D_normal row Hrow) as (r & Er & _). rewrite Er. cbn [cbind].
  destruct (IH Hrest) as (m' & Em). rewrite Em. cbn [cbind]. eexists; reflexivity.
Qed.

Lemma fft_column_normal (p j : Z) (m : list (list C)) :
  0 <= p -> (p = 0 \/ is_pow2 p) -> exists m', fft_column p j m = Normal m'.
Proof.
  intros Hp Pp. unfold fft_column.
  destruct (fft1D_normal (map (fun i => nth (Z.to_nat j) (nth (Z.to_nat i) m []) (complex (Some 0%Q)))
                             (zrange p))) as (r & Er & _).
  { apply (pow2_or_zero_length p); [exact Hp | exact Pp |].
    rewrite length_map, length_zrange. reflexivity. }
  rewrite Er. cbn [cbind]. eexists; reflexivity.
Qed.


Lemma fft2D_normal (matrix : list (list Q)) :
  matrix <> [] -> exists M, fft2D matrix = (Normal M : completion (list (list C))).
Proof.
  intros Hne. destruct matrix as [|row0 rest]; [contradiction|].
  unfold fft2D. cbv beta iota zeta.
  set (rows := Z.of_nat (length (row0 :: rest))).
  set (pR := nextPowerOf2 rows).
  set (pC := nextPowerOf2 (Z.of_nat (length row0))).
  destruct (nextPowerOf2_shape rows ltac:(unfold rows; lia)) as (HR0 & HR & _).
  destruct (nextPowerOf2_shape (Z.of_nat (length row0)) ltac:(lia)) as (HC0 & HC & _).
  fold pR in HR0, HR. fold pC in HC0, HC.
  edestruct fft_rows_normal as (m' & Em); [|rewrite Em; cbn [cbind]].
  - apply List.Forall_forall. intros row Hin. apply in_map_iff in Hin.
    destruct Hin as (i & <- & _).
    apply (pow2_or_zero_length pC); [exact HC0 | exact HC |].
    rewrite length_map, length_zrange. reflexivity.
  - unfold for_range. apply for_loop_normal. intros j x. cbn [cbind].
    apply fft_column_normal; assumption.
Qed.


(** C8: [fft1D] throws exactly when the length of its input (an array, so
    shorter than 2^32) is greater than 1 and not a power of two, and the
    error it throws is then the power-of-two error; [fft2D], which pads
    both dimensions to [nextPowerOf2], never throws that error (and on a
    non-empty matrix it does not throw at all). *)
Theorem fft1D_power_of_two_only (d : list C) (matrix : list (list Q)) :
  Z.of_nat (length d) < 2 ^ 32 ->
  ((exists e, fft1D d = Throw e) <->
     1 < Z.of_nat (length d) /\ ~ is_pow2 (Z.of_nat (length d))) /\
  (forall e, fft1D d = Throw e -> e = fft_length_error) /\
  fft2D matrix <> (Throw fft_length_error : completion (list (list C))) /\
  (matrix <> [] -> exists M, fft2D matrix = (Normal M : completion (list (list C)))).
Proof.
  intros Hlen.
  assert (Iff : (exists e, fft1D d = Throw e) <->
                1 < Z.of_nat (length d) /\ ~ is_pow2 (Z.of_nat (length d))).
  { split.
    - intros (e & Ee).
      destruct (Z.le_gt_cases (Z.of_nat (length d)) 1) as [Hle|Hgt].
      + exfalso.
        destruct (fft1D_normal d) as (r & Er & _).
        { destruct (length d) as [|[|k]] eqn:L; [left; reflexivity | right; exists 0; split; [lia | reflexivity] | lia]. }
        congruence.
      + split; [exact Hgt|]. intros P.
        destruct (fft1D_normal d (or_intror P)) as (r & Er & _). congruence.
    - intros [Hgt Hp]. exists fft_length_error. apply fft1D_throw; [lia | exact Hp]. }
  split; [exact Iff|]. split; [|split].
  - intros e Ee.
    destruct (proj1 Iff (ex_intro _ e Ee)) as [Hgt Hp].
    rewrite fft1D_throw in Ee by (lia || exact Hp). congruence.
  - destruct matrix as [|row0 rest].
    + simpl. discriminate.
    + destruct (fft2D_normal (row0 :: rest)) as (M & EM); [discriminate|].
      rewrite EM. discriminate.
  - apply fft2D_normal.
Qed.

End FFTProofs.

Lemma fft1D_power_of_two_only_witness :
  Z.of_nat (length [1; 2; 3]%Q) < 2 ^ 32 /\
  ((exists e, @fft1D Q Q_ops [1; 2; 3]%Q = Throw e) <->
     1 < Z.of_nat (length [1; 2; 3]%Q) /\ ~ is_pow2 (Z.of_nat (length [1; 2; 3]%Q))).
Proof.
  assert (H : Z.of_nat (length [1; 2; 3]%Q) < 2 ^ 32) by (simpl; lia).
  split; [exact H|].
  apply (proj1 (@fft1D_power_of_two_only Q Q_ops [1; 2; 3]%Q [[1; 2; 3]]%Q H)).
Defined.

(** Custom formulas. *)

Module CustomFiltersProofs.
Import CustomFilters.
Local Open Scope string_scope.

(** C7: [evaluateFormula] always completes normally (no exception reaches
    its caller), and whenever its [try] block throws, whatever the
    formula, the context or the cause, the result is the context's [r]. *)
Theorem evaluateFormula_never_throws `{JsEngine} (formula : string) (context : FormulaContext) :
  (exists v, evaluateFormula formula context = Normal v) /\
  (forall e, evaluateFormula_body formula context = Throw e ->
     evaluateFormula formula context = Normal (JNum (inject_Z (r context)))).
Proof.
  unfold evaluateFormula, try_catch. split.
  - destruct (evaluateFormula_body formula context) as [v|e].
    + exists v. reflexivity.
    + exists (JNum (inject_Z (r context))). reflexivity.
  - intros e E. rewrite E. reflexivity.
Qed.

Lemma evaluateFormula_never_throws_witness :
  @evaluateFormula_body syntax_error_engine "255 - r" (mkFormulaContext 7 0 0 0 0 1 1) =
    Throw (JsError "SyntaxError") /\
  @evaluateFormula syntax_error_engine "255 - r" (mkFormulaContext 7 0 0 0 0 1 1) =
    Normal (JNum (inject_Z 7)).
Proof.
  assert (E : @evaluateFormula_body syntax_error_engine "255 - r" (mkFormulaContext 7 0 0 0 0 1 1) =
              Throw (JsError "SyntaxError")) by reflexivity.
  split; [exact E|].
  apply (proj2 (@evaluateFormula_never_throws syntax_error_engine "255 - r" (mkFormulaContext 7 0 0 0 0 1 1))
           (JsError "SyntaxError") E).
Defined.

(** C6 (divergence): [applyCustomFormula] builds the green channel's
    formula with [formula.replace(/r/g, 'g')], which also rewrites the
    letter r inside function names: [floor(r/2)] becomes [floog(g/2)].
    JavaScript throws a ReferenceError when it calls that body
    ([floog] is not defined), so the green channel receives the fallback
    [context.g] instead of [floor(g/2)]. *)
Theorem applyCustomFormula_floor_green `{JsEngine} (context : FormulaContext) (e : js_error) :
  evaluateFormula_body "floog(g/2)"
    (mkFormulaContext (g context) (g context) (b context) (x context) (y context) (w context) (h context))
    = Throw e ->
  replace_all "r" "g" "floor(r/2)" = "floog(g/2)" /\
  channel_call "floor(r/2)" context 1 = Normal (JNum (inject_Z (g context))).
Proof.
  intros Hthrow.
  assert (R : replace_all "r" "g" "floor(r/2)" = "floog(g/2)") by reflexivity.
  split; [exact R|].
  unfold channel_call. rewrite R. unfold evaluateFormula, try_catch. rewrite Hthrow. reflexivity.
Qed.

Lemma applyCustomFormula_floor_green_witness :
  @evaluateFormula_body syntax_error_engine "floog(g/2)" (mkFormulaContext 64 64 0 0 0 1 1) =
    Throw (JsError "SyntaxError") /\
  @channel_call syntax_error_engine "floor(r/2)" (mkFormulaContext 0 64 0 0 0 1 1) 1 =
    Normal (JNum (inject_Z 64)).
Proof.
  assert (E : @evaluateFormula_body syntax_error_engine "floog(g/2)" (mkFormulaContext 64 64 0 0 0 1 1) =
              Throw (JsError "SyntaxError")) by reflexivity.
  split; [exact E|].
  apply (proj2 (@applyCustomFormula_floor_green syntax_error_engine (mkFormulaContext 0 64 0 0 0 1 1)
           (JsError "SyntaxError") E)).
Defined.

End CustomFiltersProofs.

(** *** Closing and the order between the morphological operators *)

Lemma dilate_ge_center f x y : f x y <= dilate f x y.
Proof.
  unfold dilate. eapply Z.le_trans; [|apply fold_max_ge_elem; exact center_in_se_cells].
  unfold at_cell; simpl. replace (x + 1 - 1) with x by lia. replace (y + 1 - 1) with y by lia. lia.
Qed.

(** Closing on the plane, with the intermediate dilation cut off outside
    the image as the typed array does. *)
Lemma erode_mask_dilate_erode (h : Z -> Z -> Z) (ins : Z -> Z -> bool) x y :
  bounded h -> (forall a b, ins a b = false -> h a b = 0) ->
  erode (fun a b => if ins a b then dilate (erode h) a b else 0) x y = erode h x y.
Proof.
  intros Hb Hout. apply Z.le_antisymm.
  - apply erode_mono. intros a b. destruct (ins a b).
    + apply dilate_erode_le. exact Hb.
    + pose proof (Hb a b). lia.
  - unfold erode at 2. apply fold_min_glb; [apply erode_range; exact Hb|].
    intros c Hc. unfold at_cell.
    destruct (ins (x + fst c - 1) (y + snd c - 1)) eqn:E.
    + unfold dilate.
      eapply Z.le_trans; [|apply fold_max_ge_elem; apply se_cells_mirror; exact Hc].
      unfold at_cell; simpl.
      replace (x + fst c - 1 + (2 - fst c) - 1) with x by lia.
      replace (y + snd c - 1 + (2 - snd c) - 1) with y by lia. lia.
    + rewrite <- (Hout _ _ E). unfold erode.
      pose proof (fold_min_le_elem (at_cell h x y) se_cells 255 c Hc) as L.
      exact L.
Qed.

Lemma applyClosing_wf img : wf_image img -> wf_image (applyClosing img).
Proof. intros Hwf. apply applyErosion_wf, applyDilation_wf, Hwf. Qed.

Lemma ext_red_closing img px py :
  wf_image img -> ext_red (applyClosing img) px py = erode (ext_red (applyDilation img)) px py.
Proof. intros Hwf. apply ext_red_erosion, applyDilation_wf, Hwf. Qed.

Lemma closing_lookup img x y c :
  wf_image img -> 0 <= x < width img -> 0 <= y < height img -> 0 <= c < 4 ->
  data (applyClosing img) !! Z.to_nat ((y * width img + x) * 4 + c) =
  if c =? 3 then data img !! Z.to_nat ((y * width img + x) * 4 + c)
  else Some (erode (ext_red (applyDilation img)) x y).
Proof.
  intros Hwf Hx Hy Hc. unfold applyClosing.
  pose proof (erosion_lookup (applyDilation img) x y c (applyDilation_wf img Hwf) Hx Hy Hc) as L.
  change (width (applyDilation img)) with (width img) in L.
  rewrite L.
  rewrite (dilation_lookup img x y c Hwf Hx Hy Hc).
  destruct (c =? 3); reflexivity.
Qed.

Lemma ext_red_zero_outside img a b :
  ((0 <=? a) && (a <? width img) && (0 <=? b) && (b <? height img)) = false -> ext_red img a b = 0.
Proof. intros E. unfold ext_red. rewrite E. reflexivity. Qed.

(** Helpers of the concrete instances below. *)
Ltac wf_solve := unfold wf_image; simpl; repeat split; try lia; repeat constructor; lia.

Lemma uniform_1x1 (r g b a : Z) : uniform_colour (mkImageData 1 1 [r; g; b; a]).
Proof.
  intros j v _ Hj. pose proof (lookup_lt_Some _ _ _ Hj) as L. simpl in L.
  rewrite Nat.mod_small by lia. exact Hj.
Qed.

(** X1: Closing (erosion of the dilation) is idempotent on every well-formed
    image. *)
Theorem applyClosing_idempotent (img : ImageData) :
  wf_image img -> applyClosing (applyClosing img) = applyClosing img.
Proof.
  intros Hwf.
  pose proof (applyClosing_wf img Hwf) as Hwf1.
  pose proof (applyDilation_wf img Hwf) as HwD.
  apply image_ext.
  - apply applyClosing_wf. exact Hwf1.
  - exact Hwf1.
  - reflexivity.
  - reflexivity.
  - intros x y c Hx Hy Hc.
    change (width (applyClosing (applyClosing img))) with (width img) in *.
    change (height (applyClosing (applyClosing img))) with (height img) in *.
    pose proof (closing_lookup (applyClosing img) x y c Hwf1 Hx Hy Hc) as L.
    change (width (applyClosing img)) with (width img) in L.
    rewrite L.
    rewrite (closing_lookup img x y c Hwf Hx Hy Hc).
    destruct (c =? 3); [reflexivity|].
    f_equal.
    rewrite <- (erode_mask_dilate_erode (ext_red (applyDilation img))
                 (fun a b => (0 <=? a) && (a <? width img) && (0 <=? b) && (b <? height img)) x y
                 (ext_red_bounded _ HwD) (ext_red_zero_outside (applyDilation img))).
    apply erode_ext. intros a b.
    rewrite (ext_red_dilation (applyClosing img) a b Hwf1).
    change (width (applyClosing img)) with (width img).
    change (height (applyClosing img)) with (height img).
    destruct ((0 <=? a) && (a <? width img) && (0 <=? b) && (b <? height img)); [|reflexivity].
    apply dilate_ext. intros a' b'. apply ext_red_closing. exact Hwf.
Qed.

Lemma applyClosing_idempotent_witness :
  wf_image (mkImageData 1 1 [10; 20; 30; 255]) /\
  applyClosing (applyClosing (mkImageData 1 1 [10; 20; 30; 255])) =
  applyClosing (mkImageData 1 1 [10; 20; 30; 255]).
Proof.
  assert (H : wf_image (mkImageData 1 1 [10; 20; 30; 255])) by wf_solve.
  split; [exact H|]. apply (applyClosing_idempotent _ H).
Defined.

Lemma ext_red_in img x y :
  0 <= x < width img -> 0 <= y < height img ->
  ext_red img x y = nth (Z.to_nat ((y * width img + x) * 4)) (data img) 0.
Proof. intros Hx Hy. unfold ext_red. zbool; lia. Qed.

Lemma red_lookup img x y :
  wf_image img -> 0 <= x < width img -> 0 <= y < height img ->
  data img !! Z.to_nat ((y * width img + x) * 4) = Some (ext_red img x y).
Proof.
  intros (Hw & Hh & Hl & _) Hx Hy. rewrite ext_red_in by assumption.
  destruct (nth_lookup_or_length (data img) (Z.to_nat ((y * width img + x) * 4)) 0); [assumption|nia].
Qed.

(** X2: Erosion never brightens and dilation never darkens: at every pixel,
    the colour samples that erosion writes are at most the source red
    sample, and those dilation writes are at least it. *)
Theorem applyErosion_le_applyDilation (img : ImageData) :
  wf_image img ->
  forall x y c, 0 <= x < width img -> 0 <= y < height img -> 0 <= c < 3 ->
  exists e r d,
    data (applyErosion img) !! Z.to_nat ((y * width img + x) * 4 + c) = Some e /\
    data img !! Z.to_nat ((y * width img + x) * 4) = Some r /\
    data (applyDilation img) !! Z.to_nat ((y * width img + x) * 4 + c) = Some d /\
    e <= r <= d.
Proof.
  intros Hwf x y c Hx Hy Hc.
  exists (erode (ext_red img) x y), (ext_red img x y), (dilate (ext_red img) x y).
  rewrite erosion_lookup, dilation_lookup by (assumption || lia).
  destruct (Z.eqb_spec c 3); [lia|].
  split; [reflexivity|]. split; [apply red_lookup; assumption|]. split; [reflexivity|].
  split; [apply erode_le_center | apply dilate_ge_center].
Qed.

Lemma applyErosion_le_applyDilation_witness :
  wf_image (mkImageData 1 1 [10; 20; 30; 255]) /\
  exists e r d,
    data (applyErosion (mkImageData 1 1 [10; 20; 30; 255])) !! Z.to_nat ((0 * 1 + 0) * 4 + 0) = Some e /\
    data (mkImageData 1 1 [10; 20; 30; 255]) !! Z.to_nat ((0 * 1 + 0) * 4) = Some r /\
    data (applyDilation (mkImageData 1 1 [10; 20; 30; 255])) !! Z.to_nat ((0 * 1 + 0) * 4 + 0) = Some d /\
    e <= r <= d.
Proof.
  assert (H : wf_image (mkImageData 1 1 [10; 20; 30; 255])) by wf_solve.
  split; [exact H|]. apply (applyErosion_le_applyDilation _ H 0 0 0); cbn; lia.
Defined.

(** X3: Opening never brightens a pixel: each colour sample it writes is at
    most the source red sample. *)
Theorem applyOpening_anti_extensive (img : ImageData) :
  wf_image img ->
  forall x y c, 0 <= x < width img -> 0 <= y < height img -> 0 <= c < 3 ->
  exists o r,
    data (applyOpening img) !! Z.to_nat ((y * width img + x) * 4 + c) = Some o /\
    data img !! Z.to_nat ((y * width img + x) * 4) = Some r /\ o <= r.
Proof.
  intros Hwf x y c Hx Hy Hc.
  exists (dilate (erode (ext_red img)) x y), (ext_red img x y).
  rewrite opening_lookup by (assumption || lia).
  destruct (Z.eqb_spec c 3); [lia|].
  split; [reflexivity|]. split; [apply red_lookup; assumption|].
  apply dilate_erode_le, ext_red_bounded, Hwf.
Qed.

Lemma applyOpening_anti_extensive_witness :
  wf_image (mkImageData 1 1 [10; 20; 30; 255]) /\
  exists o r,
    data (applyOpening (mkImageData 1 1 [10; 20; 30; 255])) !! Z.to_nat ((0 * 1 + 0) * 4 + 1) = Some o /\
    data (mkImageData 1 1 [10; 20; 30; 255]) !! Z.to_nat ((0 * 1 + 0) * 4) = Some r /\ o <= r.
Proof.
  assert (H : wf_image (mkImageData 1 1 [10; 20; 30; 255])) by wf_solve.
  split; [exact H|]. apply (applyOpening_anti_extensive _ H 0 0 1); cbn; lia.
Defined.

(** X4: Closing writes 0 to the colour samples of every pixel whose 3x3
    footprint leaves the image, and never darkens any other pixel. *)
Theorem applyClosing_border_and_interior (img : ImageData) :
  wf_image img ->
  forall x y c, 0 <= x < width img -> 0 <= y < height img -> 0 <= c < 3 ->
  exists v r,
    data (applyClosing img) !! Z.to_nat ((y * width img + x) * 4 + c) = Some v /\
    data img !! Z.to_nat ((y * width img + x) * 4) = Some r /\
    (if (1 <=? x) && (x + 1 <? width img) && (1 <=? y) && (y + 1 <? height img)
     then r <= v else v = 0).
Proof.
  intros Hwf x y c Hx Hy Hc.
  exists (erode (ext_red (applyDilation img)) x y), (ext_red img x y).
  rewrite closing_lookup by (assumption || lia).
  destruct (Z.eqb_spec c 3); [lia|].
  split; [reflexivity|]. split; [apply red_lookup; assumption|].
  pose proof (applyDilation_wf img Hwf) as HwD.
  pose proof (erode_range _ x y (ext_red_bounded _ HwD)).
  destruct ((1 <=? x) && (x + 1 <? width img) && (1 <=? y) && (y + 1 <? height img)) eqn:E.
  - repeat rewrite andb_true_iff in E. rewrite !Z.leb_le, !Z.ltb_lt in E.
    unfold erode. apply fold_min_glb; [apply ext_red_range; exact Hwf|].
    intros cell Hcell. unfold at_cell.
    pose proof (List.Forall_forall cell_ok se_cells) as [F _].
    destruct (F se_cells_ok cell Hcell) as [H1 H2].
    rewrite ext_red_dilation by exact Hwf.
    zbool; try lia.
    unfold dilate.
    eapply Z.le_trans; [|apply fold_max_ge_elem; apply se_cells_mirror; exact Hcell].
    unfold at_cell; simpl.
    replace (x + fst cell - 1 + (2 - fst cell) - 1) with x by lia.
    replace (y + snd cell - 1 + (2 - snd cell) - 1) with y by lia. lia.
  - assert (Hc0 : exists cell, In cell se_cells /\ at_cell (ext_red (applyDilation img)) x y cell = 0).
    { unfold at_cell, se_cells.
      assert (Ho : x - 1 < 0 \/ x + 1 >= width img \/ y - 1 < 0 \/ y + 1 >= height img).
      { destruct (Z.leb_spec 1 x); destruct (Z.ltb_spec (x + 1) (width img));
        destruct (Z.leb_spec 1 y); destruct (Z.ltb_spec (y + 1) (height img));
        simpl in E; try discriminate; lia. }
      destruct Ho as [Ho|[Ho|[Ho|Ho]]].
      - exists (0, 1). simpl. split; [tauto|]. apply ext_red_outside. simpl. lia.
      - exists (2, 1). simpl. split; [tauto|]. apply ext_red_outside. simpl. lia.
      - exists (1, 0). simpl. split; [tauto|]. apply ext_red_outside. simpl. lia.
      - exists (1, 2). simpl. split; [tauto|]. apply ext_red_outside. simpl. lia. }
    destruct Hc0 as (cell & Hin & H0).
    pose proof (fold_min_le_elem (at_cell (ext_red (applyDilation img)) x y) se_cells 255 cell Hin).
    unfold erode in *. lia.
Qed.

Lemma applyClosing_border_and_interior_witness :
  wf_image (mkImageData 1 1 [10; 20; 30; 255]) /\
  exists v r,
    data (applyClosing (mkImageData 1 1 [10; 20; 30; 255])) !! Z.to_nat ((0 * 1 + 0) * 4 + 2) = Some v /\
    data (mkImageData 1 1 [10; 20; 30; 255]) !! Z.to_nat ((0 * 1 + 0) * 4) = Some r /\
    (if (1 <=? 0) && (0 + 1 <? 1) && (1 <=? 0) && (0 + 1 <? 1) then r <= v else v = 0).
Proof.
  assert (H : wf_image (mkImageData 1 1 [10; 20; 30; 255])) by wf_solve.
  split; [exact H|]. apply (applyClosing_border_and_interior _ H 0 0 2); cbn; lia.
Defined.

Section FoldChoice.
Variable g : Z * Z -> Z.

Lemma fold_min_choice l m :
  fold_left (fun m c => Z.min m (g c)) l m = m \/
  exists c, In c l /\ fold_left (fun m c => Z.min m (g c)) l m = g c.
Proof.
  revert m. induction l as [|c l IH]; intros m; simpl; [left; reflexivity|].
  destruct (IH (Z.min m (g c))) as [E|(c' & Hc' & E)].
  - rewrite E. destruct (Z.min_spec m (g c)) as [[_ ->]|[_ ->]].
    + left. reflexivity.
    + right. exists c. tauto.
  - right. exists c'. tauto.
Qed.

Lemma fold_max_choice l m :
  fold_left (fun m c => Z.max m (g c)) l m = m \/
  exists c, In c l /\ fold_left (fun m c => Z.max m (g c)) l m = g c.
Proof.
  revert m. induction l as [|c l IH]; intros m; simpl; [left; reflexivity|].
  destruct (IH (Z.max m (g c))) as [E|(c' & Hc' & E)].
  - rewrite E. destruct (Z.max_spec m (g c)) as [[_ ->]|[_ ->]].
    + right. exists c. tauto.
    + left. reflexivity.
  - right. exists c'. tauto.
Qed.

End FoldChoice.

Lemma ext_red_binary img a b :
  wf_image img -> binary_image img -> black_or_white (ext_red img a b).
Proof.
  intros (Hw & Hh & Hl & _) Hb. unfold ext_red, black_or_white.
  destruct ((0 <=? a) && (a <? width img) && (0 <=? b) && (b <? height img)) eqn:E; [|left; reflexivity].
  repeat rewrite andb_true_iff in E. rewrite !Z.leb_le, !Z.ltb_lt in E.
  destruct (nth_lookup_or_length (data img) (Z.to_nat ((b * width img + a) * 4)) 0) as [L|]; [|nia].
  apply (Hb _ _ L). rewrite Z2Nat.id by nia. rewrite Z.mul_comm, Z.mul_comm, Z.mod_mul by lia. lia.
Qed.

Lemma erode_binary f x y : (forall a b, black_or_white (f a b)) -> black_or_white (erode f x y).
Proof.
  intros Hf. unfold erode.
  destruct (fold_min_choice (at_cell f x y) se_cells 255) as [E|(c & _ & E)]; rewrite E.
  - right. reflexivity.
  - apply Hf.
Qed.

Lemma dilate_binary f x y : (forall a b, black_or_white (f a b)) -> black_or_white (dilate f x y).
Proof.
  intros Hf. unfold dilate.
  destruct (fold_max_choice (at_cell f x y) se_cells 0) as [E|(c & _ & E)]; rewrite E.
  - left. reflexivity.
  - apply Hf.
Qed.

(** Every cell of a well-formed buffer is a channel of a pixel. *)
Lemma pixel_of_index img (j : nat) :
  wf_image img -> (j < length (data img))%nat ->
  exists x y c, 0 <= x < width img /\ 0 <= y < height img /\ 0 <= c < 4 /\
    j = Z.to_nat ((y * width img + x) * 4 + c) /\ c = Z.of_nat j mod 4.
Proof.
  intros (Hw & Hh & Ha & _) Hj.
  assert (Hw0 : 0 < width img) by nia.
  set (p := Z.of_nat j / 4).
  assert (Hp : 0 <= p < width img * height img)
    by (unfold p; split; [apply Z.div_pos; lia | apply Z.div_lt_upper_bound; lia]).
  pose proof (Z.div_mod (Z.of_nat j) 4 ltac:(lia)) as Dj.
  pose proof (Z.mod_pos_bound (Z.of_nat j) 4 ltac:(lia)) as Bj.
  pose proof (Z.div_mod p (width img) ltac:(lia)) as Dp.
  pose proof (Z.mod_pos_bound p (width img) ltac:(lia)) as Bp.
  assert (Hy : 0 <= p / width img < height img)
    by (split; [apply Z.div_pos; lia | apply Z.div_lt_upper_bound; lia]).
  exists (p mod width img), (p / width img), (Z.of_nat j mod 4).
  repeat split; lia.
Qed.

Lemma binary_of_pixels img :
  wf_image img ->
  (forall x y c, 0 <= x < width img -> 0 <= y < height img -> 0 <= c < 3 ->
     exists v, data img !! Z.to_nat ((y * width img + x) * 4 + c) = Some v /\ black_or_white v) ->
  binary_image img.
Proof.
  intros Hwf Hpix j v Hj Hc.
  assert (Hlt : (j < length (data img))%nat) by (apply lookup_lt_Some in Hj; exact Hj).
  destruct (pixel_of_index img j Hwf Hlt) as (x & y & c & Hx & Hy & Hc4 & -> & Ec).
  destruct (Hpix x y c Hx Hy ltac:(lia)) as (v' & E & Hv). rewrite Hj in E. injection E as <-. exact Hv.
Qed.

Lemma erosion_binary img :
  wf_image img -> binary_image img -> binary_image (applyErosion img).
Proof.
  intros Hwf Hb. apply binary_of_pixels; [apply applyErosion_wf; exact Hwf|].
  intros x y c Hx Hy Hc; cbn [width height applyErosion] in *.
  exists (erode (ext_red img) x y). rewrite erosion_lookup by (assumption || lia).
  destruct (Z.eqb_spec c 3); [lia|]. split; [reflexivity|].
  apply erode_binary. intros a b. apply ext_red_binary; assumption.
Qed.

Lemma dilation_binary img :
  wf_image img -> binary_image img -> binary_image (applyDilation img).
Proof.
  intros Hwf Hb. apply binary_of_pixels; [apply applyDilation_wf; exact Hwf|].
  intros x y c Hx Hy Hc; cbn [width height applyDilation] in *.
  exists (dilate (ext_red img) x y). rewrite dilation_lookup by (assumption || lia).
  destruct (Z.eqb_spec c 3); [lia|]. split; [reflexivity|].
  apply dilate_binary. intros a b. apply ext_red_binary; assumption.
Qed.

(** X5: Erosion and dilation map binary images to binary images. *)
Theorem morphology_preserves_binary (img : ImageData) :
  wf_image img -> binary_image img ->
  binary_image (applyErosion img) /\ binary_image (applyDilation img).
Proof.
  intros Hwf Hb. split; [apply erosion_binary | apply dilation_binary]; assumption.
Qed.

Lemma morphology_preserves_binary_witness :
  (wf_image (mkImageData 1 1 [255; 0; 255; 255]) /\ binary_image (mkImageData 1 1 [255; 0; 255; 255])) /\
  binary_image (applyErosion (mkImageData 1 1 [255; 0; 255; 255])) /\
  binary_image (applyDilation (mkImageData 1 1 [255; 0; 255; 255])).
Proof.
  assert (H : wf_image (mkImageData 1 1 [255; 0; 255; 255])) by wf_solve.
  assert (B : binary_image (mkImageData 1 1 [255; 0; 255; 255])).
  { intros j v Hj _. destruct j as [|[|[|[|j]]]]; simpl in Hj;
      try (injection Hj as <-; lia); discriminate. }
  split; [split; assumption|]. apply (morphology_preserves_binary _ H B).
Defined.

(** *** Filters that fill a fresh buffer four samples at a time *)

Lemma step4_tab_lookup n V0 V1 V2 V3 (p c : Z) :
  0 <= p -> 0 <= c < 4 -> 4 * p + c < n ->
  tab (Z.to_nat n) (step4_tab V0 V1 V2 V3) !! Z.to_nat (4 * p + c) =
  Some (u8_clamp (match c with 0 => V0 (4 * p) | 1 => V1 (4 * p) | 2 => V2 (4 * p) | _ => V3 (4 * p) end)).
Proof.
  intros Hp Hc Hn. rewrite lookup_tab.
  destruct (Nat.ltb_spec (Z.to_nat (4 * p + c)) (Z.to_nat n)); [|lia].
  f_equal. unfold step4_tab. rewrite Z2Nat.id by lia.
  assert (M : (4 * p + c) mod 4 = c)
    by (rewrite Z.add_comm, Z.mul_comm, Z.mod_add by lia; apply Z.mod_small; lia).
  rewrite M. replace (4 * p + c - c) with (4 * p) by lia.
  destruct (Z.eq_dec c 0) as [->|]; [reflexivity|].
  destruct (Z.eq_dec c 1) as [->|]; [reflexivity|].
  destruct (Z.eq_dec c 2) as [->|]; [reflexivity|].
  assert (c = 3) as -> by lia. reflexivity.
Qed.

Lemma step4_tab_in_range n V0 V1 V2 V3 :
  samples_in_range (tab n (step4_tab V0 V1 V2 V3)).
Proof.
  unfold samples_in_range. apply Forall_lookup. intros j x Hj.
  rewrite lookup_tab in Hj. destruct (Nat.ltb_spec j n); [|discriminate].
  injection Hj as <-. unfold step4_tab.
  destruct (Z.of_nat j mod 4) as [|[[ | | ]|[ | | ]| ]|]; apply u8_clamp_range.
Qed.

Lemma step4_wf w h l V0 V1 V2 V3 :
  wf_image (mkImageData w h l) ->
  wf_image (mkImageData w h (tab (Z.to_nat (Z.of_nat (length l))) (step4_tab V0 V1 V2 V3))).
Proof.
  intros (Hw & Hh & Hl & _). cbn [width height data] in *.
  unfold wf_image. cbn [width height data]. rewrite length_tab, Nat2Z.id.
  repeat split; try lia. apply step4_tab_in_range.
Qed.

Lemma pixel_as_block w x y c : (y * w + x) * 4 + c = 4 * (y * w + x) + c.
Proof. lia. Qed.

Lemma sample_get img x y c :
  wf_image img -> 0 <= x < width img -> 0 <= y < height img -> 0 <= c < 4 ->
  ta_get (data img) ((y * width img + x) * 4 + c) =
  Some (nth (Z.to_nat ((y * width img + x) * 4 + c)) (data img) 0).
Proof. intros (Hw & Hh & Hl & _) Hx Hy Hc. apply ta_get_in. nia. Qed.

Lemma sample_range img x y c :
  wf_image img -> 0 <= x < width img -> 0 <= y < height img -> 0 <= c < 4 ->
  0 <= nth (Z.to_nat ((y * width img + x) * 4 + c)) (data img) 0 <= 255.
Proof. intros (Hw & Hh & Hl & Hr) Hx Hy Hc. apply nth_in_range; [exact Hr | nia]. Qed.

Lemma alpha_get img x y :
  wf_image img -> 0 <= x < width img -> 0 <= y < height img ->
  Some (u8_clamp (ta_get (data img) (4 * (y * width img + x) + 3))) =
  data img !! Z.to_nat ((y * width img + x) * 4 + 3).
Proof.
  intros Hwf Hx Hy. rewrite <- pixel_as_block. apply alpha_passthrough; assumption.
Qed.

(** *** Threshold *)

Lemma applyThreshold_data img t :
  data (applyThreshold img t) =
  tab (length (data img))
    (step4_tab (fun i => threshold_value t (gray_at (data img) i))
               (fun i => threshold_value t (gray_at (data img) i))
               (fun i => threshold_value t (gray_at (data img) i))
               (fun i => ta_get (data img) (i + 3))).
Proof.
  unfold applyThreshold. cbn [data].
  etransitivity; [exact (step4_write (Z.of_nat (length (data img)))
    (fun i => threshold_value t (gray_at (data img) i))
    (fun i => threshold_value t (gray_at (data img) i))
    (fun i => threshold_value t (gray_at (data img) i))
    (fun i => ta_get (data img) (i + 3)) (Nat2Z.is_nonneg _))|].
  rewrite Nat2Z.id. reflexivity.
Qed.

Lemma gray_at_pixel img x y :
  wf_image img -> 0 <= x < width img -> 0 <= y < height img ->
  let p := (y * width img + x) * 4 in
  gray_at (data img) (4 * (y * width img + x)) =
  Some ((299 # 1000) * inject_Z (nth (Z.to_nat p) (data img) 0%Z) +
        (587 # 1000) * inject_Z (nth (Z.to_nat (p + 1)) (data img) 0%Z) +
        (114 # 1000) * inject_Z (nth (Z.to_nat (p + 2)) (data img) 0%Z))%Q.
Proof.
  intros Hwf Hx Hy p. unfold gray_at.
  replace (4 * (y * width img + x)) with ((y * width img + x) * 4 + 0) by lia.
  replace ((y * width img + x) * 4 + 0 + 1) with ((y * width img + x) * 4 + 1) by lia.
  replace ((y * width img + x) * 4 + 0 + 2) with ((y * width img + x) * 4 + 2) by lia.
  rewrite !sample_get by (assumption || lia). rewrite Z.add_0_r. reflexivity.
Qed.

Lemma applyThreshold_wf img t : wf_image img -> wf_image (applyThreshold img t).
Proof.
  intros Hwf. destruct img as [w h l]. unfold applyThreshold. cbn [data width height].
  rewrite step4_write by lia. apply step4_wf. exact Hwf.
Qed.

Lemma applyThreshold_is_binary img t : binary_image (applyThreshold img t).
Proof.
  intros j v Hj Hc. rewrite applyThreshold_data, lookup_tab in Hj.
  destruct (Nat.ltb_spec j (length (data img))); [|discriminate].
  injection Hj as <-. unfold step4_tab.
  mod4_cases j; try lia; unfold threshold_value;
    destruct (gray_at _ _) as [g|]; try destruct (Qle_bool _ g); simpl;
    (left; reflexivity) || (right; reflexivity).
Qed.



(** X7: Raising the threshold never turns a black sample white: every sample
    of [applyThreshold img t2] is at most the same sample of
    [applyThreshold img t1] when [t1 <= t2]. *)
Theorem applyThreshold_antitone (img : ImageData) (t1 t2 : Q) :
  (t1 <= t2)%Q ->
  forall j v1 v2,
    data (applyThreshold img t1) !! j = Some v1 ->
    data (applyThreshold img t2) !! j = Some v2 -> v2 <= v1.
Proof.
  intros Ht j v1 v2 H1 H2.
  rewrite applyThreshold_data, lookup_tab in H1, H2.
  destruct (Nat.ltb_spec j (length (data img))); [|discriminate].
  injection H1 as <-. injection H2 as <-. unfold step4_tab.
  assert (Hv : forall g, u8_clamp (threshold_value t2 g) <= u8_clamp (threshold_value t1 g)).
  { intros [g|]; simpl; [|lia].
    destruct (Qle_bool t2 g) eqn:E2; destruct (Qle_bool t1 g) eqn:E1; simpl; try lia.
    apply Qle_bool_iff in E2. apply (Qle_trans _ _ _ Ht) in E2.
    apply Qle_bool_iff in E2. congruence. }
  mod4_cases j; try apply Hv. lia.
Qed.

Lemma applyThreshold_antitone_witness :
  (100 <= 250)%Q /\
  data (applyThreshold (mkImageData 1 1 [200; 200; 200; 255]) 100) !! 0%nat = Some 255 /\
  data (applyThreshold (mkImageData 1 1 [200; 200; 200; 255]) 250) !! 0%nat = Some 0 /\
  0 <= 255.
Proof.
  assert (T : (100 <= 250)%Q) by (unfold Qle; simpl; lia).
  assert (E1 : data (applyThreshold (mkImageData 1 1 [200; 200; 200; 255]) 100) !! 0%nat = Some 255)
    by (vm_compute; reflexivity).
  assert (E2 : data (applyThreshold (mkImageData 1 1 [200; 200; 200; 255]) 250) !! 0%nat = Some 0)
    by (vm_compute; reflexivity).
  split; [exact T|]. split; [exact E1|]. split; [exact E2|].
  apply (applyThreshold_antitone _ 100 250 T 0%nat 255 0 E1 E2).
Defined.

(** *** Threshold followed by morphology *)

(** X8: The worker's binary-morphology filters threshold first and then apply
    the operator: each of the four results is a well-formed binary image. *)
Theorem thresholded_morphology_binary (img : ImageData) (t : Q) :
  wf_image img ->
  let b := applyThreshold img t in
  (wf_image (applyErosion b) /\ binary_image (applyErosion b)) /\
  (wf_image (applyDilation b) /\ binary_image (applyDilation b)) /\
  (wf_image (applyOpening b) /\ binary_image (applyOpening b)) /\
  (wf_image (applyClosing b) /\ binary_image (applyClosing b)).
Proof.
  intros Hwf b.
  assert (Hb : wf_image b) by (apply applyThreshold_wf; exact Hwf).
  assert (Hbb : binary_image b) by apply applyThreshold_is_binary.
  split; [split|split; [split|split; [split|split]]].
  - apply applyErosion_wf; exact Hb.
  - apply erosion_binary; assumption.
  - apply applyDilation_wf; exact Hb.
  - apply dilation_binary; assumption.
  - apply applyOpening_wf; exact Hb.
  - apply dilation_binary; [apply applyErosion_wf; exact Hb|].
    apply erosion_binary; assumption.
  - apply applyClosing_wf; exact Hb.
  - apply erosion_binary; [apply applyDilation_wf; exact Hb|].
    apply dilation_binary; assumption.
Qed.

Lemma thresholded_morphology_binary_witness :
  wf_image (mkImageData 1 1 [10; 20; 30; 255]) /\
  wf_image (applyClosing (applyThreshold (mkImageData 1 1 [10; 20; 30; 255]) 100)) /\
  binary_image (applyClosing (applyThreshold (mkImageData 1 1 [10; 20; 30; 255]) 100)).
Proof.
  assert (H : wf_image (mkImageData 1 1 [10; 20; 30; 255])) by wf_solve.
  split; [exact H|].
  apply (proj2 (proj2 (proj2 (thresholded_morphology_binary _ 100 H)))).
Defined.

(** *** Grayscale *)

Lemma applyGrayscale_data img :
  data (applyGrayscale img) =
  tab (length (data img))
    (step4_tab (fun i => js_roundQ (gray_at (data img) i))
               (fun i => js_roundQ (gray_at (data img) i))
               (fun i => js_roundQ (gray_at (data img) i))
               (fun i => ta_get (data img) (i + 3))).
Proof.
  unfold applyGrayscale. cbn [data].
  etransitivity; [exact (step4_write (Z.of_nat (length (data img)))
    (fun i => js_roundQ (gray_at (data img) i))
    (fun i => js_roundQ (gray_at (data img) i))
    (fun i => js_roundQ (gray_at (data img) i))
    (fun i => ta_get (data img) (i + 3)) (Nat2Z.is_nonneg _))|].
  rewrite Nat2Z.id. reflexivity.
Qed.

Lemma applyGrayscale_wf img : wf_image img -> wf_image (applyGrayscale img).
Proof.
  intros Hwf. destruct img as [w h l]. unfold applyGrayscale. cbn [data width height].
  rewrite step4_write by lia. apply step4_wf. exact Hwf.
Qed.

Lemma inject_Z_range v : 0 <= v <= 255 -> (0 <= inject_Z v <= 255)%Q.
Proof.
  intros [H0 H1]. split.
  - change 0%Q with (inject_Z 0). rewrite <- Zle_Qle. exact H0.
  - change 255%Q with (inject_Z 255). rewrite <- Zle_Qle. exact H1.
Qed.

Lemma js_round_range (q : Q) : (0 <= q <= 255)%Q -> 0 <= js_round q <= 255.
Proof.
  intros [H0 H1]. split.
  - rewrite <- (js_round_of_Z 0). apply js_round_mono. exact H0.
  - rewrite <- (js_round_of_Z 255). apply js_round_mono. exact H1.
Qed.

Lemma luma_range r g b :
  0 <= r <= 255 -> 0 <= g <= 255 -> 0 <= b <= 255 -> (0 <= luma r g b <= 255)%Q.
Proof.
  intros Hr Hg Hb. apply inject_Z_range in Hr, Hg, Hb. unfold luma. lra.
Qed.

Lemma luma_diag v : js_round (luma v v v) = v.
Proof.
  transitivity (js_round (inject_Z v)); [|apply js_round_of_Z].
  apply js_round_comp. unfold luma. ring.
Qed.

Lemma grayscale_lookup img x y c :
  wf_image img -> 0 <= x < width img -> 0 <= y < height img -> 0 <= c < 4 ->
  let p := (y * width img + x) * 4 in
  data (applyGrayscale img) !! Z.to_nat (p + c) =
  if c =? 3 then data img !! Z.to_nat (p + c)
  else Some (js_round (luma (nth (Z.to_nat p) (data img) 0)
                            (nth (Z.to_nat (p + 1)) (data img) 0)
                            (nth (Z.to_nat (p + 2)) (data img) 0))).
Proof.
  intros Hwf Hx Hy Hc p. pose proof Hwf as (Hw & Hh & Hl & _).
  rewrite applyGrayscale_data. unfold p. rewrite pixel_as_block.
  rewrite <- (Nat2Z.id (length (data img))).
  rewrite step4_tab_lookup by nia.
  assert (Hrange : 0 <= js_round (luma (nth (Z.to_nat ((y * width img + x) * 4)) (data img) 0)
                            (nth (Z.to_nat ((y * width img + x) * 4 + 1)) (data img) 0)
                            (nth (Z.to_nat ((y * width img + x) * 4 + 2)) (data img) 0)) <= 255).
  { apply js_round_range, luma_range.
    - pose proof (sample_range img x y 0 Hwf Hx Hy ltac:(lia)) as R. rewrite Z.add_0_r in R. exact R.
    - apply sample_range; (assumption || lia).
    - apply sample_range; (assumption || lia). }
  assert (Ec : c = 0 \/ c = 1 \/ c = 2 \/ c = 3) by lia.
  destruct Ec as [ -> | [ -> | [ -> | -> ]]]; cbn [Z.eqb];
    [ | | | cbv [Pos.eqb]; rewrite <- !pixel_as_block; apply alpha_passthrough; assumption ];
    rewrite gray_at_pixel by assumption; cbv zeta; cbn [js_roundQ option_map u8_clamp];
    f_equal; unfold luma in *; lia.
Qed.

Lemma sample_nth_lookup img x y c :
  wf_image img -> 0 <= x < width img -> 0 <= y < height img -> 0 <= c < 4 ->
  data img !! Z.to_nat ((y * width img + x) * 4 + c) =
  Some (nth (Z.to_nat ((y * width img + x) * 4 + c)) (data img) 0).
Proof.
  intros (Hw & Hh & Hl & _) Hx Hy Hc.
  destruct (nth_lookup_or_length (data img) (Z.to_nat ((y * width img + x) * 4 + c)) 0); [assumption|nia].
Qed.

Lemma grayscale_of_gray img :
  wf_image img -> gray_image img -> applyGrayscale img = img.
Proof.
  intros Hwf Hg. apply image_ext; [apply applyGrayscale_wf; exact Hwf | exact Hwf | reflexivity | reflexivity |].
  intros x y c Hx Hy Hc. cbn [width applyGrayscale].
  rewrite grayscale_lookup by assumption. cbv zeta.
  destruct (Z.eqb_spec c 3) as [->|Hc3]; [reflexivity|].
  destruct (Hg x y Hx Hy) as [E1 E2]. cbv zeta in E1, E2.
  pose proof (sample_nth_lookup img x y 0 Hwf Hx Hy ltac:(lia)) as L0.
  pose proof (sample_nth_lookup img x y 1 Hwf Hx Hy ltac:(lia)) as L1.
  pose proof (sample_nth_lookup img x y 2 Hwf Hx Hy ltac:(lia)) as L2.
  rewrite Z.add_0_r in L0.
  rewrite L0, L1 in E1. rewrite L1, L2 in E2. injection E1 as E1. injection E2 as E2.
  rewrite <- E2, <- E1, luma_diag.
  assert (Ec : c = 0 \/ c = 1 \/ c = 2) by lia.
  destruct Ec as [ -> | [ -> | -> ]].
  - rewrite Z.add_0_r, L0. reflexivity.
  - rewrite L1, E1. reflexivity.
  - rewrite L2, E1, E2. reflexivity.
Qed.

Lemma grayscale_is_gray img : wf_image img -> gray_image (applyGrayscale img).
Proof.
  intros Hwf x y Hx Hy p. cbn [width height applyGrayscale] in *.
  unfold p. rewrite <- (Z.add_0_r ((y * width img + x) * 4)) at 1.
  rewrite !grayscale_lookup by (assumption || lia). cbn [Z.eqb]. split; reflexivity.
Qed.

(** X9: A well-formed image is left unchanged by [applyGrayscale] exactly when
    it is already gray: every pixel has equal red, green and blue samples. *)
Theorem applyGrayscale_fixed_points (img : ImageData) :
  wf_image img -> (applyGrayscale img = img <-> gray_image img).
Proof.
  intros Hwf. split.
  - intros E. rewrite <- E. apply grayscale_is_gray. exact Hwf.
  - apply grayscale_of_gray. exact Hwf.
Qed.

Lemma applyGrayscale_fixed_points_witness :
  wf_image (mkImageData 1 1 [10; 20; 30; 255]) /\
  (applyGrayscale (mkImageData 1 1 [10; 20; 30; 255]) = mkImageData 1 1 [10; 20; 30; 255] <->
   gray_image (mkImageData 1 1 [10; 20; 30; 255])).
Proof.
  assert (H : wf_image (mkImageData 1 1 [10; 20; 30; 255])) by wf_solve.
  split; [exact H|]. apply (applyGrayscale_fixed_points _ H).
Defined.

(** X10: [applyGrayscale] is idempotent on well-formed images. *)
Theorem applyGrayscale_idempotent (img : ImageData) :
  wf_image img -> applyGrayscale (applyGrayscale img) = applyGrayscale img.
Proof.
  intros Hwf. apply grayscale_of_gray; [apply applyGrayscale_wf; exact Hwf|].
  apply grayscale_is_gray. exact Hwf.
Qed.

Lemma applyGrayscale_idempotent_witness :
  wf_image (mkImageData 1 1 [10; 20; 30; 255]) /\
  applyGrayscale (applyGrayscale (mkImageData 1 1 [10; 20; 30; 255])) =
  applyGrayscale (mkImageData 1 1 [10; 20; 30; 255]).
Proof.
  assert (H : wf_image (mkImageData 1 1 [10; 20; 30; 255])) by wf_solve.
  split; [exact H|]. apply (applyGrayscale_idempotent _ H).
Defined.

(** *** Sepia *)

Lemma applySepia_data img :
  let d := data img in
  let S kr kg kb i := sepia_channel kr kg kb (ta_get d i) (ta_get d (i + 1)) (ta_get d (i + 2)) in
  data (applySepia img) =
  tab (length d)
    (step4_tab (S (393 # 1000) (769 # 1000) (189 # 1000))
               (S (349 # 1000) (686 # 1000) (168 # 1000))
               (S (272 # 1000) (534 # 1000) (131 # 1000))
               (fun i => ta_get d (i + 3)))%Q.
Proof.
  intros d S. unfold applySepia. cbn [data].
  etransitivity; [exact (step4_write (Z.of_nat (length d))
    (S (393 # 1000) (769 # 1000) (189 # 1000))%Q
    (S (349 # 1000) (686 # 1000) (168 # 1000))%Q
    (S (272 # 1000) (534 # 1000) (131 # 1000))%Q
    (fun i => ta_get d (i + 3)) (Nat2Z.is_nonneg _))|].
  rewrite Nat2Z.id. reflexivity.
Qed.

Lemma applySepia_wf img : wf_image img -> wf_image (applySepia img).
Proof.
  intros Hwf. destruct img as [w h l]. unfold applySepia. cbn [data width height].
  rewrite step4_write by lia. apply step4_wf. exact Hwf.
Qed.

Lemma sepia_channel_some kr kg kb r g b :
  sepia_channel kr kg kb (Some r) (Some g) (Some b) =
  Some (Z.min 255 (js_round (kr * inject_Z r + kg * inject_Z g + kb * inject_Z b)%Q)).
Proof. reflexivity. Qed.

Lemma sepia_clamp_mono (a b : Q) :
  (a <= b)%Q ->
  u8_clamp (Some (Z.min 255 (js_round a))) <= u8_clamp (Some (Z.min 255 (js_round b))).
Proof. intros H. apply js_round_mono in H. cbn [u8_clamp]. lia. Qed.

Lemma sepia_sample img x y c :
  wf_image img -> 0 <= x < width img -> 0 <= y < height img -> 0 <= c < 3 ->
  let p := (y * width img + x) * 4 in
  let r := inject_Z (nth (Z.to_nat p) (data img) 0) in
  let g := inject_Z (nth (Z.to_nat (p + 1)) (data img) 0) in
  let b := inject_Z (nth (Z.to_nat (p + 2)) (data img) 0) in
  data (applySepia img) !! Z.to_nat (p + c) =
  Some (u8_clamp (Some (Z.min 255 (js_round
    (match c with
     | 0%Z => (393 # 1000) * r + (769 # 1000) * g + (189 # 1000) * b
     | 1%Z => (349 # 1000) * r + (686 # 1000) * g + (168 # 1000) * b
     | _ => (272 # 1000) * r + (534 # 1000) * g + (131 # 1000) * b
     end)%Q)))).
Proof.
  intros Hwf Hx Hy Hc p r g b. pose proof Hwf as (Hw & Hh & Hl & _).
  rewrite applySepia_data. cbv zeta. unfold p. rewrite pixel_as_block.
  rewrite <- (Nat2Z.id (length (data img))).
  rewrite step4_tab_lookup by nia.
  replace (4 * (y * width img + x)) with ((y * width img + x) * 4 + 0) by lia.
  replace ((y * width img + x) * 4 + 0 + 1) with ((y * width img + x) * 4 + 1) by lia.
  replace ((y * width img + x) * 4 + 0 + 2) with ((y * width img + x) * 4 + 2) by lia.
  rewrite !sample_get by (assumption || lia). rewrite !Z.add_0_r.
  assert (Ec : c = 0 \/ c = 1 \/ c = 2) by lia.
  destruct Ec as [ -> | [ -> | -> ]]; rewrite sepia_channel_some; reflexivity.
Qed.

Lemma sepia_order (r g b : Q) :
  (0 <= r -> 0 <= g -> 0 <= b ->
   (272 # 1000) * r + (534 # 1000) * g + (131 # 1000) * b <=
   (349 # 1000) * r + (686 # 1000) * g + (168 # 1000) * b /\
   (349 # 1000) * r + (686 # 1000) * g + (168 # 1000) * b <=
   (393 # 1000) * r + (769 # 1000) * g + (189 # 1000) * b)%Q.
Proof. intros. split; lra. Qed.

(** X11: Every pixel of [applySepia img] has its red sample at least its green
    sample and its green sample at least its blue sample: the rows of the
    sepia matrix are ordered entry by entry and the samples are
    non-negative. *)
Theorem applySepia_channel_order (img : ImageData) (x y : Z) :
  wf_image img -> 0 <= x < width img -> 0 <= y < height img ->
  let p := (y * width img + x) * 4 in
  exists r g b,
    data (applySepia img) !! Z.to_nat p = Some r /\
    data (applySepia img) !! Z.to_nat (p + 1) = Some g /\
    data (applySepia img) !! Z.to_nat (p + 2) = Some b /\
    b <= g <= r.
Proof.
  intros Hwf Hx Hy p.
  pose proof (sepia_sample img x y 0 Hwf Hx Hy ltac:(lia)) as S0.
  pose proof (sepia_sample img x y 1 Hwf Hx Hy ltac:(lia)) as S1.
  pose proof (sepia_sample img x y 2 Hwf Hx Hy ltac:(lia)) as S2.
  cbv zeta in S0, S1, S2. fold p in S0, S1, S2. rewrite Z.add_0_r in S0.
  eexists _, _, _. rewrite S0, S1, S2. split; [reflexivity|]. split; [reflexivity|].
  split; [reflexivity|].
  pose proof (sample_range img x y 0 Hwf Hx Hy ltac:(lia)) as R0. rewrite Z.add_0_r in R0.
  pose proof (sample_range img x y 1 Hwf Hx Hy ltac:(lia)) as R1.
  pose proof (sample_range img x y 2 Hwf Hx Hy ltac:(lia)) as R2.
  fold p in R0, R1, R2.
  apply inject_Z_range in R0, R1, R2.
  destruct (sepia_order (inject_Z (nth (Z.to_nat p) (data img) 0))
                        (inject_Z (nth (Z.to_nat (p + 1)) (data img) 0))
                        (inject_Z (nth (Z.to_nat (p + 2)) (data img) 0)))
    as [O1 O2]; try tauto.
  split; apply sepia_clamp_mono; assumption.
Qed.

Lemma applySepia_channel_order_witness :
  wf_image (mkImageData 1 1 [10; 20; 30; 255]) /\
  exists r g b,
    data (applySepia (mkImageData 1 1 [10; 20; 30; 255])) !! Z.to_nat ((0 * 1 + 0) * 4) = Some r /\
    data (applySepia (mkImageData 1 1 [10; 20; 30; 255])) !! Z.to_nat ((0 * 1 + 0) * 4 + 1) = Some g /\
    data (applySepia (mkImageData 1 1 [10; 20; 30; 255])) !! Z.to_nat ((0 * 1 + 0) * 4 + 2) = Some b /\
    b <= g <= r.
Proof.
  assert (H : wf_image (mkImageData 1 1 [10; 20; 30; 255])) by wf_solve.
  split; [exact H|]. apply (applySepia_channel_order _ 0 0 H); cbn; lia.
Defined.

(** *** Convolution of uniform images *)

Lemma convolution_lookup img kernel x y c :
  wf_image img -> square_kernel kernel ->
  0 <= x < width img -> 0 <= y < height img -> 0 <= c < 4 ->
  data (applyConvolution img kernel) !! Z.to_nat ((y * width img + x) * 4 + c) =
  if c =? 3 then data img !! Z.to_nat ((y * width img + x) * 4 + c)
  else Some (conv_spec img kernel c x y).
Proof.
  intros Hwf Hs Hx Hy Hc.
  rewrite applyConvolution_data by exact Hwf.
  rewrite tab_pixel_lookup by assumption.
  destruct (conv_sums_spec img kernel x y Hwf Hs Hx Hy) as (A & B & D & E & HA & HB & HD).
  rewrite E. unfold conv_spec.
  assert (Ec : c = 0 \/ c = 1 \/ c = 2 \/ c = 3) by lia.
  destruct Ec as [ -> | [ -> | [ -> | -> ]]]; cbn [fst snd js_roundQ option_map u8_clamp Z.eqb].
  - rewrite (js_round_comp _ _ HA). reflexivity.
  - rewrite (js_round_comp _ _ HB). reflexivity.
  - rewrite (js_round_comp _ _ HD). reflexivity.
  - apply alpha_passthrough; assumption.
Qed.

Lemma convolution_wf img kernel : wf_image img -> wf_image (applyConvolution img kernel).
Proof.
  intros Hwf. pose proof Hwf as (Hw & Hh & Hl & _).
  assert (E1 : width (applyConvolution img kernel) = width img) by reflexivity.
  assert (E2 : height (applyConvolution img kernel) = height img) by reflexivity.
  unfold wf_image. rewrite E1, E2, applyConvolution_data by exact Hwf.
  rewrite length_tab. split; [lia | split; [lia | split; [lia |]]]. apply pixel_tab_in_range.
Qed.

Lemma pixel_index_mod4 w x y c :
  0 <= w -> 0 <= x -> 0 <= y -> 0 <= c < 4 ->
  (Z.to_nat ((y * w + x) * 4 + c) mod 4 = Z.to_nat c)%nat.
Proof.
  intros Hw Hx Hy Hc. apply nat_mod4_eq; [lia|].
  exists (Z.to_nat (y * w + x)). nia.
Qed.

Lemma uniform_pixel img x y c :
  wf_image img -> uniform_colour img ->
  0 <= x < width img -> 0 <= y < height img -> 0 <= c < 3 ->
  nth (Z.to_nat ((y * width img + x) * 4 + c)) (data img) 0 = nth (Z.to_nat c) (data img) 0.
Proof.
  intros (Hw & Hh & Hl & _) Hu Hx Hy Hc.
  assert (M := pixel_index_mod4 (width img) x y c ltac:(lia) ltac:(lia) ltac:(lia) ltac:(lia)).
  rewrite uniform_nth; [rewrite M; reflexivity | assumption | nia |].
  rewrite Z2Nat.id by nia. rewrite Z.add_comm, Z.mod_add, Z.mod_small by lia. lia.
Qed.

Lemma conv_sample_uniform img c px py :
  wf_image img -> uniform_colour img -> 0 < width img -> 0 < height img -> 0 <= c < 3 ->
  conv_sample img c px py = nth (Z.to_nat c) (data img) 0.
Proof.
  intros Hwf Hu Hw Hh Hc. unfold conv_sample.
  apply uniform_pixel; (assumption || lia).
Qed.

Lemma Qsum_map_Qeq {A} (f g : A -> Q) l :
  (forall a, f a == g a)%Q -> (Qsum (map f l) == Qsum (map g l))%Q.
Proof.
  intros H. induction l as [|a l IH]; simpl; [reflexivity|]. rewrite H, IH. reflexivity.
Qed.

Lemma Qsum_map_scale {A} (f : A -> Q) (a : Q) l :
  (Qsum (map (fun x => f x * a) l) == Qsum (map f l) * a)%Q.
Proof. induction l as [|b l IH]; simpl; [ring|]. rewrite IH. ring. Qed.

Lemma conv_spec_sum_uniform img kernel c x y :
  wf_image img -> uniform_colour img -> 0 < width img -> 0 < height img -> 0 <= c < 3 ->
  (conv_spec_sum img kernel c x y ==
   kernel_sum kernel * inject_Z (nth (Z.to_nat c) (data img) 0%Z))%Q.
Proof.
  intros Hwf Hu Hw Hh Hc. unfold conv_spec_sum, kernel_sum, conv_term.
  rewrite <- Qsum_map_scale. apply Qsum_map_Qeq. intros i.
  rewrite <- Qsum_map_scale. apply Qsum_map_Qeq. intros j.
  rewrite conv_sample_uniform by assumption. reflexivity.
Qed.

Lemma conv_spec_uniform img kernel c x y :
  wf_image img -> uniform_colour img -> 0 < width img -> 0 < height img -> 0 <= c < 3 ->
  conv_spec img kernel c x y =
  Z.max 0 (Z.min 255 (js_round (kernel_sum kernel * inject_Z (nth (Z.to_nat c) (data img) 0%Z)))).
Proof.
  intros. unfold conv_spec. rewrite (js_round_comp _ _ (conv_spec_sum_uniform img kernel c x y H H0 H1 H2 H3)).
  reflexivity.
Qed.



(** A convolution whose weights sum to 1 leaves a uniform image unchanged. *)
Lemma convolution_unit_uniform img kernel :
  wf_image img -> 0 < width img -> 0 < height img -> uniform_colour img ->
  square_kernel kernel -> (kernel_sum kernel == 1)%Q ->
  applyConvolution img kernel = img.
Proof.
  intros Hwf Hw Hh Hu Hs H1.
  apply image_ext; [apply convolution_wf; exact Hwf | exact Hwf | reflexivity | reflexivity |].
  intros x y c Hx Hy Hc. cbn [width applyConvolution].
  rewrite convolution_lookup by assumption.
  destruct (Z.eqb_spec c 3); [reflexivity|].
  rewrite conv_spec_uniform by (assumption || lia).
  rewrite (js_round_comp _ (inject_Z (nth (Z.to_nat c) (data img) 0%Z))) by (rewrite H1; ring).
  rewrite js_round_of_Z, sample_nth_lookup, uniform_pixel by (assumption || lia).
  pose proof (sample_range img 0 0 c Hwf ltac:(lia) ltac:(lia) ltac:(lia)) as R.
  rewrite Z.mul_0_l, !Z.add_0_l in R. f_equal. lia.
Qed.

(** A convolution whose weights sum to 0 turns a uniform image black. *)
Lemma convolution_zero_uniform img kernel :
  wf_image img -> 0 < width img -> 0 < height img -> uniform_colour img ->
  square_kernel kernel -> (kernel_sum kernel == 0)%Q ->
  forall x y c, 0 <= x < width img -> 0 <= y < height img -> 0 <= c < 4 ->
    data (applyConvolution img kernel) !! Z.to_nat ((y * width img + x) * 4 + c) =
    if c =? 3 then data img !! Z.to_nat ((y * width img + x) * 4 + c) else Some 0.
Proof.
  intros Hwf Hw Hh Hu Hs H0 x y c Hx Hy Hc.
  rewrite convolution_lookup by assumption.
  destruct (Z.eqb_spec c 3); [reflexivity|].
  rewrite conv_spec_uniform by (assumption || lia).
  rewrite (js_round_comp _ (inject_Z 0)) by (rewrite H0; reflexivity).
  rewrite js_round_of_Z. reflexivity.
Qed.

Lemma for_loop_snoc {A : Type} k i (a : A) l :
  for_loop k i (fun _ l => l ++ [a]) l = l ++ replicate k a.
Proof.
  revert i l. induction k as [|k IH]; intros i l; simpl.
  - rewrite app_nil_r. reflexivity.
  - rewrite IH, <- app_assoc. reflexivity.
Qed.

Lemma generateBoxKernel_eq size :
  generateBoxKernel size =
  replicate (Z.to_nat size) (replicate (Z.to_nat size) (1 / inject_Z (size * size))%Q).
Proof.
  unfold generateBoxKernel, for_range. rewrite Z.sub_0_r, !for_loop_snoc. reflexivity.
Qed.

Lemma square_replicate n (w : Q) : square_kernel (replicate n (replicate n w)).
Proof.
  unfold square_kernel. apply Forall_replicate. rewrite !length_replicate. reflexivity.
Qed.

Lemma Qsum_const_seq (w : Q) s n :
  (Qsum (map (fun _ => w) (seq s n)) == inject_Z (Z.of_nat n) * w)%Q.
Proof.
  revert s. induction n as [|n IH]; intros s; simpl; [ring|].
  rewrite IH, Nat2Z.inj_succ, <- Z.add_1_l, inject_Z_plus. ring.
Qed.

Lemma Qsum_map_Qeq_in {A} (f g : A -> Q) l :
  (forall a, In a l -> f a == g a)%Q -> (Qsum (map f l) == Qsum (map g l))%Q.
Proof.
  induction l as [|a l IH]; intros H; simpl; [reflexivity|].
  rewrite (H a (or_introl eq_refl)), IH; [reflexivity|]. intros b Hb. apply H. right. exact Hb.
Qed.

Lemma nth_replicate_in {A} n (a d : A) i : (i < n)%nat -> nth i (replicate n a) d = a.
Proof.
  revert i. induction n as [|n IH]; intros i Hi; [lia|].
  destruct i; simpl; [reflexivity|]. apply IH. lia.
Qed.

Lemma kernel_sum_replicate n (w : Q) :
  (kernel_sum (replicate n (replicate n w)) == inject_Z (Z.of_nat n) * (inject_Z (Z.of_nat n) * w))%Q.
Proof.
  unfold kernel_sum. rewrite length_replicate.
  rewrite (Qsum_map_Qeq_in _ (fun _ => inject_Z (Z.of_nat n) * w)%Q).
  - apply Qsum_const_seq.
  - intros i Hi. apply in_seq in Hi. rewrite nth_replicate_in by lia.
    rewrite (Qsum_map_Qeq_in _ (fun _ => w)); [apply Qsum_const_seq|].
    intros j Hj. apply in_seq in Hj. rewrite nth_replicate_in by lia. reflexivity.
Qed.

Lemma generateBoxKernel_sum size :
  1 <= size -> (kernel_sum (generateBoxKernel size) == 1)%Q.
Proof.
  intros Hs. rewrite generateBoxKernel_eq, kernel_sum_replicate, Z2Nat.id by lia.
  assert (Hnz : ~ (inject_Z size == 0)%Q).
  { change 0%Q with (inject_Z 0). rewrite inject_Z_injective. lia. }
  rewrite inject_Z_mult. field. exact Hnz.
Qed.

Lemma generateBoxKernel_square size : square_kernel (generateBoxKernel size).
Proof. rewrite generateBoxKernel_eq. apply square_replicate. Qed.

(** X13: Blurring or sharpening a non-empty uniform image leaves it unchanged:
    the kernel of [applyBoxBlur] for any [size >= 1], and the sharpening
    kernel, are square with weights summing to 1. *)
Theorem applyBoxBlur_applySharpen_uniform (img : ImageData) (size : Z) :
  wf_image img -> 0 < width img -> 0 < height img -> uniform_colour img -> 1 <= size ->
  applyBoxBlur img size = img /\ applySharpen img = img.
Proof.
  intros Hwf Hw Hh Hu Hs. split.
  - apply convolution_unit_uniform; try assumption.
    + apply generateBoxKernel_square.
    + apply generateBoxKernel_sum. exact Hs.
  - apply convolution_unit_uniform; try assumption.
    + repeat constructor.
    + vm_compute. reflexivity.
Qed.

Lemma applyBoxBlur_applySharpen_uniform_witness :
  (wf_image (mkImageData 1 1 [10; 20; 30; 255]) /\ 0 < 1 /\
   uniform_colour (mkImageData 1 1 [10; 20; 30; 255]) /\ 1 <= 3) /\
  applyBoxBlur (mkImageData 1 1 [10; 20; 30; 255]) 3 = mkImageData 1 1 [10; 20; 30; 255] /\
  applySharpen (mkImageData 1 1 [10; 20; 30; 255]) = mkImageData 1 1 [10; 20; 30; 255].
Proof.
  assert (H : wf_image (mkImageData 1 1 [10; 20; 30; 255])) by wf_solve.
  assert (U := uniform_1x1 10 20 30 255).
  split; [refine (conj H _); repeat split; assumption || lia|].
  apply (applyBoxBlur_applySharpen_uniform _ 3 H ltac:(cbn; lia) ltac:(cbn; lia) U ltac:(lia)).
Defined.

(** X14: The preset kernels of the custom-kernel editor on a non-empty uniform
    image: [sharpen], [emboss] and [blur] leave it unchanged and
    [edgeDetect] makes every colour sample 0 and keeps the alpha samples. *)
Theorem PRESET_KERNELS_uniform (img : ImageData) :
  wf_image img -> 0 < width img -> 0 < height img -> uniform_colour img ->
  applyCustomKernel img PRESET_KERNELS_sharpen = img /\
  applyCustomKernel img PRESET_KERNELS_emboss = img /\
  applyCustomKernel img PRESET_KERNELS_blur = img /\
  forall x y c, 0 <= x < width img -> 0 <= y < height img -> 0 <= c < 4 ->
    data (applyCustomKernel img PRESET_KERNELS_edgeDetect) !! Z.to_nat ((y * width img + x) * 4 + c) =
    if c =? 3 then data img !! Z.to_nat ((y * width img + x) * 4 + c) else Some 0.
Proof.
  intros Hwf Hw Hh Hu. unfold applyCustomKernel.
  split; [|split; [|split]].
  - apply convolution_unit_uniform; try assumption; [repeat constructor | vm_compute; reflexivity].
  - apply convolution_unit_uniform; try assumption; [repeat constructor | vm_compute; reflexivity].
  - apply convolution_unit_uniform; try assumption; [repeat constructor | vm_compute; reflexivity].
  - apply convolution_zero_uniform; try assumption; [repeat constructor | vm_compute; reflexivity].
Qed.

Lemma PRESET_KERNELS_uniform_witness :
  (wf_image (mkImageData 1 1 [10; 20; 30; 255]) /\ 0 < 1 /\
   uniform_colour (mkImageData 1 1 [10; 20; 30; 255])) /\
  applyCustomKernel (mkImageData 1 1 [10; 20; 30; 255]) PRESET_KERNELS_emboss =
  mkImageData 1 1 [10; 20; 30; 255] /\
  data (applyCustomKernel (mkImageData 1 1 [10; 20; 30; 255]) PRESET_KERNELS_edgeDetect)
    !! Z.to_nat ((0 * 1 + 0) * 4 + 0) =
  (if 0 =? 3 then data (mkImageData 1 1 [10; 20; 30; 255]) !! Z.to_nat ((0 * 1 + 0) * 4 + 0)
   else Some 0).
Proof.
  assert (H : wf_image (mkImageData 1 1 [10; 20; 30; 255])) by wf_solve.
  assert (U := uniform_1x1 10 20 30 255).
  split; [refine (conj H _); repeat split; assumption || lia|].
  destruct (PRESET_KERNELS_uniform _ H ltac:(cbn; lia) ltac:(cbn; lia) U) as (_ & E & _ & F).
  split; [exact E|]. apply (F 0 0 0); cbn; lia.
Defined.

Lemma conv_spec_sum_identity img c x y :
  (conv_spec_sum img PRESET_KERNELS_identity c x y == inject_Z (conv_sample img c x y))%Q.
Proof.
  unfold conv_spec_sum, conv_term, Qsum. simpl.
  change (Z.of_nat 1) with 1. change (Z.of_nat 3 / 2) with 1.
  replace (x + 1 - 1) with x by lia. replace (y + 1 - 1) with y by lia. ring.
Qed.

(** X15: Convolving with the identity preset returns the image itself. *)
Theorem applyCustomKernel_identity (img : ImageData) :
  wf_image img -> applyCustomKernel img PRESET_KERNELS_identity = img.
Proof.
  intros Hwf. unfold applyCustomKernel.
  apply image_ext; [apply convolution_wf; exact Hwf | exact Hwf | reflexivity | reflexivity |].
  intros x y c Hx Hy Hc. cbn [width height applyConvolution] in *.
  rewrite convolution_lookup by (assumption || (repeat constructor)).
  destruct (Z.eqb_spec c 3); [reflexivity|].
  unfold conv_spec. rewrite (js_round_comp _ _ (conv_spec_sum_identity img c x y)), js_round_of_Z.
  unfold conv_sample.
  replace (Z.max 0 (Z.min (width img - 1) x)) with x by lia.
  replace (Z.max 0 (Z.min (height img - 1) y)) with y by lia.
  rewrite sample_nth_lookup by (assumption || lia).
  pose proof (sample_range img x y c Hwf Hx Hy ltac:(lia)). f_equal. lia.
Qed.

Lemma applyCustomKernel_identity_witness :
  wf_image (mkImageData 1 1 [10; 20; 30; 255]) /\
  applyCustomKernel (mkImageData 1 1 [10; 20; 30; 255]) PRESET_KERNELS_identity =
  mkImageData 1 1 [10; 20; 30; 255].
Proof.
  assert (H : wf_image (mkImageData 1 1 [10; 20; 30; 255])) by wf_solve.
  split; [exact H|]. apply (applyCustomKernel_identity _ H).
Defined.

Lemma nth_replicate {A} n (a d : A) i : nth i (replicate n a) d = if Nat.ltb i n then a else d.
Proof.
  revert i. induction n as [|n IH]; intros i; [destruct i; reflexivity|].
  destruct i; simpl; [reflexivity|]. rewrite IH. reflexivity.
Qed.

Lemma Qsum_map_zero {A} (f : A -> Q) l :
  (forall a, f a == 0)%Q -> (Qsum (map f l) == 0)%Q.
Proof. intros H. induction l as [|a l IH]; simpl; [reflexivity|]. rewrite H, IH. reflexivity. Qed.

Lemma createEmptyKernel_entry size i j : nth j (nth i (createEmptyKernel size) []) 0%Q = 0%Q.
Proof.
  unfold createEmptyKernel. rewrite nth_replicate.
  destruct (Nat.ltb i _); [rewrite nth_replicate; destruct (Nat.ltb j _)|]; reflexivity || (destruct j; reflexivity).
Qed.

(** X16: Convolving with a kernel of zeros from [createEmptyKernel] turns every
    colour sample to 0, for any size, and keeps the alpha samples. *)
Theorem applyCustomKernel_empty (img : ImageData) (size : Z) :
  wf_image img ->
  forall x y c, 0 <= x < width img -> 0 <= y < height img -> 0 <= c < 4 ->
    data (applyCustomKernel img (createEmptyKernel size)) !! Z.to_nat ((y * width img + x) * 4 + c) =
    if c =? 3 then data img !! Z.to_nat ((y * width img + x) * 4 + c) else Some 0.
Proof.
  intros Hwf x y c Hx Hy Hc. unfold applyCustomKernel.
  rewrite convolution_lookup by (assumption || apply square_replicate).
  destruct (Z.eqb_spec c 3); [reflexivity|].
  unfold conv_spec.
  assert (E : (conv_spec_sum img (createEmptyKernel size) c x y == inject_Z 0)%Q).
  { unfold conv_spec_sum. apply Qsum_map_zero. intros i. apply Qsum_map_zero. intros j.
    unfold conv_term. rewrite createEmptyKernel_entry. ring. }
  rewrite (js_round_comp _ _ E), js_round_of_Z. reflexivity.
Qed.

Lemma applyCustomKernel_empty_witness :
  wf_image (mkImageData 1 1 [10; 20; 30; 255]) /\
  data (applyCustomKernel (mkImageData 1 1 [10; 20; 30; 255]) (createEmptyKernel 5))
    !! Z.to_nat ((0 * 1 + 0) * 4 + 2) =
  (if 2 =? 3 then data (mkImageData 1 1 [10; 20; 30; 255]) !! Z.to_nat ((0 * 1 + 0) * 4 + 2)
   else Some 0).
Proof.
  assert (H : wf_image (mkImageData 1 1 [10; 20; 30; 255])) by wf_solve.
  split; [exact H|]. apply (applyCustomKernel_empty _ 5 H 0 0 2); cbn; lia.
Defined.

(** *** Storing an integer-valued number *)

Lemma inject_Z_le a b : a <= b -> (inject_Z a <= inject_Z b)%Q.
Proof. intros H. rewrite <- Zle_Qle. exact H. Qed.

Lemma u8_of_number_Z (q : Q) (m : Z) :
  (q == inject_Z m)%Q -> 0 <= m <= 255 -> u8_of_number (Some q) = Some m.
Proof.
  intros Hq Hm. unfold u8_of_number.
  destruct (Z.eq_dec m 0) as [->|H0].
  - replace (Qle_bool q 0) with true; [reflexivity|].
    symmetry. apply Qle_bool_iff. rewrite Hq. apply Qle_refl.
  - assert (H1 : (1 <= inject_Z m)%Q) by (apply inject_Z_le; lia).
    replace (Qle_bool q 0) with false by
      (symmetry; apply not_true_iff_false; rewrite Qle_bool_iff; rewrite Hq; lra).
    destruct (Z.eq_dec m 255) as [->|H255].
    + replace (Qle_bool 255 q) with true; [reflexivity|].
      symmetry. apply Qle_bool_iff. rewrite Hq. apply Qle_refl.
    + assert (H2 : (inject_Z m <= 254)%Q) by (apply inject_Z_le; lia).
      replace (Qle_bool 255 q) with false by
        (symmetry; apply not_true_iff_false; rewrite Qle_bool_iff; rewrite Hq; lra).
      rewrite (Qfloor_comp _ _ Hq), Qfloor_Z.
      replace (Qle_bool q (inject_Z m + (1 # 2))%Q) with true by
        (symmetry; apply Qle_bool_iff; rewrite Hq; lra).
      replace (Qeq_bool q (inject_Z m + (1 # 2))%Q) with false by
        (symmetry; apply not_true_iff_false; rewrite Qeq_bool_iff; rewrite Hq; lra).
      reflexivity.
Qed.

(** [Math.min(255, Math.abs(q))] stored into a typed array, for an
    integer-valued [q]. *)
Lemma store_min_abs (q : Q) (n : Z) :
  (q == inject_Z n)%Q ->
  u8_of_number (js_minQ (Some 255%Q) (js_absQ (Some q))) = Some (Z.min 255 (Z.abs n)).
Proof.
  intros Hq. cbn [js_minQ js_absQ option_map]. apply u8_of_number_Z; [|lia].
  rewrite Hq. change (Qabs (inject_Z n)) with (inject_Z (Z.abs n)).
  destruct (Z.le_ge_cases 255 (Z.abs n)).
  - rewrite Q.min_l by (change 255%Q with (inject_Z 255); apply inject_Z_le; lia).
    rewrite Z.min_l by lia. reflexivity.
  - rewrite Q.min_r by (change 255%Q with (inject_Z 255); apply inject_Z_le; lia).
    rewrite Z.min_r by lia. reflexivity.
Qed.

(** *** Laplacian *)

Lemma applyLaplacian_data img :
  wf_image img ->
  data (applyLaplacian img) =
  tab (Z.to_nat (width img * height img * 4))
    (pixel_tab (width img)
       (fun x y => u8_of_number (js_minQ (Some 255%Q) (js_absQ (fst (fst (conv_sums img KERNELS_laplacian x y))))))
       (fun x y => u8_of_number (js_minQ (Some 255%Q) (js_absQ (snd (fst (conv_sums img KERNELS_laplacian x y))))))
       (fun x y => u8_of_number (js_minQ (Some 255%Q) (js_absQ (snd (conv_sums img KERNELS_laplacian x y)))))
       (fun x y => ta_get (data img) ((y * width img + x) * 4 + 3))).
Proof.
  intros (Hw & Hh & Hl & _). unfold applyLaplacian. cbn [data]. rewrite Hl.
  rewrite <- pixel_loop by assumption.
  unfold for_range at 1 2 5 6. apply for_loop_ext. intros y r. apply for_loop_ext. intros x r'.
  change (for_range 0 3 (fun ky sums =>
            for_range 0 3 (fun kx sums => conv_cell img KERNELS_laplacian 1 x y ky kx sums) sums)
            (Some 0%Q, Some 0%Q, Some 0%Q))
    with (conv_sums img KERNELS_laplacian x y).
  destruct (conv_sums img KERNELS_laplacian x y) as [[a b] d]. reflexivity.
Qed.

Lemma conv_spec_sum_laplacian img c x y :
  (conv_spec_sum img KERNELS_laplacian c x y ==
   inject_Z (conv_sample img c x (y - 1) + conv_sample img c (x - 1) y +
             conv_sample img c (x + 1) y + conv_sample img c x (y + 1) -
             4 * conv_sample img c x y))%Q.
Proof.
  unfold conv_spec_sum, conv_term, Qsum. simpl.
  change (Z.of_nat 0) with 0. change (Z.of_nat 1) with 1. change (Z.of_nat 2) with 2.
  change (Z.of_nat 3 / 2) with 1.
  replace (x + 0 - 1) with (x - 1) by lia. replace (y + 0 - 1) with (y - 1) by lia.
  replace (x + 1 - 1) with x by lia. replace (y + 1 - 1) with y by lia.
  replace (x + 2 - 1) with (x + 1) by lia. replace (y + 2 - 1) with (y + 1) by lia.
  unfold Z.sub. rewrite !inject_Z_plus, inject_Z_opp, inject_Z_mult. ring.
Qed.

(** X17: [applyLaplacian] writes, in each colour channel,
    [min(255, |N + W + E + S - 4 C|)] for the pixel [C] and its four
    neighbours read with clamp-to-edge, and keeps the alpha samples. *)
Theorem applyLaplacian_lookup (img : ImageData) :
  wf_image img ->
  forall x y c, 0 <= x < width img -> 0 <= y < height img -> 0 <= c < 4 ->
    data (applyLaplacian img) !! Z.to_nat ((y * width img + x) * 4 + c) =
    if c =? 3 then data img !! Z.to_nat ((y * width img + x) * 4 + c)
    else Some (Z.min 255 (Z.abs
           (conv_sample img c x (y - 1) + conv_sample img c (x - 1) y +
            conv_sample img c (x + 1) y + conv_sample img c x (y + 1) -
            4 * conv_sample img c x y))).
Proof.
  intros Hwf x y c Hx Hy Hc.
  rewrite applyLaplacian_data by exact Hwf.
  rewrite tab_pixel_lookup by assumption.
  assert (Hs : square_kernel KERNELS_laplacian) by repeat constructor.
  destruct (conv_sums_spec img KERNELS_laplacian x y Hwf Hs Hx Hy) as (A & B & D & E & HA & HB & HD).
  rewrite E.
  assert (Ec : c = 0 \/ c = 1 \/ c = 2 \/ c = 3) by lia.
  destruct Ec as [ -> | [ -> | [ -> | -> ]]]; cbn [fst snd Z.eqb].
  - rewrite (store_min_abs A _ (Qeq_trans _ _ _ HA (conv_spec_sum_laplacian img 0 x y))).
    cbn [u8_clamp]. f_equal. lia.
  - rewrite (store_min_abs B _ (Qeq_trans _ _ _ HB (conv_spec_sum_laplacian img 1 x y))).
    cbn [u8_clamp]. f_equal. lia.
  - rewrite (store_min_abs D _ (Qeq_trans _ _ _ HD (conv_spec_sum_laplacian img 2 x y))).
    cbn [u8_clamp]. f_equal. lia.
  - apply alpha_passthrough; assumption.
Qed.

Lemma applyLaplacian_lookup_witness :
  wf_image (mkImageData 1 1 [10; 20; 30; 255]) /\
  data (applyLaplacian (mkImageData 1 1 [10; 20; 30; 255])) !! Z.to_nat ((0 * 1 + 0) * 4 + 0) =
  (if 0 =? 3 then data (mkImageData 1 1 [10; 20; 30; 255]) !! Z.to_nat ((0 * 1 + 0) * 4 + 0)
   else Some (Z.min 255 (Z.abs
          (conv_sample (mkImageData 1 1 [10; 20; 30; 255]) 0 0 (0 - 1) +
           conv_sample (mkImageData 1 1 [10; 20; 30; 255]) 0 (0 - 1) 0 +
           conv_sample (mkImageData 1 1 [10; 20; 30; 255]) 0 (0 + 1) 0 +
           conv_sample (mkImageData 1 1 [10; 20; 30; 255]) 0 0 (0 + 1) -
           4 * conv_sample (mkImageData 1 1 [10; 20; 30; 255]) 0 0 0)))).
Proof.
  assert (H : wf_image (mkImageData 1 1 [10; 20; 30; 255])) by wf_solve.
  split; [exact H|]. apply (applyLaplacian_lookup _ H 0 0 0); cbn; lia.
Defined.

(** *** Sobel filters *)

Lemma sobel_filter_data kernel img :
  wf_image img ->
  data (sobel_filter kernel img) =
  tab (Z.to_nat (width img * height img * 4))
    (pixel_tab (width img)
       (fun x y => u8_of_number (js_minQ (Some 255%Q) (js_absQ (convolve3x3 (data img) (width img) (height img) x y kernel))))
       (fun x y => u8_of_number (js_minQ (Some 255%Q) (js_absQ (convolve3x3 (data img) (width img) (height img) x y kernel))))
       (fun x y => u8_of_number (js_minQ (Some 255%Q) (js_absQ (convolve3x3 (data img) (width img) (height img) x y kernel))))
       (fun x y => ta_get (data img) ((y * width img + x) * 4 + 3))).
Proof.
  intros (Hw & Hh & Hl & _). unfold sobel_filter. cbn [data]. rewrite Hl.
  rewrite <- pixel_loop by assumption. reflexivity.
Qed.

Lemma uniform_read img c px py :
  wf_image img -> uniform_colour img -> 0 < width img -> 0 < height img -> 0 <= c < 3 ->
  ta_get (data img) ((Z.max 0 (Z.min (height img - 1) py) * width img +
                      Z.max 0 (Z.min (width img - 1) px)) * 4 + c) =
  Some (nth (Z.to_nat c) (data img) 0).
Proof.
  intros Hwf Hu Hw Hh Hc.
  rewrite (conv_sample_get img c 0 0 px py) by (assumption || lia).
  rewrite conv_sample_uniform by assumption. reflexivity.
Qed.

Lemma convolve3x3_uniform img x y kernel :
  wf_image img -> uniform_colour img -> 0 < width img -> 0 < height img ->
  convolve3x3 (data img) (width img) (height img) x y kernel =
  for_range 0 3 (fun ky sum =>
    for_range 0 3 (fun kx sum =>
      js_addQ sum (js_mulQ (Some (luma (nth 0 (data img) 0) (nth 1 (data img) 0) (nth 2 (data img) 0)))
                           (kernel_at kernel ky kx))) sum) (Some 0%Q).
Proof.
  intros Hwf Hu Hw Hh. unfold convolve3x3, for_range.
  apply for_loop_ext. intros ky s. apply for_loop_ext. intros kx t. cbv zeta.
  pose proof (uniform_read img 0 (x + kx - 1) (y + ky - 1) Hwf Hu Hw Hh ltac:(lia)) as R0.
  rewrite Z.add_0_r in R0.
  rewrite R0, !uniform_read by (assumption || lia). reflexivity.
Qed.

Lemma sobel_flat kernel g :
  kernel = SOBEL_X \/ kernel = SOBEL_Y ->
  u8_of_number (js_minQ (Some 255%Q) (js_absQ
    (for_range 0 3 (fun ky sum =>
       for_range 0 3 (fun kx sum => js_addQ sum (js_mulQ (Some g) (kernel_at kernel ky kx))) sum)
       (Some 0%Q)))) = Some 0.
Proof.
  intros [-> | ->]; unfold for_range; change (Z.to_nat (3 - 0)) with 3%nat; cbn [for_loop];
    repeat match goal with
    | |- context [kernel_at ?K ?a ?b] =>
        let v := eval vm_compute in (kernel_at K a b) in change (kernel_at K a b) with v
    end;
    cbn [js_addQ js_mulQ];
    (rewrite (store_min_abs _ 0); [reflexivity | ring]).
Qed.

(** X18: On a non-empty image whose pixels all have one colour, both Sobel
    filters make every colour sample 0 and keep the alpha samples. *)
Theorem applySobel_uniform (img : ImageData) :
  wf_image img -> 0 < width img -> 0 < height img -> uniform_colour img ->
  forall x y c, 0 <= x < width img -> 0 <= y < height img -> 0 <= c < 4 ->
    let j := Z.to_nat ((y * width img + x) * 4 + c) in
    data (applySobelX img) !! j = (if c =? 3 then data img !! j else Some 0) /\
    data (applySobelY img) !! j = (if c =? 3 then data img !! j else Some 0).
Proof.
  intros Hwf Hw Hh Hu x y c Hx Hy Hc j. unfold j, applySobelX, applySobelY.
  rewrite !sobel_filter_data by exact Hwf.
  rewrite !tab_pixel_lookup by assumption.
  rewrite !convolve3x3_uniform by assumption.
  assert (Ec : c = 0 \/ c = 1 \/ c = 2 \/ c = 3) by lia.
  destruct Ec as [ -> | [ -> | [ -> | -> ]]]; cbn [Z.eqb];
    [ | | | split; apply alpha_passthrough; assumption ];
    (rewrite !sobel_flat by (left; reflexivity) || (right; reflexivity)); split; reflexivity.
Qed.

Lemma applySobel_uniform_witness :
  (wf_image (mkImageData 1 1 [10; 20; 30; 255]) /\ 0 < 1 /\
   uniform_colour (mkImageData 1 1 [10; 20; 30; 255])) /\
  data (applySobelX (mkImageData 1 1 [10; 20; 30; 255])) !! Z.to_nat ((0 * 1 + 0) * 4 + 1) =
  (if 1 =? 3 then data (mkImageData 1 1 [10; 20; 30; 255]) !! Z.to_nat ((0 * 1 + 0) * 4 + 1)
   else Some 0) /\
  data (applySobelY (mkImageData 1 1 [10; 20; 30; 255])) !! Z.to_nat ((0 * 1 + 0) * 4 + 1) =
  (if 1 =? 3 then data (mkImageData 1 1 [10; 20; 30; 255]) !! Z.to_nat ((0 * 1 + 0) * 4 + 1)
   else Some 0).
Proof.
  assert (H : wf_image (mkImageData 1 1 [10; 20; 30; 255])) by wf_solve.
  assert (U := uniform_1x1 10 20 30 255).
  split; [refine (conj H _); repeat split; assumption || lia|].
  apply (applySobel_uniform _ H ltac:(cbn; lia) ltac:(cbn; lia) U 0 0 1); cbn; lia.
Defined.

(** *** Spectrum shift *)

Lemma for_loop_push {A : Type} (body : Z -> list A -> list A) (f : Z -> A) k i l :
  (forall j acc, body j acc = acc ++ [f j]) ->
  for_loop k i body l = l ++ map (fun t => f (i + Z.of_nat t)) (seq 0 k).
Proof.
  intros Hb. revert i l. induction k as [|k IH]; intros i l; simpl.
  - rewrite app_nil_r. reflexivity.
  - rewrite IH, Hb, <- app_assoc. simpl. rewrite Z.add_0_r. f_equal. f_equal.
    rewrite <- seq_shift, map_map. apply map_ext. intros t. f_equal. lia.
Qed.

Lemma for_range_push {A : Type} (body : Z -> list A -> list A) (f : Z -> A) n :
  (forall j acc, body j acc = acc ++ [f j]) ->
  for_range 0 n body [] = map (fun t => f (Z.of_nat t)) (seq 0 (Z.to_nat n)).
Proof.
  intros Hb. unfold for_range. rewrite Z.sub_0_r, (for_loop_push body f) by exact Hb.
  reflexivity.
Qed.

Lemma fftShift_eq {A : Type} (row0 : list A) rest :
  let m := row0 :: rest in
  let r := Z.of_nat (length m) in
  let c := Z.of_nat (length row0) in
  fftShift m =
  Normal (map (fun i => map (fun j => shift_entry m r c (Z.of_nat i) (Z.of_nat j))
                            (seq 0 (length row0)))
              (seq 0 (length m))).
Proof.
  intros m r c. unfold fftShift. fold m. f_equal.
  rewrite (for_range_push _ (fun i => map (fun j => shift_entry m r c i (Z.of_nat j)) (seq 0 (length row0)))).
  - rewrite Nat2Z.id. reflexivity.
  - intros i acc. f_equal. f_equal.
    rewrite (for_range_push _ (fun j => shift_entry m r c i j)).
    + unfold c. rewrite Nat2Z.id. reflexivity.
    + intros j acc'. reflexivity.
Qed.

Lemma js_index_nonneg {A : Type} (l : list A) k : 0 <= k -> js_index l k = l !! Z.to_nat k.
Proof. intros Hk. unfold js_index. destruct (Z.ltb_spec k 0); [lia | reflexivity]. Qed.

Lemma lookup_map_seq {A : Type} (f : nat -> A) n k :
  map f (seq 0 n) !! k = if Nat.ltb k n then Some (f k) else None.
Proof.
  revert f k. induction n as [|n IH]; intros f k; [destruct k; reflexivity|].
  rewrite <- (Nat.add_1_r n), seq_app, map_app.
  destruct (Nat.lt_ge_cases k n) as [Hk|Hk].
  - rewrite lookup_app_l by (rewrite length_map, length_seq; lia).
    rewrite IH. destruct (Nat.ltb_spec k n), (Nat.ltb_spec k (n + 1)); try lia. reflexivity.
  - rewrite lookup_app_r by (rewrite length_map, length_seq; lia).
    rewrite length_map, length_seq. simpl.
    destruct (Nat.ltb_spec k (n + 1)).
    + replace (k - n)%nat with 0%nat by lia. replace k with n by lia. reflexivity.
    + destruct (k - n)%nat as [|t] eqn:E; [lia|]. reflexivity.
Qed.


Lemma seq_lookups {A : Type} (l : list A) :
  map (fun j => Some (l !! j)) (seq 0 (length l)) = map (fun a => Some (Some a)) l.
Proof.
  induction l as [|a l IH]; [reflexivity|].
  cbn [length]. rewrite <- (Nat.add_1_l (length l)), seq_app. simpl.
  f_equal. rewrite <- IH, <- seq_shift, map_map. reflexivity.
Qed.

Lemma seq_rows {A B : Type} (g : A -> B) (d : A) (l : list A) :
  map (fun i => g (nth i l d)) (seq 0 (length l)) = map g l.
Proof.
  induction l as [|a l IH]; [reflexivity|].
  cbn [length]. rewrite <- (Nat.add_1_l (length l)), seq_app. simpl.
  f_equal. rewrite <- IH, <- seq_shift, map_map. reflexivity.
Qed.

Lemma shift_twice r i : Z.even r = true -> 0 <= i < r -> ((i + r / 2) mod r + r / 2) mod r = i.
Proof.
  intros He Hi. rewrite Z.add_mod_idemp_l by lia.
  apply Zeven_bool_iff, Zeven_div2 in He. rewrite Z.div2_div in He.
  replace (i + r / 2 + r / 2) with (i + 1 * r) by lia.
  rewrite Z.mod_add by lia. apply Z.mod_small. lia.
Qed.

Lemma fftShift_eq_hd {A : Type} (m : list (list A)) :
  m <> [] ->
  fftShift m =
  Normal (map (fun i => map (fun j => shift_entry m (Z.of_nat (length m)) (Z.of_nat (length (hd [] m)))
                                        (Z.of_nat i) (Z.of_nat j))
                            (seq 0 (length (hd [] m))))
              (seq 0 (length m))).
Proof. intros Hm. destruct m as [|row0 rest]; [contradiction|]. apply fftShift_eq. Qed.

(** X19: On a non-empty rectangular spectrum with an even number of rows and
    of columns, [fftShift] is an involution: shifting the shifted
    spectrum gives back every entry of the original. *)
Theorem fftShift_involution {A : Type} (spectrum : list (list A)) :
  spectrum <> [] ->
  Forall (fun row => length row = length (hd [] spectrum)) spectrum ->
  Z.even (Z.of_nat (length spectrum)) = true ->
  Z.even (Z.of_nat (length (hd [] spectrum))) = true ->
  exists shifted, fftShift spectrum = Normal shifted /\
    fftShift shifted = Normal (map (map (fun a => Some (Some a))) spectrum).
Proof.
  intros Hne Hrect Her Hec.
  set (m := spectrum) in *.
  set (R := length m) in *. set (C := length (hd [] m)) in *.
  set (r := Z.of_nat R) in *. set (c := Z.of_nat C) in *.
  rewrite fftShift_eq_hd by exact Hne. fold R C r c.
  set (M1 := map (fun i => map (fun j => shift_entry m r c (Z.of_nat i) (Z.of_nat j)) (seq 0 C)) (seq 0 R)).
  exists M1. split; [reflexivity|].
  assert (HR : (0 < R)%nat) by (unfold R; destruct m; [contradiction | simpl; lia]).
  assert (LM1 : length M1 = R) by (unfold M1; rewrite length_map, length_seq; reflexivity).
  assert (HM1 : length (hd [] M1) = C).
  { unfold M1. destruct R as [|R']; [lia|]. simpl. rewrite length_map, length_seq. reflexivity. }
  assert (NM1 : M1 <> []) by (intros E; rewrite E in LM1; simpl in LM1; lia).
  rewrite fftShift_eq_hd by exact NM1. rewrite LM1, HM1. fold r c. f_equal.
  rewrite <- (seq_rows (map (fun a => Some (Some a))) [] m). fold R.
  apply map_ext_in. intros i Hi. apply in_seq in Hi.
  assert (Hrow : length (nth i m []) = C).
  { rewrite List.Forall_forall in Hrect. apply Hrect, nth_In. lia. }
  rewrite <- seq_lookups, Hrow.
  apply map_ext_in. intros j Hj. apply in_seq in Hj.
  assert (Hr : 0 < r) by lia.
  assert (Hc : 0 < c) by lia.
  unfold shift_entry at 1.
  pose proof (Z.mod_pos_bound (Z.of_nat i + r / 2) r Hr) as Mi.
  pose proof (Z.mod_pos_bound (Z.of_nat j + c / 2) c Hc) as Mj.
  rewrite (js_index_nonneg M1) by lia. unfold M1 at 1. rewrite lookup_map_seq.
  destruct (Nat.ltb_spec (Z.to_nat ((Z.of_nat i + r / 2) mod r)) R); [|lia].
  cbn [default]. unfold id. rewrite js_index_nonneg by lia. rewrite lookup_map_seq.
  destruct (Nat.ltb_spec (Z.to_nat ((Z.of_nat j + c / 2) mod c)) C); [|lia].
  f_equal. unfold shift_entry. rewrite !Z2Nat.id by lia.
  rewrite shift_twice by (assumption || lia). rewrite shift_twice by (assumption || lia).
  rewrite js_index_nonneg by lia. rewrite Nat2Z.id.
  rewrite (js_index_nonneg m) by lia. rewrite Nat2Z.id.
  destruct (nth_lookup_or_length m i []) as [E|]; [|lia]. rewrite E. reflexivity.
Qed.

Lemma fftShift_involution_witness :
  ([[1; 2]; [3; 4]]%nat <> [] /\
   Forall (fun row => length row = length (hd [] [[1; 2]; [3; 4]]%nat)) [[1; 2]; [3; 4]]%nat /\
   Z.even (Z.of_nat (length [[1; 2]; [3; 4]]%nat)) = true /\
   Z.even (Z.of_nat (length (hd [] [[1; 2]; [3; 4]]%nat))) = true) /\
  exists shifted, fftShift [[1; 2]; [3; 4]]%nat = Normal shifted /\
    fftShift shifted = Normal (map (map (fun a => Some (Some a))) [[1; 2]; [3; 4]]%nat).
Proof.
  assert (N : [[1; 2]; [3; 4]]%nat <> []) by discriminate.
  assert (R : Forall (fun row => length row = length (hd [] [[1; 2]; [3; 4]]%nat)) [[1; 2]; [3; 4]]%nat)
    by (repeat constructor).
  assert (E1 : Z.even (Z.of_nat (length [[1; 2]; [3; 4]]%nat)) = true) by reflexivity.
  assert (E2 : Z.even (Z.of_nat (length (hd [] [[1; 2]; [3; 4]]%nat))) = true) by reflexivity.
  split; [repeat split; assumption|].
  apply (fftShift_involution _ N R E1 E2).
Defined.

Lemma Qeq_bool_inject (a b : Z) : Qeq_bool (inject_Z a) (inject_Z b) = (a =? b).
Proof.
  apply eq_iff_eq_true. rewrite Qeq_bool_iff, Z.eqb_eq. apply inject_Z_injective.
Qed.

Lemma Qle_bool_inject (a b : Z) : Qle_bool (inject_Z a) (inject_Z b) = (a <=? b).
Proof.
  apply eq_iff_eq_true. rewrite Qle_bool_iff, Z.leb_le. rewrite <- Zle_Qle. reflexivity.
Qed.

Lemma Qabs_inject (a : Z) : Qabs (inject_Z a) = inject_Z (Z.abs a).
Proof. reflexivity. Qed.

Lemma Qabs_inject_minus (a b : Z) : Qabs (inject_Z a - inject_Z b) = inject_Z (Z.abs (a - b)).
Proof.
  unfold Qminus, Qplus, Qopp, Qabs, inject_Z. cbn [Qnum Qden].
  rewrite !Z.mul_1_r. reflexivity.
Qed.

Lemma Qmax_inject (a b : Z) : (Qmax (inject_Z a) (inject_Z b) == inject_Z (Z.max a b))%Q.
Proof.
  destruct (Z.le_ge_cases a b).
  - rewrite Z.max_r by lia. apply Q.max_r. rewrite <- Zle_Qle. lia.
  - rewrite Z.max_l by lia. apply Q.max_l. rewrite <- Zle_Qle. lia.
Qed.

Lemma isInNeighborhood_Z (a b : Z) nt :
  isInNeighborhood (inject_Z a) (inject_Z b) nt =
  if (a =? 0) && (b =? 0) then false
  else if negb (Z.abs a <=? 1) || negb (Z.abs b <=? 1) then false
  else match nt with
       | N4 => (a =? 0) || (b =? 0)
       | ND => negb (a =? 0) && negb (b =? 0)
       | N8 => true
       end.
Proof.
  unfold isInNeighborhood. change 0%Q with (inject_Z 0). change 1%Q with (inject_Z 1).
  rewrite !Qeq_bool_inject, !Qabs_inject, !Qle_bool_inject. reflexivity.
Qed.

Ltac qabs_elim :=
  repeat match goal with
  | |- context [Qabs ?e] =>
      let H := fresh in
      destruct (Qlt_le_dec e 0) as [H|H];
      [rewrite (Qabs_neg e) by lra | rewrite (Qabs_pos e) by lra]
  | |- context [Qmax ?a ?b] =>
      let H := fresh in
      destruct (Qlt_le_dec a b) as [H|H];
      [rewrite (Q.max_r a b) by lra | rewrite (Q.max_l a b) by lra]
  end.

Lemma getNeighborOffsets_N4 :
  getNeighborOffsets N4 =
  [NeighborOffset.mk 0 (-1); NeighborOffset.mk (-1) 0; NeighborOffset.mk 1 0; NeighborOffset.mk 0 1].
Proof. reflexivity. Qed.

Lemma getNeighborOffsets_ND :
  getNeighborOffsets ND =
  [NeighborOffset.mk (-1) (-1); NeighborOffset.mk 1 (-1); NeighborOffset.mk (-1) 1; NeighborOffset.mk 1 1].
Proof. reflexivity. Qed.

Lemma getNeighborOffsets_N8 :
  getNeighborOffsets N8 =
  [NeighborOffset.mk (-1) (-1); NeighborOffset.mk 0 (-1); NeighborOffset.mk 1 (-1);
   NeighborOffset.mk (-1) 0; NeighborOffset.mk 1 0;
   NeighborOffset.mk (-1) 1; NeighborOffset.mk 0 1; NeighborOffset.mk 1 1].
Proof. reflexivity. Qed.

(** X20: For an integer offset [(dx, dy)] from the centre, [isInNeighborhood]
    with [N4] holds exactly at city-block distance 1, with [N8] exactly
    at chessboard distance 1, and with [ND] exactly at city-block
    distance 2 and chessboard distance 1. *)
Theorem isInNeighborhood_distance (Math_sqrt : Q -> Q) (dx dy : Z) :
  let d4 := calculateDistance Math_sqrt (inject_Z dx) (inject_Z dy) 0 0 cityBlock in
  let d8 := calculateDistance Math_sqrt (inject_Z dx) (inject_Z dy) 0 0 chessboard in
  (isInNeighborhood (inject_Z dx) (inject_Z dy) N4 = true <-> (d4 == 1)%Q) /\
  (isInNeighborhood (inject_Z dx) (inject_Z dy) N8 = true <-> (d8 == 1)%Q) /\
  (isInNeighborhood (inject_Z dx) (inject_Z dy) ND = true <-> (d4 == 2)%Q /\ (d8 == 1)%Q).
Proof.
  cbv zeta. unfold calculateDistance. change 0%Q with (inject_Z 0).
  rewrite !Qabs_inject_minus, !Z.sub_0_r, !isInNeighborhood_Z.
  rewrite Qmax_inject, <- inject_Z_plus.
  change 1%Q with (inject_Z 1). change 2%Q with (inject_Z 2).
  rewrite !inject_Z_injective.
  destruct (Z.eqb_spec dx 0), (Z.eqb_spec dy 0), (Z.leb_spec (Z.abs dx) 1), (Z.leb_spec (Z.abs dy) 1);
    cbn [andb orb negb]; repeat split; intros; try discriminate; try reflexivity; lia.
Qed.

(** X21: The city-block and chessboard distances of [calculateDistance] are
    metrics on points with rational coordinates: zero exactly between
    equal points, symmetric and subject to the triangle inequality. *)
Theorem calculateDistance_metric (Math_sqrt : Q -> Q) (metric : DistanceMetric)
    (Hm : metric <> euclidean) (x1 y1 x2 y2 x3 y3 : Q) :
  ((calculateDistance Math_sqrt x1 y1 x2 y2 metric == 0)%Q <-> (x1 == x2)%Q /\ (y1 == y2)%Q) /\
  (calculateDistance Math_sqrt x1 y1 x2 y2 metric == calculateDistance Math_sqrt x2 y2 x1 y1 metric)%Q /\
  (calculateDistance Math_sqrt x1 y1 x3 y3 metric <=
     calculateDistance Math_sqrt x1 y1 x2 y2 metric + calculateDistance Math_sqrt x2 y2 x3 y3 metric)%Q.
Proof.
  destruct metric; [congruence| |]; unfold calculateDistance;
    (split; [|split]); qabs_elim; try lra; split; intros; try split; try lra;
    match goal with H : _ /\ _ |- _ => destruct H end; lra.
Qed.

Lemma calculateDistance_metric_witness :
  cityBlock <> euclidean /\
  ((calculateDistance (fun q => q) 0 0 1 2 cityBlock == 0)%Q <-> (0 == 1)%Q /\ (0 == 2)%Q) /\
  (calculateDistance (fun q => q) 0 0 1 2 cityBlock == calculateDistance (fun q => q) 1 2 0 0 cityBlock)%Q /\
  (calculateDistance (fun q => q) 0 0 3 1 cityBlock <=
     calculateDistance (fun q => q) 0 0 1 2 cityBlock + calculateDistance (fun q => q) 1 2 3 1 cityBlock)%Q.
Proof.
  assert (Hm : cityBlock <> euclidean) by discriminate.
  split; [exact Hm|]. apply (calculateDistance_metric (fun q => q) cityBlock Hm 0 0 1 2 3 1).
Defined.

(** X22: The chessboard distance never exceeds the city-block distance, which
    is at most twice the chessboard distance. *)
Theorem calculateDistance_chessboard_cityBlock (Math_sqrt : Q -> Q) (x1 y1 x2 y2 : Q) :
  (calculateDistance Math_sqrt x1 y1 x2 y2 chessboard <= calculateDistance Math_sqrt x1 y1 x2 y2 cityBlock)%Q /\
  (calculateDistance Math_sqrt x1 y1 x2 y2 cityBlock <= 2 * calculateDistance Math_sqrt x1 y1 x2 y2 chessboard)%Q.
Proof.
  unfold calculateDistance. split; qabs_elim; lra.
Qed.

(** X23: [getNeighborOffsets] lists, without repetition, exactly the offsets
    that [isInNeighborhood] accepts: 4 for [N4] and [ND], 8 for [N8]. *)
Theorem getNeighborOffsets_spec (neighborType : NeighborType) :
  (forall o, In o (getNeighborOffsets neighborType) <->
     isInNeighborhood (inject_Z (NeighborOffset.dx o)) (inject_Z (NeighborOffset.dy o)) neighborType = true) /\
  NoDup (getNeighborOffsets neighborType) /\
  length (getNeighborOffsets neighborType) = (match neighborType with N8 => 8 | _ => 4 end)%nat.
Proof.
  split.
  - intros [a b]. cbn [NeighborOffset.dx NeighborOffset.dy]. rewrite isInNeighborhood_Z. split.
    + destruct neighborType;
        [rewrite getNeighborOffsets_N4 | rewrite getNeighborOffsets_ND | rewrite getNeighborOffsets_N8];
        cbn [In]; intros H; repeat destruct H as [H|H]; try contradiction;
        injection H as <- <-; reflexivity.
    + intros H.
      destruct (Z.leb_spec (Z.abs a) 1);
        [|destruct ((a =? 0) && (b =? 0)); cbn in H; discriminate].
      destruct (Z.leb_spec (Z.abs b) 1);
        [|destruct ((a =? 0) && (b =? 0)); cbn in H; rewrite ?orb_true_r in H; discriminate].
      assert (Ha : a = -1 \/ a = 0 \/ a = 1) by lia.
      assert (Hb : b = -1 \/ b = 0 \/ b = 1) by lia.
      destruct neighborType;
        [rewrite getNeighborOffsets_N4 | rewrite getNeighborOffsets_ND | rewrite getNeighborOffsets_N8];
        destruct Ha as [ -> | [ -> | -> ] ]; destruct Hb as [ -> | [ -> | -> ] ]; cbn in H |- *;
        try discriminate; tauto.
  - destruct neighborType;
      [rewrite getNeighborOffsets_N4 | rewrite getNeighborOffsets_ND | rewrite getNeighborOffsets_N8];
      (split; [|reflexivity]);
      apply NoDup_ListNoDup; repeat (apply List.NoDup_cons;
        [cbn [In]; intros H; repeat destruct H as [H|H]; try discriminate; contradiction|]);
      apply List.NoDup_nil.
Qed.












Lemma for_loop_concat {A : Type} (body : Z -> list A -> list A) (g : Z -> list A) k i l :
  (forall j acc, body j acc = acc ++ g j) ->
  for_loop k i body l = l ++ concat (map (fun t => g (i + Z.of_nat t)) (seq 0 k)).
Proof.
  intros Hb. revert i l. induction k as [|k IH]; intros i l; simpl.
  - rewrite app_nil_r. reflexivity.
  - rewrite IH, Hb, <- app_assoc. simpl. rewrite Z.add_0_r. f_equal. f_equal.
    rewrite <- seq_shift, map_map. f_equal. apply map_ext. intros t. f_equal. lia.
Qed.

Lemma in_zrange (lo : Z) k j :
  In j (map (fun t => lo + Z.of_nat t) (seq 0 k)) <-> lo <= j < lo + Z.of_nat k.
Proof.
  rewrite in_map_iff. split.
  - intros (t & <- & Ht). apply in_seq in Ht. lia.
  - intros Hj. exists (Z.to_nat (j - lo)). split; [lia|]. apply in_seq. lia.
Qed.

Lemma count_interval (a b lo : Z) k :
  length (List.filter (fun j => (a <=? j) && (j <=? b)) (map (fun t => lo + Z.of_nat t) (seq 0 k))) =
  Z.to_nat (Z.max 0 (Z.min b (lo + Z.of_nat k - 1) - Z.max a lo + 1)).
Proof.
  revert lo. induction k as [|k IH]; intros lo; simpl.
  - lia.
  - rewrite Z.add_0_r. rewrite <- seq_shift, map_map.
    rewrite (map_ext (fun x => lo + Z.of_nat (S x)) (fun t => (lo + 1) + Z.of_nat t)) by (intros; lia).
    cbn [List.filter]. destruct (Z.leb_spec a lo), (Z.leb_spec lo b); cbn [andb];
      rewrite ?length_cons, IH; lia.
Qed.

Lemma sum_list_with_if {B : Type} (P : B -> bool) (c : nat) (l : list B) :
  list_sum (map (fun j => if P j then c else 0%nat) l) = (c * length (List.filter P l))%nat.
Proof.
  induction l as [|j l IH]; simpl; [lia|].
  destruct (P j); rewrite ?length_cons, IH; lia.
Qed.

Lemma length_concat_sum {A : Type} (l : list (list A)) :
  length (concat l) = list_sum (map length l).
Proof. induction l as [|x l IH]; simpl; [reflexivity|]. rewrite length_app, IH. reflexivity. Qed.

Lemma getNeighborhood_eq img centerX centerY radius :
  let w := width img in let h := height img in let d := data img in
  let rng := map (fun t => - radius + Z.of_nat t) (seq 0 (Z.to_nat (radius + 1 - - radius))) in
  getNeighborhood img centerX centerY radius =
  concat (map (fun dy => concat (map (fun dx =>
     if (0 <=? centerX + dx) && (centerX + dx <? w) && (0 <=? centerY + dy) && (centerY + dy <? h) then
       let idx := ((centerY + dy) * w + (centerX + dx)) * 4 in
       [NeighborhoodPixel.mk dx dy (ta_get d idx) (ta_get d (idx + 1)) (ta_get d (idx + 2))]
     else []) rng)) rng).
Proof.
  cbv zeta. unfold getNeighborhood, for_range.
  rewrite (for_loop_concat _ (fun dy => concat (map (fun dx =>
     if (0 <=? centerX + dx) && (centerX + dx <? width img) && (0 <=? centerY + dy) && (centerY + dy <? height img) then
       [NeighborhoodPixel.mk dx dy
          (ta_get (data img) (((centerY + dy) * width img + (centerX + dx)) * 4))
          (ta_get (data img) (((centerY + dy) * width img + (centerX + dx)) * 4 + 1))
          (ta_get (data img) (((centerY + dy) * width img + (centerX + dx)) * 4 + 2))]
     else []) (map (fun t => - radius + Z.of_nat t) (seq 0 (Z.to_nat (radius + 1 - - radius))))))).
  - rewrite map_map. reflexivity.
  - intros j acc. rewrite (for_loop_concat _ (fun dx =>
     if (0 <=? centerX + dx) && (centerX + dx <? width img) && (0 <=? centerY + j) && (centerY + j <? height img) then
       [NeighborhoodPixel.mk dx j
          (ta_get (data img) (((centerY + j) * width img + (centerX + dx)) * 4))
          (ta_get (data img) (((centerY + j) * width img + (centerX + dx)) * 4 + 1))
          (ta_get (data img) (((centerY + j) * width img + (centerX + dx)) * 4 + 2))]
     else [])).
    + rewrite map_map. reflexivity.
    + intros i acc'. destruct (_ && _); [reflexivity | rewrite app_nil_r; reflexivity].
Qed.

(** X25: [getNeighborhood] holds exactly the pixels of the image at offsets
    [(dx, dy)] with [|dx|, |dy| <= radius] from the centre, each with its
    offset and its colour samples; there are as many as the window has
    pixels inside the image. *)
Theorem getNeighborhood_spec (img : ImageData) (centerX centerY radius : Z) :
  (forall e, In e (getNeighborhood img centerX centerY radius) <->
     exists dx dy,
       - radius <= dx <= radius /\ - radius <= dy <= radius /\
       0 <= centerX + dx < width img /\ 0 <= centerY + dy < height img /\
       let p := ((centerY + dy) * width img + (centerX + dx)) * 4 in
       e = NeighborhoodPixel.mk dx dy (data img !! Z.to_nat p) (data img !! Z.to_nat (p + 1))
                                      (data img !! Z.to_nat (p + 2))) /\
  Z.of_nat (length (getNeighborhood img centerX centerY radius)) =
    window_count centerX radius (width img) * window_count centerY radius (height img).
Proof.
  rewrite getNeighborhood_eq. cbv zeta. split.
  - intros e. rewrite in_concat. split.
    + intros (l & Hl & He). apply in_map_iff in Hl as (dy & <- & Hdy).
      apply in_concat in He as (l' & Hl' & He). apply in_map_iff in Hl' as (dx & <- & Hdx).
      apply in_zrange in Hdx, Hdy.
      destruct (Z.leb_spec 0 (centerX + dx)), (Z.ltb_spec (centerX + dx) (width img)),
               (Z.leb_spec 0 (centerY + dy)), (Z.ltb_spec (centerY + dy) (height img));
        cbn [andb In] in He; try contradiction.
      destruct He as [<-|[]]. exists dx, dy. repeat split; try lia.
      unfold ta_get. rewrite !(proj2 (Z.ltb_ge _ 0)) by nia. reflexivity.
    + intros (dx & dy & Hdx & Hdy & Hx & Hy & ->).
      exists (concat (map (fun dx0 =>
        if (0 <=? centerX + dx0) && (centerX + dx0 <? width img) && (0 <=? centerY + dy) && (centerY + dy <? height img) then
          [NeighborhoodPixel.mk dx0 dy
             (ta_get (data img) (((centerY + dy) * width img + (centerX + dx0)) * 4))
             (ta_get (data img) (((centerY + dy) * width img + (centerX + dx0)) * 4 + 1))
             (ta_get (data img) (((centerY + dy) * width img + (centerX + dx0)) * 4 + 2))]
        else []) (map (fun t => - radius + Z.of_nat t) (seq 0 (Z.to_nat (radius + 1 - - radius)))))).
      split.
      * apply in_map_iff. exists dy. split; [reflexivity|]. apply in_zrange. lia.
      * apply in_concat. eexists. split.
        -- apply in_map_iff. exists dx. split; [reflexivity|]. apply in_zrange. lia.
        -- destruct (Z.leb_spec 0 (centerX + dx)), (Z.ltb_spec (centerX + dx) (width img)),
                    (Z.leb_spec 0 (centerY + dy)), (Z.ltb_spec (centerY + dy) (height img));
             try lia. cbn [andb In]. left.
           unfold ta_get. rewrite !(proj2 (Z.ltb_ge _ 0)) by nia. reflexivity.
  - rewrite length_concat_sum, map_map.
    set (rng := map (fun t => - radius + Z.of_nat t) (seq 0 (Z.to_nat (radius + 1 - - radius)))).
    assert (Hx : forall dy, length (concat (map (fun dx =>
        if (0 <=? centerX + dx) && (centerX + dx <? width img) && (0 <=? centerY + dy) && (centerY + dy <? height img) then
          [NeighborhoodPixel.mk dx dy
             (ta_get (data img) (((centerY + dy) * width img + (centerX + dx)) * 4))
             (ta_get (data img) (((centerY + dy) * width img + (centerX + dx)) * 4 + 1))
             (ta_get (data img) (((centerY + dy) * width img + (centerX + dx)) * 4 + 2))]
        else []) rng)) =
      if (0 <=? centerY + dy) && (centerY + dy <=? height img - 1)
      then Z.to_nat (window_count centerX radius (width img)) else 0%nat).
    { intros dy. rewrite length_concat_sum, map_map.
      destruct (Z.leb_spec 0 (centerY + dy)), (Z.ltb_spec (centerY + dy) (height img)),
               (Z.leb_spec (centerY + dy) (height img - 1)); try lia; cbn [andb].
      - rewrite (map_ext_in _ (fun dx => if (- centerX <=? dx) && (dx <=? width img - 1 - centerX)
                                                then 1%nat else 0%nat)).
        + rewrite sum_list_with_if, Nat.mul_1_l. unfold rng. rewrite count_interval.
          unfold window_count. lia.
        + intros dx _.
          destruct (Z.leb_spec 0 (centerX + dx)), (Z.ltb_spec (centerX + dx) (width img)),
                   (Z.leb_spec (- centerX) dx), (Z.leb_spec dx (width img - 1 - centerX)); try lia; reflexivity.
      - induction rng as [|a rng IH]; cbn [map list_sum fold_right]; [reflexivity|];
        rewrite ?andb_false_r; cbn [andb length]; unfold list_sum in IH; lia.
      - induction rng as [|a rng IH]; cbn [map list_sum fold_right]; [reflexivity|];
        rewrite ?andb_false_r; cbn [andb length]; unfold list_sum in IH; lia.
      - induction rng as [|a rng IH]; cbn [map list_sum fold_right]; [reflexivity|];
        rewrite ?andb_false_r; cbn [andb length]; unfold list_sum in IH; lia. }
    rewrite (map_ext_in _ (fun dy => if (0 <=? centerY + dy) && (centerY + dy <=? height img - 1)
                                            then Z.to_nat (window_count centerX radius (width img)) else 0%nat)).
    + rewrite sum_list_with_if.
      rewrite (List.filter_ext _ (fun dy => (- centerY <=? dy) && (dy <=? height img - 1 - centerY))).
      * unfold rng. rewrite count_interval. unfold window_count. lia.
      * intros dy. destruct (Z.leb_spec 0 (centerY + dy)), (Z.leb_spec (centerY + dy) (height img - 1)),
                   (Z.leb_spec (- centerY) dy), (Z.leb_spec dy (height img - 1 - centerY)); try lia; reflexivity.
    + intros dy _. apply Hx.
Qed.

Lemma sum_insert_succ (l : list Z) i :
  (i < length l)%nat -> fold_right Z.add 0 (<[i := nth i l 0 + 1]> l) = fold_right Z.add 0 l + 1.
Proof.
  revert i. induction l as [|x l IH]; intros i Hi; [cbn in Hi; lia|].
  destruct i as [|i]; cbn -[Z.add]; [lia|].
  cbn in Hi. rewrite IH by lia. lia.
Qed.

Lemma hist_inc_counts l j v :
  0 <= v <= 255 -> hist_counts l j -> hist_counts (hist_inc l (Some v)) (j + 1).
Proof.
  intros Hv (Hlen & Hsum & Hpos). unfold hist_inc.
  destruct (Z.leb_spec 0 v); [|lia]. destruct (Z.ltb_spec v 256); [|lia]. cbn [andb].
  split; [|split].
  - rewrite length_insert. exact Hlen.
  - rewrite sum_insert_succ by lia. lia.
  - apply Forall_insert; [exact Hpos|].
    destruct (nth_lookup_or_length l (Z.to_nat v) 0) as [E|]; [|lia].
    rewrite Forall_lookup in Hpos. specialize (Hpos _ _ E). cbn in Hpos. lia.
Qed.

Lemma hist_counts_zeros : hist_counts (replicate 256 0) 0.
Proof.
  split; [reflexivity|]. split; [reflexivity|]. apply Forall_replicate. lia.
Qed.

(** X26: Each of the four histograms of [calculateHistogram] on a well-formed
    image has 256 non-negative counts that add up to the number of
    pixels: every pixel is counted once per channel and once in [gray]. *)
Theorem calculateHistogram_counts (img : ImageData) :
  wf_image img ->
  let hist := calculateHistogram img in
  let n := width img * height img in
  hist_counts (Histogram.r hist) n /\ hist_counts (Histogram.g hist) n /\
  hist_counts (Histogram.b hist) n /\ hist_counts (Histogram.gray hist) n.
Proof.
  intros (Hw & Hh & Hlen & Hr). cbv zeta. unfold calculateHistogram, for_step4.
  rewrite Hlen.
  replace (Z.to_nat ((width img * height img * 4 + 3) / 4)) with (Z.to_nat (width img * height img)).
  2:{ f_equal. rewrite Z.div_add_l by lia. change (3 / 4) with 0. lia. }
  set (d := data img) in *.
  match goal with |- context [for_loop _ 0 ?b ?s] => set (body := b); set (init := s) end.
  set (P := fun j h => hist_counts (Histogram.r h) j /\ hist_counts (Histogram.g h) j /\
                       hist_counts (Histogram.b h) j /\ hist_counts (Histogram.gray h) j).
  enough (Inv : P (0 + Z.of_nat (Z.to_nat (width img * height img)))
                  (for_loop (Z.to_nat (width img * height img)) 0 body init)).
  { rewrite Z.add_0_l, Z2Nat.id in Inv by nia. exact Inv. }
  apply for_loop_inv.
  - unfold P, init. cbn [Histogram.r Histogram.g Histogram.b Histogram.gray].
    repeat split; apply hist_counts_zeros.
  - intros j h Hj (H1 & H2 & H3 & H4). unfold P, body.
    assert (G : forall c, 0 <= c < 3 ->
               ta_get d (4 * j + c) = Some (nth (Z.to_nat (4 * j + c)) d 0) /\
               0 <= nth (Z.to_nat (4 * j + c)) d 0 <= 255).
    { intros c Hc. split; [apply ta_get_in | apply nth_in_range; [exact Hr|]]; lia. }
    destruct (G 0 ltac:(lia)) as [G0 R0]. rewrite Z.add_0_r in G0, R0.
    destruct (G 1 ltac:(lia)) as [G1 R1]. destruct (G 2 ltac:(lia)) as [G2 R2].
    cbn [Histogram.r Histogram.g Histogram.b Histogram.gray].
    unfold gray_at. rewrite G0, G1, G2.
    split; [apply hist_inc_counts; assumption|].
    split; [apply hist_inc_counts; assumption|].
    split; [apply hist_inc_counts; assumption|].
    apply hist_inc_counts; [|assumption].
    change (0 <= js_round (luma (nth (Z.to_nat (4 * j)) d 0) (nth (Z.to_nat (4 * j + 1)) d 0)
                                (nth (Z.to_nat (4 * j + 2)) d 0)) <= 255).
    apply js_round_range, luma_range; assumption.
Qed.

Lemma calculateHistogram_counts_witness :
  wf_image (mkImageData 1 1 [10; 20; 30; 255]) /\
  hist_counts (Histogram.gray (calculateHistogram (mkImageData 1 1 [10; 20; 30; 255]))) (1 * 1).
Proof.
  assert (H : wf_image (mkImageData 1 1 [10; 20; 30; 255])) by wf_solve.
  split; [exact H|]. apply (proj2 (proj2 (proj2 (calculateHistogram_counts _ H)))).
Defined.

Lemma js_for_inv {S : Type} (P : Z -> S -> Prop) fuel i step cond body s :
  P i s ->
  (forall j s', cond j = true -> P j s' -> P (j + step) (body j s')) ->
  (forall j, cond j = true -> j < i + step * Z.of_nat fuel) ->
  exists j, P j (js_for fuel i step cond body s) /\ cond j = false.
Proof.
  revert i s. induction fuel as [|fuel IH]; intros i s H0 Hstep Hb; cbn [js_for].
  - exists i. split; [exact H0|]. destruct (cond i) eqn:E; [|reflexivity].
    specialize (Hb i E). lia.
  - destruct (cond i) eqn:E.
    + apply IH; [apply Hstep; assumption | assumption |].
      intros j Hj. specialize (Hb j Hj). lia.
    + exists i. auto.
Qed.

Lemma js_for_post {S : Type} (P : Z -> S -> Prop) (Q : S -> Prop) fuel i step cond body s :
  P i s ->
  (forall j s', cond j = true -> P j s' -> P (j + step) (body j s')) ->
  (forall j, cond j = true -> j < i + step * Z.of_nat fuel) ->
  (forall j s', P j s' -> cond j = false -> Q s') ->
  Q (js_for fuel i step cond body s).
Proof.
  intros H0 Hstep Hb Hpost.
  destruct (js_for_inv P fuel i step cond body s H0 Hstep Hb) as (j & Hj & Hc).
  eapply Hpost; eassumption.
Qed.

Lemma ta_set_tab L f i v :
  0 <= i < Z.of_nat L -> 0 <= v <= 255 ->
  ta_set (tab L f) i (Some v) = tab L (fun j => if Nat.eqb j (Z.to_nat i) then v else f j).
Proof.
  intros Hi Hv. unfold ta_set. destruct (Z.ltb_spec i 0); [lia|].
  rewrite u8_clamp_byte by exact Hv.
  apply list_eq. intros j. rewrite lookup_tab.
  destruct (Nat.eqb_spec j (Z.to_nat i)) as [->|Hne].
  - rewrite list_lookup_insert_eq by (rewrite length_tab; lia).
    destruct (Nat.ltb_spec (Z.to_nat i) L); [reflexivity|lia].
  - rewrite list_lookup_insert_ne by congruence. rewrite lookup_tab. reflexivity.
Qed.

Lemma cell_decomp w (j : Z) :
  0 < w -> 0 <= j ->
  j = ((j / 4) / w * w + (j / 4) mod w) * 4 + j mod 4 /\
  0 <= (j / 4) mod w < w /\ 0 <= j / 4 / w /\ 0 <= j mod 4 < 4.
Proof.
  intros Hw Hj. split; [|split; [apply Z.mod_pos_bound; lia | split; [apply Z.div_pos; [apply Z.div_pos|]; lia | apply Z.mod_pos_bound; lia]]].
  rewrite (Z.mul_comm (j / 4 / w) w), <- Z.div_mod by lia.
  rewrite Z.mul_comm, <- Z.div_mod by lia. reflexivity.
Qed.

Lemma cell_inj w px py c px' py' c' :
  0 <= px < w -> 0 <= py -> 0 <= c < 4 -> 0 <= px' < w -> 0 <= py' -> 0 <= c' < 4 ->
  (py * w + px) * 4 + c = (py' * w + px') * 4 + c' -> px = px' /\ py = py' /\ c = c'.
Proof.
  intros Hx Hy Hc Hx' Hy' Hc' E.
  destruct (pixel_index_decode w px py c Hx Hy Hc) as (A1 & A2 & A3 & A4).
  destruct (pixel_index_decode w px' py' c' Hx' Hy' Hc') as (B1 & B2 & B3 & B4).
  rewrite E in A1, A2. rewrite A1 in B1. rewrite B1 in A3, A4. lia.
Qed.

Lemma block_corner_cell w F X Y c :
  1 <= F -> 0 <= X < w -> 0 <= Y -> 0 <= c < 4 ->
  block_corner w F ((Y * w + X) * 4 + c) = ((F * (Y / F)) * w + F * (X / F)) * 4 + c.
Proof.
  intros HF Hx Hy Hc. unfold block_corner.
  destruct (pixel_index_decode w X Y c Hx Hy Hc) as (E1 & E2 & E3 & E4).
  rewrite E1, E2, E3, E4. reflexivity.
Qed.

Lemma block_div F k d : 1 <= F -> 0 <= d < F -> (F * k + d) / F = k.
Proof.
  intros HF Hd. rewrite Z.mul_comm, Z.div_add_l by lia. rewrite Z.div_small by lia. lia.
Qed.

Section SamplingProofs.

Variables (w h F : Z) (src : list Z).
Hypotheses (Hw : 0 <= w) (Hh : 0 <= h) (HF : 1 <= F) (Hlen : Z.of_nat (length src) = w * h * 4)
  (Hr : samples_in_range src).

Lemma sampled_ext W W' :
  (forall px py c, 0 <= px < w -> 0 <= py < h -> 0 <= c < 4 -> W px py c = W' px py c) ->
  tab (length src) (sampled_cell w F src W) = tab (length src) (sampled_cell w F src W').
Proof.
  intros HW. apply tab_ext. intros j Hj. unfold sampled_cell.
  assert (Hw0 : 0 < w) by (destruct (Z.eq_dec w 0); [subst; lia | lia]).
  destruct (cell_decomp w (Z.of_nat j) Hw0 ltac:(lia)) as (E & Hx & Hy & Hc).
  rewrite HW; [reflexivity | exact Hx | | exact Hc]. split; [exact Hy|].
  assert (Z.of_nat j < w * h * 4) by lia.
  destruct (Z.lt_ge_cases (Z.of_nat j / 4 / w) h); [assumption|]. nia.
Qed.

Lemma sampled_none :
  tab (length src) (sampled_cell w F src (fun _ _ _ => false)) = src.
Proof. unfold sampled_cell. apply tab_nth. Qed.

(** The three stores of the innermost loop body. *)
Lemma sampled_store W x y dx dy :
  0 <= x -> x mod F = 0 -> 0 <= y -> y mod F = 0 -> 0 <= dx < F -> 0 <= dy < F ->
  x + dx < w -> y + dy < h ->
  let idx := (y * w + x) * 4 in
  let blockIdx := ((y + dy) * w + (x + dx)) * 4 in
  ta_set (ta_set (ta_set (tab (length src) (sampled_cell w F src W)) blockIdx (ta_get src idx))
           (blockIdx + 1) (ta_get src (idx + 1))) (blockIdx + 2) (ta_get src (idx + 2)) =
  tab (length src) (sampled_cell w F src
    (fun px py c => W px py c || (px =? x + dx) && (py =? y + dy) && (c <? 3))).
Proof.
  intros Hx Hxm Hy Hym Hdx Hdy Hxw Hyh idx blockIdx.
  assert (G : forall c, 0 <= c < 4 ->
     ta_get src (idx + c) = Some (nth (Z.to_nat (idx + c)) src 0) /\
     0 <= nth (Z.to_nat (idx + c)) src 0 <= 255).
  { intros c Hc. unfold idx. split; [apply ta_get_in | apply nth_in_range; [exact Hr|]]; nia. }
  destruct (G 0 ltac:(lia)) as [G0 R0]. rewrite Z.add_0_r in G0, R0.
  destruct (G 1 ltac:(lia)) as [G1 R1]. destruct (G 2 ltac:(lia)) as [G2 R2].
  rewrite G0, G1, G2.
  rewrite !ta_set_tab by (unfold blockIdx; nia).
  apply tab_ext. intros j Hj.
  assert (Hw0 : 0 < w) by lia.
  destruct (cell_decomp w (Z.of_nat j) Hw0 ltac:(lia)) as (E & Hpx & Hpy & Hc).
  set (px := Z.of_nat j / 4 mod w) in *. set (py := Z.of_nat j / 4 / w) in *.
  set (c := Z.of_nat j mod 4) in *.
  assert (Hcorner : F * ((y + dy) / F) = y /\ F * ((x + dx) / F) = x).
  { split.
    - pose proof (Z.div_mod y F ltac:(lia)) as D. rewrite Hym, Z.add_0_r in D.
      rewrite D at 1. rewrite block_div by lia. lia.
    - pose proof (Z.div_mod x F ltac:(lia)) as D. rewrite Hxm, Z.add_0_r in D.
      rewrite D at 1. rewrite block_div by lia. lia. }
  destruct Hcorner as [Hcy Hcx].
  unfold sampled_cell. fold px py c.
  destruct (Z.eqb_spec px (x + dx)), (Z.eqb_spec py (y + dy)), (Z.ltb_spec c 3);
    rewrite ?orb_false_r, ?orb_true_r, ?andb_false_r; cbn [andb].
  - (* one of the three stored cells *)
    assert (Hjb : Z.to_nat (Z.of_nat j) = Z.to_nat (blockIdx + c)) by (unfold blockIdx; rewrite E at 1; f_equal; lia).
    rewrite Nat2Z.id in Hjb.
    rewrite E, block_corner_cell by lia. rewrite e, e0, Hcy, Hcx.
    destruct (Z.eq_dec c 0) as [->|]; [|destruct (Z.eq_dec c 1) as [->|]; [|assert (c = 2) as -> by lia]].
    + rewrite Z.add_0_r in Hjb. fold idx in Hjb |- *. rewrite Z.add_0_r.
      destruct (Nat.eqb_spec j (Z.to_nat (blockIdx + 2))); [lia|].
      destruct (Nat.eqb_spec j (Z.to_nat (blockIdx + 1))); [lia|].
      destruct (Nat.eqb_spec j (Z.to_nat blockIdx)); [reflexivity|lia].
    + fold idx.
      destruct (Nat.eqb_spec j (Z.to_nat (blockIdx + 2))); [lia|].
      destruct (Nat.eqb_spec j (Z.to_nat (blockIdx + 1))); [reflexivity|lia].
    + fold idx.
      destruct (Nat.eqb_spec j (Z.to_nat (blockIdx + 2))); [reflexivity|lia].
  - (* the alpha cell of the stored pixel *)
    destruct (Nat.eqb_spec j (Z.to_nat (blockIdx + 2))); [unfold blockIdx in *; lia|].
    destruct (Nat.eqb_spec j (Z.to_nat (blockIdx + 1))); [unfold blockIdx in *; lia|].
    destruct (Nat.eqb_spec j (Z.to_nat blockIdx)); [unfold blockIdx in *; lia|].
    reflexivity.
  - destruct (Nat.eqb_spec j (Z.to_nat (blockIdx + 2))); [unfold blockIdx in *; nia|].
    destruct (Nat.eqb_spec j (Z.to_nat (blockIdx + 1))); [unfold blockIdx in *; nia|].
    destruct (Nat.eqb_spec j (Z.to_nat blockIdx)); [unfold blockIdx in *; nia|].
    reflexivity.
  - destruct (Nat.eqb_spec j (Z.to_nat (blockIdx + 2))); [unfold blockIdx in *; nia|].
    destruct (Nat.eqb_spec j (Z.to_nat (blockIdx + 1))); [unfold blockIdx in *; nia|].
    destruct (Nat.eqb_spec j (Z.to_nat blockIdx)); [unfold blockIdx in *; nia|].
    reflexivity.
  - destruct (Nat.eqb_spec j (Z.to_nat (blockIdx + 2))); [unfold blockIdx in *; nia|].
    destruct (Nat.eqb_spec j (Z.to_nat (blockIdx + 1))); [unfold blockIdx in *; nia|].
    destruct (Nat.eqb_spec j (Z.to_nat blockIdx)); [unfold blockIdx in *; nia|].
    reflexivity.
  - destruct (Nat.eqb_spec j (Z.to_nat (blockIdx + 2))); [unfold blockIdx in *; nia|].
    destruct (Nat.eqb_spec j (Z.to_nat (blockIdx + 1))); [unfold blockIdx in *; nia|].
    destruct (Nat.eqb_spec j (Z.to_nat blockIdx)); [unfold blockIdx in *; nia|].
    reflexivity.
  - destruct (Nat.eqb_spec j (Z.to_nat (blockIdx + 2))); [unfold blockIdx in *; nia|].
    destruct (Nat.eqb_spec j (Z.to_nat (blockIdx + 1))); [unfold blockIdx in *; nia|].
    destruct (Nat.eqb_spec j (Z.to_nat blockIdx)); [unfold blockIdx in *; nia|].
    reflexivity.
  - destruct (Nat.eqb_spec j (Z.to_nat (blockIdx + 2))); [unfold blockIdx in *; nia|].
    destruct (Nat.eqb_spec j (Z.to_nat (blockIdx + 1))); [unfold blockIdx in *; nia|].
    destruct (Nat.eqb_spec j (Z.to_nat blockIdx)); [unfold blockIdx in *; nia|].
    reflexivity.
Qed.

Ltac bool_lia :=
  apply Bool.eq_iff_eq_true;
  rewrite ?Bool.orb_true_iff, ?Bool.andb_true_iff, ?Z.ltb_lt, ?Z.leb_le, ?Z.eqb_eq;
  split; intros; lia.

Lemma sampling_loops :
  js_for (Z.to_nat h) 0 F (fun y => y <? h) (fun y data =>
    js_for (Z.to_nat w) 0 F (fun x => x <? w) (fun x data =>
      let idx := (y * w + x) * 4 in
      let r := ta_get src idx in
      let g := ta_get src (idx + 1) in
      let b := ta_get src (idx + 2) in
      js_for (Z.to_nat F) 0 1 (fun dy => (dy <? F) && (y + dy <? h)) (fun dy data =>
        js_for (Z.to_nat F) 0 1 (fun dx => (dx <? F) && (x + dx <? w)) (fun dx data =>
          let blockIdx := ((y + dy) * w + (x + dx)) * 4 in
          ta_set (ta_set (ta_set data blockIdx r) (blockIdx + 1) g) (blockIdx + 2) b) data) data) data)
    src =
  tab (length src) (sampled_cell w F src (fun _ _ c => c <? 3)).
Proof.
  cbv zeta.
  set (L := length src).
  apply (js_for_post (fun y s => 0 <= y /\ y mod F = 0 /\
           s = tab L (sampled_cell w F src (fun px py c => (py <? y) && (c <? 3))))
         (fun r => r = tab L (sampled_cell w F src (fun _ _ c => c <? 3)))).
  - split; [lia|]. split; [reflexivity|].
    rewrite <- sampled_none at 1. apply sampled_ext. intros. bool_lia.
  - intros y s Hy (Hy0 & Hym & ->). apply Z.ltb_lt in Hy.
    split; [lia|]. split; [rewrite Z.add_mod, Hym, Z.mod_same, Z.mod_0_l by lia; reflexivity|].
    apply (js_for_post (fun x s => 0 <= x /\ x mod F = 0 /\
             s = tab L (sampled_cell w F src (fun px py c =>
                   (py <? y) && (c <? 3) || (y <=? py) && (py <? y + F) && (px <? x) && (c <? 3))))
           (fun r => r = tab L (sampled_cell w F src (fun px py c => (py <? y + F) && (c <? 3))))).
    + split; [lia|]. split; [reflexivity|]. apply sampled_ext. intros. bool_lia.
    + intros x s' Hx (Hx0 & Hxm & ->). apply Z.ltb_lt in Hx.
      split; [lia|]. split; [rewrite Z.add_mod, Hxm, Z.mod_same, Z.mod_0_l by lia; reflexivity|].
      apply (js_for_post (fun dy s => 0 <= dy <= F /\
               s = tab L (sampled_cell w F src (fun px py c =>
                     (py <? y) && (c <? 3) || (y <=? py) && (py <? y + F) && (px <? x) && (c <? 3) ||
                     (y <=? py) && (py <? y + dy) && (x <=? px) && (px <? x + F) && (c <? 3))))
             (fun r => r = tab L (sampled_cell w F src (fun px py c =>
                     (py <? y) && (c <? 3) || (y <=? py) && (py <? y + F) && (px <? x + F) && (c <? 3))))).
      * split; [lia|]. apply sampled_ext. intros. bool_lia.
      * intros dy s'' Hdy (Hdy0 & ->). apply Bool.andb_true_iff in Hdy. rewrite !Z.ltb_lt in Hdy.
        split; [lia|].
        apply (js_for_post (fun dx s => 0 <= dx <= F /\
                 s = tab L (sampled_cell w F src (fun px py c =>
                       (py <? y) && (c <? 3) || (y <=? py) && (py <? y + F) && (px <? x) && (c <? 3) ||
                       (y <=? py) && (py <? y + dy) && (x <=? px) && (px <? x + F) && (c <? 3) ||
                       (py =? y + dy) && (x <=? px) && (px <? x + dx) && (c <? 3))))
               (fun r => r = tab L (sampled_cell w F src (fun px py c =>
                       (py <? y) && (c <? 3) || (y <=? py) && (py <? y + F) && (px <? x) && (c <? 3) ||
                       (y <=? py) && (py <? y + (dy + 1)) && (x <=? px) && (px <? x + F) && (c <? 3))))).
        -- split; [lia|]. apply sampled_ext. intros. bool_lia.
        -- intros dx s3 Hdx (Hdx0 & ->). apply Bool.andb_true_iff in Hdx. rewrite !Z.ltb_lt in Hdx.
           split; [lia|]. unfold L. rewrite sampled_store by lia.
           apply sampled_ext. intros. bool_lia.
        -- intros j Hj. apply Bool.andb_true_iff in Hj. rewrite !Z.ltb_lt in Hj. lia.
        -- intros dxf s3 (Hdx0 & ->) Hdxf. apply sampled_ext. intros px py c Hpx Hpy Hc.
           apply Bool.andb_false_iff in Hdxf. rewrite !Z.ltb_ge in Hdxf. bool_lia.
      * intros j Hj. apply Bool.andb_true_iff in Hj. rewrite !Z.ltb_lt in Hj. lia.
      * intros dyf s3 (Hdy0 & ->) Hdyf. apply sampled_ext. intros px py c Hpx Hpy Hc.
        apply Bool.andb_false_iff in Hdyf. rewrite !Z.ltb_ge in Hdyf. bool_lia.
    + intros j Hj. apply Z.ltb_lt in Hj. nia.
    + intros xf s3 (Hx0 & Hxm & ->) Hxf. apply sampled_ext. intros px py c Hpx Hpy Hc.
      apply Z.ltb_ge in Hxf. bool_lia.
  - intros j Hj. apply Z.ltb_lt in Hj. nia.
  - intros yf s3 (Hy0 & Hym & ->) Hyf. apply sampled_ext. intros px py c Hpx Hpy Hc.
    apply Z.ltb_ge in Hyf. bool_lia.
Qed.

End SamplingProofs.

Lemma nth_byte l k : samples_in_range l -> 0 <= nth k l 0 <= 255.
Proof.
  intros Hr. destruct (nth_lookup_or_length l k 0) as [E|E].
  - eapply in_range_lookup; eauto.
  - rewrite nth_overflow by lia. lia.
Qed.

Lemma tab_in_range n f : (forall j, (j < n)%nat -> 0 <= f j <= 255) -> samples_in_range (tab n f).
Proof.
  intros Hf. unfold samples_in_range. apply Forall_lookup. intros j v Hj.
  rewrite lookup_tab in Hj. destruct (Nat.ltb_spec j n); [|discriminate].
  injection Hj as <-. apply Hf. lia.
Qed.

(** X27: [applySampling] keeps the size of a well-formed image and its alpha
    samples, and gives every pixel the colour of the top-left pixel of its
    [factor x factor] block, where [factor] is rounded and clamped to
    [[1, 32]]. *)
Theorem applySampling_blocks (img : ImageData) (factor : Q) :
  wf_image img ->
  let F := Z.max 1 (Z.min 32 (js_round factor)) in
  let out := applySampling img factor in
  wf_image out /\ width out = width img /\ height out = height img /\
  forall x y c, 0 <= x < width img -> 0 <= y < height img -> 0 <= c < 4 ->
    data out !! Z.to_nat ((y * width img + x) * 4 + c) =
    (if c <? 3 then data img !! Z.to_nat (((F * (y / F)) * width img + F * (x / F)) * 4 + c)
     else data img !! Z.to_nat ((y * width img + x) * 4 + c)).
Proof.
  intros Hwf F out. destruct Hwf as (Hw & Hh & Hlen & Hr).
  assert (HF : 1 <= F) by lia.
  assert (Hdata : data out = tab (length (data img)) (sampled_cell (width img) F (data img) (fun _ _ c => c <? 3))).
  { unfold out, applySampling. cbn [data]. fold F.
    apply (sampling_loops (width img) (height img) F (data img)); assumption. }
  assert (Hout : width out = width img /\ height out = height img) by (split; reflexivity).
  destruct Hout as [Ew Eh].
  split; [|split; [exact Ew | split; [exact Eh|]]].
  - split; [lia|]. split; [lia|]. rewrite Hdata, length_tab, Ew, Eh. split; [exact Hlen|].
    apply tab_in_range. intros j _. unfold sampled_cell.
    destruct (_ <? 3); apply nth_byte; exact Hr.
  - intros x y c Hx Hy Hc. rewrite Hdata, lookup_tab.
    destruct (Nat.ltb_spec (Z.to_nat ((y * width img + x) * 4 + c)) (length (data img))); [|nia].
    unfold sampled_cell. cbv zeta. rewrite Z2Nat.id by nia.
    destruct (pixel_index_decode (width img) x y c Hx ltac:(lia) Hc) as (E1 & E2 & E3 & E4).
    rewrite E2, block_corner_cell by lia.
    destruct (c <? 3).
    + destruct (nth_lookup_or_length (data img) (Z.to_nat (((F * (y / F)) * width img + F * (x / F)) * 4 + c)) 0)
        as [L|L]; [rewrite L; reflexivity|].
      exfalso. assert (0 <= x / F <= x) by (split; [apply Z.div_pos | apply Z.div_le_upper_bound]; nia).
      assert (0 <= y / F <= y) by (split; [apply Z.div_pos | apply Z.div_le_upper_bound]; nia).
      assert (F * (x / F) <= x) by (apply Z.mul_div_le; lia).
      assert (F * (y / F) <= y) by (apply Z.mul_div_le; lia).
      nia.
    + destruct (nth_lookup_or_length (data img) (Z.to_nat ((y * width img + x) * 4 + c)) 0)
        as [L|L]; [rewrite L; reflexivity | lia].
Qed.

Lemma applySampling_blocks_witness :
  wf_image (mkImageData 2 2 [1; 2; 3; 4; 5; 6; 7; 8; 9; 10; 11; 12; 13; 14; 15; 16]) /\
  data (applySampling (mkImageData 2 2 [1; 2; 3; 4; 5; 6; 7; 8; 9; 10; 11; 12; 13; 14; 15; 16]) 2)
    !! Z.to_nat ((1 * 2 + 1) * 4 + 0) =
  (if 0 <? 3
   then [1; 2; 3; 4; 5; 6; 7; 8; 9; 10; 11; 12; 13; 14; 15; 16]
          !! Z.to_nat (((Z.max 1 (Z.min 32 (js_round 2)) * (1 / Z.max 1 (Z.min 32 (js_round 2)))) * 2 +
                        Z.max 1 (Z.min 32 (js_round 2)) * (1 / Z.max 1 (Z.min 32 (js_round 2)))) * 4 + 0)
   else [1; 2; 3; 4; 5; 6; 7; 8; 9; 10; 11; 12; 13; 14; 15; 16] !! Z.to_nat ((1 * 2 + 1) * 4 + 0)).
Proof.
  assert (H : wf_image (mkImageData 2 2 [1; 2; 3; 4; 5; 6; 7; 8; 9; 10; 11; 12; 13; 14; 15; 16]))
    by wf_solve.
  split; [exact H|].
  apply (proj2 (proj2 (proj2 (applySampling_blocks _ 2 H))) 1 1 0); cbn; lia.
Defined.

Section HistoryProofs.

Variable A : Type.

Lemma push_shape (st : HistoryModel A) s :
  history_inv st ->
  let k := Z.to_nat (currentIndex st + 1) in
  let nh := take k (history st) ++ [s] in
  length nh = S k /\
  push st s =
    (if (50 <? Z.of_nat (S k))%Z then mkHistory (tail nh) (Z.of_nat k - 1)
     else mkHistory nh (Z.of_nat k)).
Proof.
  intros (Hl & Hi & He) k nh.
  assert (Hk : length nh = S k).
  { unfold nh. rewrite length_app, length_take. cbn. lia. }
  split; [exact Hk|].
  unfold push, slice0. destruct (Z.ltb_spec (currentIndex st + 1) 0); [lia|].
  fold k nh. unfold MAX_HISTORY_SIZE. rewrite Hk.
  destruct (Z.ltb_spec 50 (Z.of_nat (S k))).
  - f_equal. destruct nh as [|a l]; [discriminate|]. cbn in Hk |- *. lia.
  - f_equal. lia.
Qed.

Lemma history_inv_step (st : HistoryModel A) op :
  history_inv st -> history_inv (history_step st op).
Proof.
  intros Hinv. destruct op as [s| | |]; cbn [history_step].
  - destruct (push_shape st s Hinv) as [Hk ->]. destruct Hinv as (Hl & Hi & He).
    set (k := Z.to_nat (currentIndex st + 1)) in *.
    set (nh := take k (history st) ++ [s]) in *.
    assert (k <= length (history st))%nat by lia.
    destruct (Z.ltb_spec 50 (Z.of_nat (S k))); unfold history_inv; cbn [history currentIndex].
    + destruct nh as [|a l]; [discriminate|]. cbn in Hk |- *. unfold MAX_HISTORY_SIZE in *.
      split; [lia|]. split; [lia|]. split; [lia|]. intros ->. cbn in Hk. lia.
    + rewrite Hk. unfold MAX_HISTORY_SIZE in *. split; [lia|]. split; [lia|].
      split; [lia|]. intros E. rewrite E in Hk. discriminate.
  - unfold undo. destruct Hinv as (Hl & Hi & He).
    destruct (Z.ltb_spec 0 (currentIndex st)); cbn [snd]; unfold history_inv; cbn [history currentIndex].
    + split; [lia|]. split; [lia|]. split; [lia|]. intros E. rewrite E in *. cbn in *. lia.
    + auto.
  - unfold redo. destruct Hinv as (Hl & Hi & He).
    destruct (Z.ltb_spec (currentIndex st) (Z.of_nat (length (history st)) - 1));
      cbn [snd]; unfold history_inv; cbn [history currentIndex].
    + split; [lia|]. split; [lia|]. split; [lia|]. intros E. rewrite E in *. cbn in *. lia.
    + auto.
  - unfold clear, history_inv. cbn. unfold MAX_HISTORY_SIZE. split; [lia|]. split; [lia|]. tauto.
Qed.

Lemma current_some (st : HistoryModel A) :
  history_inv st -> 0 <= currentIndex st ->
  exists c, current st = Some c /\ history st !! Z.to_nat (currentIndex st) = Some c.
Proof.
  intros (Hl & Hi & He) H0. unfold current, js_index.
  destruct (Z.leb_spec 0 (currentIndex st)); [|lia].
  destruct (Z.ltb_spec (currentIndex st) 0); [lia|].
  destruct (lookup_lt_is_Some_2 (history st) (Z.to_nat (currentIndex st))) as [c Hc]; [lia|].
  exists c. rewrite Hc. auto.
Qed.

End HistoryProofs.

(** X28: Whatever sequence of [push], [undo], [redo] and [clear] a component
    performs from either initial state, [useHistory] keeps at most 50
    states, [currentIndex] stays in [[-1, historyLength)], and there is
    no [current] state exactly when the history is empty. *)
Theorem useHistory_invariant {A : Type} (initialState : option A) (ops : list (history_op A)) :
  let st := run_history (initHistory initialState) ops in
  history_inv st /\ (current st = None <-> history st = []).
Proof.
  cbv zeta.
  assert (Hinv : history_inv (run_history (initHistory initialState) ops)).
  { unfold run_history.
    assert (H0 : history_inv (initHistory initialState)).
    { destruct initialState; unfold history_inv, MAX_HISTORY_SIZE; cbn.
      - split; [lia|]. split; [lia|]. split; [lia | discriminate].
      - split; [lia|]. split; [lia|]. tauto. }
    revert H0. generalize (initHistory initialState). induction ops as [|op ops IH]; intros st Hst; cbn.
    - exact Hst.
    - apply IH, history_inv_step, Hst. }
  split; [exact Hinv|].
  destruct (Z.eq_dec (currentIndex (run_history (initHistory initialState) ops)) (-1)) as [E|E].
  - pose proof Hinv as (_ & _ & He). unfold current. rewrite E. cbn. split; [intros _; apply He, E | auto].
  - destruct (current_some A _ Hinv) as (c & Hc & _); [pose proof Hinv as (_ & ? & _); lia|].
    rewrite Hc. pose proof Hinv as (_ & _ & He). split; [discriminate|]. intros H. apply He in H. lia.
Qed.

(** X29: After [push(s)], [s] is the current state and there is nothing to
    redo; if there was a current state, [undo] is possible and goes back
    to it, also when the push dropped the oldest state. *)
Theorem useHistory_push {A : Type} (st : HistoryModel A) (s : A) :
  history_inv st ->
  current (push st s) = Some s /\ canRedo (push st s) = false /\
  (forall c, current st = Some c -> canUndo (push st s) = true /\ fst (undo (push st s)) = Some c).
Proof.
  intros Hinv. destruct (push_shape A st s Hinv) as [Hk ->].
  pose proof Hinv as (Hl & Hi & He). unfold MAX_HISTORY_SIZE in Hl.
  set (k := Z.to_nat (currentIndex st + 1)) in *.
  set (nh := take k (history st) ++ [s]) in *.
  assert (Hkl : (k <= length (history st))%nat) by lia.
  assert (Htk : length (take k (history st)) = k) by (rewrite length_take; lia).
  assert (Hs : nh !! k = Some s) by (unfold nh; apply list_lookup_middle; lia).
  assert (Hprev : forall c, current st = Some c -> (1 <= k)%nat /\ nh !! (k - 1)%nat = Some c).
  { intros c Hc. unfold current, js_index in Hc.
    destruct (Z.leb_spec 0 (currentIndex st)); [|discriminate].
    destruct (Z.ltb_spec (currentIndex st) 0); [lia|].
    split; [lia|]. unfold nh. rewrite lookup_app_l by lia. rewrite lookup_take_lt by lia.
    rewrite <- Hc. f_equal. lia. }
  destruct (Z.ltb_spec 50 (Z.of_nat (S k))).
  - assert (k = 50%nat) by lia.
    unfold current, canRedo, canUndo, undo, js_index; cbn [history currentIndex].
    assert (Ht : length (tail nh) = k) by (destruct nh; cbn in *; lia).
    rewrite Ht.
    destruct (Z.leb_spec 0 (Z.of_nat k - 1)); [|lia].
    destruct (Z.ltb_spec (Z.of_nat k - 1) 0); [lia|].
    split; [|split].
    + rewrite lookup_tail. rewrite <- Hs. f_equal. lia.
    + apply Z.ltb_ge. lia.
    + intros c Hc. destruct (Hprev c Hc) as [Hk1 Hc'].
      destruct (Z.ltb_spec 0 (Z.of_nat k - 1)); [|lia]. split; [reflexivity|]. cbn [fst].
      destruct (Z.ltb_spec (Z.of_nat k - 1 - 1) 0); [lia|].
      rewrite lookup_tail. rewrite <- Hc'. f_equal. lia.
  - unfold current, canRedo, canUndo, undo, js_index; cbn [history currentIndex].
    rewrite Hk.
    destruct (Z.leb_spec 0 (Z.of_nat k)); [|lia].
    destruct (Z.ltb_spec (Z.of_nat k) 0); [lia|].
    split; [|split].
    + rewrite Nat2Z.id. exact Hs.
    + apply Z.ltb_ge. lia.
    + intros c Hc. destruct (Hprev c Hc) as [Hk1 Hc'].
      destruct (Z.ltb_spec 0 (Z.of_nat k)); [|lia]. split; [reflexivity|]. cbn [fst].
      destruct (Z.ltb_spec (Z.of_nat k - 1) 0); [lia|].
      rewrite <- Hc'. f_equal. lia.
Qed.

Lemma useHistory_push_witness :
  history_inv (mkHistory [1; 2]%nat 1) /\
  current (push (mkHistory [1; 2]%nat 1) 3%nat) = Some 3%nat /\
  canRedo (push (mkHistory [1; 2]%nat 1) 3%nat) = false /\
  canUndo (push (mkHistory [1; 2]%nat 1) 3%nat) = true /\
  fst (undo (push (mkHistory [1; 2]%nat 1) 3%nat)) = Some 2%nat.
Proof.
  assert (H : history_inv (mkHistory [1; 2]%nat 1)).
  { unfold history_inv, MAX_HISTORY_SIZE. cbn. split; [lia|]. split; [lia|].
    split; [intros E; discriminate E | intros E; discriminate E]. }
  destruct (useHistory_push _ 3%nat H) as (A & B & C).
  split; [exact H|]. split; [exact A|]. split; [exact B|].
  apply C. reflexivity.
Defined.

(** X30: [redo] after a possible [undo], and [undo] after a possible [redo],
    come back to the same position and return the state current there. *)
Theorem useHistory_undo_redo {A : Type} (st : HistoryModel A) :
  history_inv st ->
  (canUndo st = true -> redo (snd (undo st)) = (current st, st)) /\
  (canRedo st = true -> undo (snd (redo st)) = (current st, st)).
Proof.
  intros (Hl & Hi & He). destruct st as [h i]. cbn [history currentIndex] in *.
  unfold canUndo, canRedo, undo, redo, current; cbn [history currentIndex snd].
  split; intros Hc; cbn [history currentIndex] in Hc.
  - rewrite Hc. cbn [history currentIndex snd]. apply Z.ltb_lt in Hc.
    destruct (Z.ltb_spec (i - 1) (Z.of_nat (length h) - 1)); [|lia].
    destruct (Z.leb_spec 0 i); [|lia]. f_equal; f_equal; lia.
  - rewrite Hc. cbn [history currentIndex snd]. apply Z.ltb_lt in Hc.
    assert (Hi0 : 0 <= i).
    { destruct (Z.eq_dec i (-1)) as [E|E]; [|lia].
      apply He in E. rewrite E in Hc. cbn in Hc. lia. }
    destruct (Z.ltb_spec 0 (i + 1)); [|lia].
    destruct (Z.leb_spec 0 i); [|lia]. f_equal; f_equal; lia.
Qed.

Lemma useHistory_undo_redo_witness :
  (history_inv (mkHistory [1; 2]%nat 1) /\ canUndo (mkHistory [1; 2]%nat 1) = true) /\
  redo (snd (undo (mkHistory [1; 2]%nat 1))) =
  (current (mkHistory [1; 2]%nat 1), mkHistory [1; 2]%nat 1).
Proof.
  assert (H : history_inv (mkHistory [1; 2]%nat 1)).
  { unfold history_inv, MAX_HISTORY_SIZE. cbn. split; [lia|]. split; [lia|].
    split; [intros E; discriminate E | intros E; discriminate E]. }
  assert (U : canUndo (mkHistory [1; 2]%nat 1) = true) by reflexivity.
  split; [split; assumption|].
  apply (proj1 (useHistory_undo_redo _ H) U).
Defined.
